(** * NuXLModificationsGenerator: precursor adduct generation

    A shallow embedding of
    [src/openms/source/ANALYSIS/NUXL/NuXLModificationsGenerator.cpp]
    ([notInSeq], [initModificationMassesNA], [generateTargetSequences])
    together with the properties of the generator.

    Conventions of the embedding:
    - an OpenMS [String] is a list of characters ([list ascii]);
    - [std::map] and [std::set] are key-ordered lists, iterated in key order;
    - a call either returns, throws, runs into an out-of-range access, or
      exhausts the iteration budget of a loop over a growing set
      (type [outcome]);
    - [Int] values and container sizes are integers ([Z], [nat]); container
      sizes are taken to be below 2^31, so the casts [(Int)size()] are exact. *)

From Stdlib Require Import Ascii String List ZArith Lia Bool Arith.
From Stdlib Require Import Permutation Sorted DecimalString.
Import ListNotations.

Set Implicit Arguments.

(* ===================================================================== *)
(** ** Outcomes of a call *)
(* ===================================================================== *)

Inductive Exn : Type :=
| MissingInformation   (* Exception::MissingInformation *)
| ParseError.          (* raised by the EmpiricalFormula constructor *)

Inductive outcome (A : Type) : Type :=
| Returns (a : A)
| Throws (e : Exn)
| Undefined            (* access outside a vector or string *)
| OutOfFuel.           (* a loop did not finish within its budget *)

Arguments Returns {A} a.
Arguments Throws {A} e.
Arguments Undefined {A}.
Arguments OutOfFuel {A}.

Definition bind {A B} (c : outcome A) (k : A -> outcome B) : outcome B :=
  match c with
  | Returns a => k a
  | Throws e => Throws e
  | Undefined => Undefined
  | OutOfFuel => OutOfFuel
  end.

Declare Scope outcome_scope.
Delimit Scope outcome_scope with outcome.
Notation "x <- c ;; k" := (bind c (fun x => k))
  (at level 61, c at next level, right associativity) : outcome_scope.
Notation "' pat <- c ;; k" := (bind c (fun x => match x with pat => k end))
  (at level 61, pat pattern, c at next level, right associativity) : outcome_scope.
Open Scope outcome_scope.

(** Monadic left fold: the body of a [for] loop run over a vector. *)
Fixpoint foldM {A S} (f : S -> A -> outcome S) (l : list A) (s : S) : outcome S :=
  match l with
  | [] => Returns s
  | a :: l' => s' <- f s a ;; foldM f l' s'
  end.

Definition of_option {A} (e : Exn) (o : option A) : outcome A :=
  match o with Some a => Returns a | None => Throws e end.

(* ===================================================================== *)
(** ** Comparators ([std::less]) *)
(* ===================================================================== *)

Class Ordered (K : Type) : Type := {
  cmp : K -> K -> comparison;
  cmp_eq : forall a b, cmp a b = Eq <-> a = b;
  cmp_antisym : forall a b, cmp b a = CompOpp (cmp a b);
  cmp_trans : forall a b c, cmp a b = Lt -> cmp b c = Lt -> cmp a c = Lt
}.

Definition ltb {K} `{Ordered K} (a b : K) : bool :=
  match cmp a b with Lt => true | _ => false end.

Definition keq {K} `{Ordered K} (a b : K) : bool :=
  match cmp a b with Eq => true | _ => false end.

(** Characters compare by their code. *)
Definition char_cmp (a b : ascii) : comparison :=
  N.compare (N_of_ascii a) (N_of_ascii b).

Lemma N_of_ascii_inj a b : N_of_ascii a = N_of_ascii b -> a = b.
Proof.
  intros E. rewrite <- (ascii_N_embedding a), <- (ascii_N_embedding b).
  now rewrite E.
Qed.

Lemma char_cmp_eq a b : char_cmp a b = Eq <-> a = b.
Proof.
  unfold char_cmp. rewrite N.compare_eq_iff. split.
  - apply N_of_ascii_inj.
  - now intros ->.
Qed.

Lemma char_cmp_antisym a b : char_cmp b a = CompOpp (char_cmp a b).
Proof. unfold char_cmp. apply N.compare_antisym. Qed.

Lemma char_cmp_trans a b c :
  char_cmp a b = Lt -> char_cmp b c = Lt -> char_cmp a c = Lt.
Proof. unfold char_cmp. rewrite !N.compare_lt_iff. lia. Qed.

#[export] Instance Ordered_char : Ordered ascii :=
  {| cmp := char_cmp; cmp_eq := char_cmp_eq;
     cmp_antisym := char_cmp_antisym; cmp_trans := char_cmp_trans |}.

(** An OpenMS [String]. *)
Definition String := list ascii.

Definition str (s : string) : String := list_ascii_of_string s.

(** [std::string::compare]: lexicographic on character codes. *)
Fixpoint str_cmp (a b : String) : comparison :=
  match a, b with
  | [], [] => Eq
  | [], _ :: _ => Lt
  | _ :: _, [] => Gt
  | x :: a', y :: b' =>
      match char_cmp x y with
      | Eq => str_cmp a' b'
      | c => c
      end
  end.

Lemma str_cmp_eq a b : str_cmp a b = Eq <-> a = b.
Proof.
  revert b. induction a as [|x a IH]; intros [|y b]; simpl;
    try (split; [discriminate | congruence]); try (split; reflexivity).
  - destruct (char_cmp x y) eqn:E.
    + apply char_cmp_eq in E. subst y. rewrite IH. split; congruence.
    + split; [discriminate|]. intros [= -> _].
      assert (char_cmp y y = Eq) by now apply char_cmp_eq. congruence.
    + split; [discriminate|]. intros [= -> _].
      assert (char_cmp y y = Eq) by now apply char_cmp_eq. congruence.
Qed.

Lemma str_cmp_antisym a b : str_cmp b a = CompOpp (str_cmp a b).
Proof.
  revert b. induction a as [|x a IH]; intros [|y b]; simpl; try reflexivity.
  rewrite (char_cmp_antisym x y).
  destruct (char_cmp x y); simpl; auto.
Qed.

Lemma str_cmp_trans a b c :
  str_cmp a b = Lt -> str_cmp b c = Lt -> str_cmp a c = Lt.
Proof.
  revert b c. induction a as [|x a IH]; intros [|y b] [|z c]; simpl;
    try congruence.
  destruct (char_cmp x y) eqn:Exy; try discriminate.
  - apply char_cmp_eq in Exy. subst y.
    destruct (char_cmp x z); try congruence. apply IH.
  - intros _. destruct (char_cmp y z) eqn:Eyz; try discriminate.
    + apply char_cmp_eq in Eyz. subst z. now rewrite Exy.
    + now rewrite (char_cmp_trans _ _ _ Exy Eyz).
Qed.

#[export] Instance Ordered_String : Ordered String :=
  {| cmp := str_cmp; cmp_eq := str_cmp_eq;
     cmp_antisym := str_cmp_antisym; cmp_trans := str_cmp_trans |}.

Section OrderedFacts.
Context {K : Type} `{Ordered K}.

Lemma cmp_refl (a : K) : cmp a a = Eq.
Proof. now apply cmp_eq. Qed.

Lemma keq_true (a b : K) : keq a b = true <-> a = b.
Proof.
  unfold keq. rewrite <- cmp_eq. destruct (cmp a b); split; congruence.
Qed.

Lemma keq_false (a b : K) : keq a b = false <-> a <> b.
Proof.
  unfold keq. rewrite <- cmp_eq. destruct (cmp a b); split; congruence.
Qed.

Lemma keq_refl (a : K) : keq a a = true.
Proof. now apply keq_true. Qed.

Lemma key_eq_dec (a b : K) : {a = b} + {a <> b}.
Proof.
  destruct (keq a b) eqn:E.
  - left. now apply keq_true.
  - right. now apply keq_false.
Qed.

Lemma cmp_Gt_Lt (a b : K) : cmp a b = Gt <-> cmp b a = Lt.
Proof.
  rewrite (cmp_antisym a b). destruct (cmp a b); simpl; split; congruence.
Qed.

Lemma cmp_Lt_neq (a b : K) : cmp a b = Lt -> a <> b.
Proof. intros E ->. rewrite cmp_refl in E. discriminate. Qed.

Lemma cmp_Lt_asym (a b : K) : cmp a b = Lt -> cmp b a = Lt -> False.
Proof.
  intros E1 E2. rewrite (cmp_antisym a b), E1 in E2. discriminate.
Qed.
End OrderedFacts.


(* ===================================================================== *)
(** ** Ordered containers: [std::set<K>] and [std::map<K, V>] *)
(* ===================================================================== *)

Section Containers.
Context {K : Type} `{Ordered K}.

(** *** [std::set<K>]: the elements in increasing order *)

Definition oset := list K.

(** [s.insert(x)] *)
Fixpoint set_insert (x : K) (s : oset) : oset :=
  match s with
  | [] => [x]
  | y :: s' =>
      match cmp x y with
      | Lt => x :: s
      | Eq => s
      | Gt => y :: set_insert x s'
      end
  end.

(** [s.erase(x)] *)
Fixpoint set_erase (x : K) (s : oset) : oset :=
  match s with
  | [] => []
  | y :: s' => if keq x y then s' else y :: set_erase x s'
  end.

(** [s.count(x) > 0] *)
Definition set_mem (x : K) (s : oset) : bool := existsb (keq x) s.

(** [s.begin()], with [None] for [s.end()] *)
Definition set_begin (s : oset) : option K := hd_error s.

(** [++it] for an iterator standing at [x]: the least element above [x] *)
Fixpoint set_next (s : oset) (x : K) : option K :=
  match s with
  | [] => None
  | y :: s' => if ltb x y then Some y else set_next s' x
  end.

(** *** [std::map<K, V>]: the entries in increasing key order *)

Variable V : Type.

Definition omap := list (K * V).

(** [m.find(k)] *)
Fixpoint map_find (k : K) (m : omap) : option V :=
  match m with
  | [] => None
  | (k', v) :: m' => if keq k k' then Some v else map_find k m'
  end.

(** [m[k]] followed by an update [f] of the mapped value; [f None] is the
    update of the value-initialised entry that [operator[]] creates. *)
Fixpoint map_upsert (k : K) (f : option V -> V) (m : omap) : omap :=
  match m with
  | [] => [(k, f None)]
  | (k', v) :: m' =>
      match cmp k k' with
      | Lt => (k, f None) :: m
      | Eq => (k', f (Some v)) :: m'
      | Gt => (k', v) :: map_upsert k f m'
      end
  end.

(** [m.erase(k)] *)
Fixpoint map_erase (k : K) (m : omap) : omap :=
  match m with
  | [] => []
  | (k', v) :: m' => if keq k k' then m' else (k', v) :: map_erase k m'
  end.

Definition map_keys (m : omap) : list K := map fst m.

End Containers.

Arguments oset K : clear implicits.
Arguments omap K V : clear implicits.

(** [m[k]] read as a value: the mapped value, value-initialised when absent *)
Definition map_get {K V} `{Ordered K} (dflt : V) (k : K) (m : omap K V) : V :=
  match map_find k m with Some v => v | None => dflt end.

(** [m[k] = v] *)
Definition map_set {K V} `{Ordered K} (k : K) (v : V) (m : omap K V) : omap K V :=
  map_upsert k (fun _ => v) m.

(** [m[k]] for its side effect only: the entry exists afterwards *)
Definition map_touch {K V} `{Ordered K} (dflt : V) (k : K) (m : omap K V) : omap K V :=
  map_upsert k (fun o => match o with Some v => v | None => dflt end) m.

(** [m[k].push_back(x)] on a map of vectors *)
Definition map_push_back {K A} `{Ordered K} (k : K) (x : A) (m : omap K (list A))
  : omap K (list A) :=
  map_upsert k (fun o => match o with Some v => v ++ [x] | None => [x] end) m.

(** [m[k].insert(x)] on a map of sets *)
Definition map_set_insert {K E} `{Ordered K} `{Ordered E} (k : K) (x : E)
  (m : omap K (oset E)) : omap K (oset E) :=
  map_upsert k (fun o => match o with Some s => set_insert x s | None => [x] end) m.

(** [m[k].erase(x)] on a map of sets *)
Definition map_set_erase {K E} `{Ordered K} `{Ordered E} (k : K) (x : E)
  (m : omap K (oset E)) : omap K (oset E) :=
  map_upsert k (fun o => match o with Some s => set_erase x s | None => [] end) m.


(* ===================================================================== *)
(** ** Strings and vectors *)
(* ===================================================================== *)

(** [v[i]] on a [std::vector]: defined for [i < v.size()] only. *)
Definition vector_at {A} (v : list A) (i : nat) : outcome A :=
  match nth_error v i with
  | Some a => Returns a
  | None => Undefined
  end.

(** [s[i]] on a [std::string]: the character for [i < s.size()], the
    terminating null character for [i = s.size()], undefined beyond. *)
Definition string_at (s : String) (i : nat) : outcome ascii :=
  match nth_error s i with
  | Some c => Returns c
  | None => if i =? length s then Returns zero else Undefined
  end.

(** [s.substr(pos, n)], used with [pos <= s.size()] *)
Definition substr (s : String) (pos n : nat) : String := firstn n (skipn pos s).

(** [s.prefix(n)], used with [n <= s.size()] *)
Definition prefix (s : String) (n : nat) : String := firstn n s.

(** [s.find(c)], with [None] for [npos] *)
Fixpoint find_char (c : ascii) (s : String) : option nat :=
  match s with
  | [] => None
  | x :: s' => if Ascii.eqb x c then Some 0 else option_map S (find_char c s')
  end.

(** [min(p1, p2)] on positions, [npos] being the largest value *)
Definition min_pos (p1 p2 : option nat) : option nat :=
  match p1, p2 with
  | Some a, Some b => Some (Nat.min a b)
  | Some a, None => Some a
  | None, p => p
  end.

Fixpoint starts_with (pat s : String) : bool :=
  match pat, s with
  | [], _ => true
  | _ :: _, [] => false
  | p :: pat', c :: s' => Ascii.eqb p c && starts_with pat' s'
  end.

(** Scan of [String::split]: [cur] holds the current field in reverse,
    [skip] counts the characters of a separator still to be passed over. *)
Fixpoint split_from (sep : String) (skip : nat) (s cur : String) : list String :=
  match s with
  | [] => [rev cur]
  | c :: s' =>
      match skip with
      | S k => split_from sep k s' cur
      | O =>
          if starts_with sep s
          then rev cur :: split_from sep (length sep - 1) s' []
          else split_from sep 0 s' (c :: cur)
      end
  end.

(** Modelled from the spec: [String::split(splitter, fields)] of the OpenMS
    string class, which is not among the sources. An empty string has no
    field; an empty splitter splits after every character; otherwise the
    fields are the pieces between the successive leftmost occurrences of
    the splitter, the whole string when there is none. *)
Definition split (sep s : String) : list String :=
  match s, sep with
  | [], _ => []
  | _, [] => map (fun c => [c]) s
  | _, _ => split_from sep 0 s []
  end.

(** [concatenate(first, last, glue)] *)
Fixpoint concatenate (glue : String) (parts : list String) : String :=
  match parts with
  | [] => []
  | [p] => p
  | p :: ps => p ++ glue ++ concatenate glue ps
  end.

(** Modelled from the spec: [String::substitute(from, to)] on strings, not
    among the sources: every occurrence of [from] is replaced by [to]
    (split on [from], joined with [to]). *)
Definition substitute (from to s : String) : String :=
  match from with
  | [] => s
  | _ => concatenate to (split from s)
  end.

(** Modelled from the spec: [String::substitute(from, to)] on characters,
    not among the sources: every [from] becomes [to]. *)
Definition substitute_char (from to : ascii) (s : String) : String :=
  map (fun c => if Ascii.eqb c from then to else c) s.

(** Modelled from the spec: [String::remove(what)], not among the sources:
    every occurrence of the character is dropped. *)
Definition remove_char (what : ascii) (s : String) : String :=
  filter (fun c => negb (Ascii.eqb c what)) s.

(** [std::sort] on the characters of a string *)
Fixpoint insert_sorted (c : ascii) (s : String) : String :=
  match s with
  | [] => [c]
  | x :: s' => if ltb x c then x :: insert_sorted c s' else c :: s
  end.

Definition sort_chars (s : String) : String := fold_right insert_sorted [] s.

(** [a == b] on strings *)
Definition String_eqb (a b : String) : bool := keq a b.

(** [islower(c)] in the C locale *)
Definition islower (c : ascii) : bool :=
  let n := nat_of_ascii c in (97 <=? n) && (n <=? 122).

(** [s.find_first_of(chars) != npos] *)
Definition find_first_of (s chars : String) : bool :=
  existsb (fun c => existsb (Ascii.eqb c) chars) s.

(* ===================================================================== *)
(** ** The formula library *)
(* ===================================================================== *)

(** The generator uses [EmpiricalFormula] through its constructor from a
    string, [operator+], [operator-], [setCharge], [toString] and
    [getMonoWeight]. The class is not among the sources, so the generator
    is embedded over any implementation of this interface. Monoisotopic
    weights are only ever compared for equality. *)
Class FormulaLibrary : Type := {
  EmpiricalFormula : Type;
  Mass : Type;
  Mass_eq_dec : forall x y : Mass, {x = y} + {x <> y};
  parseFormula : String -> option EmpiricalFormula;
  ef_add : EmpiricalFormula -> EmpiricalFormula -> EmpiricalFormula;
  ef_sub : EmpiricalFormula -> EmpiricalFormula -> EmpiricalFormula;
  setCharge : EmpiricalFormula -> Z -> EmpiricalFormula;
  toString : EmpiricalFormula -> String;
  getMonoWeight : EmpiricalFormula -> Mass
}.

(** [EmpiricalFormula(s)]: the constructor throws on a malformed formula. *)
Definition newFormula `{FormulaLibrary} (s : String) : outcome EmpiricalFormula :=
  of_option ParseError (parseFormula s).

(* ===================================================================== *)
(** ** [notInSeq] (lines 50-67) *)
(* ===================================================================== *)

(** The [for] loop over the start [l] of the k-mer, [iters] starts left. *)
Fixpoint notInSeq_loop (iters : nat) (res_seq query : String) (l : nat) : bool :=
  match iters with
  | O => true
  | S iters' =>
      let a := substr res_seq l (length query) in
      let b := query in
      if String_eqb (sort_chars a) (sort_chars b) then false
      else notInSeq_loop iters' res_seq query (S l)
  end.

Definition notInSeq (res_seq query : String) : bool :=
  match query with
  | [] => false
  | _ =>
      let last := (Z.of_nat (length res_seq) - Z.of_nat (length query))%Z in
      notInSeq_loop (Z.to_nat (last + 1)) res_seq query 0
  end.


(* ===================================================================== *)
(** ** [generateTargetSequences] (lines 526-581) *)
(* ===================================================================== *)

(** [mod_seq[pos] = t] *)
Fixpoint set_char (s : String) (pos : nat) (t : ascii) : String :=
  match s, pos with
  | [], _ => []
  | _ :: s', O => t :: s'
  | c :: s', S p => c :: set_char s' p t
  end.

(** The validity count of lines 557-575: a position counts once when its
    character is no source nucleotide, and once per target equal to it. *)
Definition count_valid (map_source2target : omap ascii (list ascii))
  (res_seq : String) : nat :=
  fold_left
    (fun count c =>
       match map_find c map_source2target with
       | None => S count
       | Some targets => count + length (filter (Ascii.eqb c) targets)
       end)
    res_seq 0.

(** Lines 577-580: the sequence is appended when every position counted. *)
Definition push_if_valid (map_source2target : omap ascii (list ascii))
  (res_seq : String) : list String :=
  if count_valid map_source2target res_seq =? length res_seq
  then [res_seq] else [].

(** The [while] loop of lines 531-554 with [n] positions left; the result
    is what the loop appends to [target_sequences]. A recursive call on
    [mod_seq] runs this loop from the next position and then appends
    [mod_seq] when valid. *)
Fixpoint expand_from (n : nat) (map_source2target : omap ascii (list ascii))
  (res_seq : String) (param_pos : nat) : list String :=
  match n with
  | O => []
  | S n' =>
      let c := nth param_pos res_seq zero in
      (match map_find c map_source2target with
       | None => []
       | Some targets =>
           flat_map
             (fun t =>
                if Ascii.eqb c t then []
                else
                  let mod_seq := set_char res_seq param_pos t in
                  expand_from n' map_source2target mod_seq (S param_pos)
                  ++ push_if_valid map_source2target mod_seq)
             targets
       end)
      ++ expand_from n' map_source2target res_seq (S param_pos)
  end.

Definition generateTargetSequences (res_seq : String) (param_pos : nat)
  (map_source2target : omap ascii (list ascii)) : list String :=
  expand_from (length res_seq - param_pos) map_source2target res_seq param_pos
  ++ push_if_valid map_source2target res_seq.

(* ===================================================================== *)
(** ** [initModificationMassesNA], configuration part (lines 79-234) *)
(* ===================================================================== *)

(** Lines 98-104: [map_source_to_targets[fields[0][0]].push_back(fields[1][0])] *)
Definition parse_mapping (m : omap ascii (list ascii)) (s : String)
  : outcome (omap ascii (list ascii)) :=
  let fields := split (str "->") s in
  f0 <- vector_at fields 0 ;;
  source <- string_at f0 0 ;;
  f1 <- vector_at fields 1 ;;
  target <- string_at f1 0 ;;
  Returns (map_push_back source target m).

Definition parse_mappings (mappings : list String)
  : outcome (omap ascii (list ascii)) :=
  foldM parse_mapping mappings [].

(** Lines 106-111: [source_nucleotides.push_back(s[0])] *)
Definition extract_source_nucleotides (mappings : list String)
  : outcome (list ascii) :=
  foldM (fun v s => c <- string_at s 0 ;; Returns (v ++ [c])) mappings [].

(** Lines 128-136: every source nucleotide in front of every combination *)
Definition grow_combinations (source_nucleotides : list ascii)
  (actual_combinations : list String) : list String :=
  flat_map (fun n => map (fun c => n :: c) actual_combinations) source_nucleotides.

(** Lines 125-138, [rounds] iterations left *)
Fixpoint grow_rounds (rounds : nat) (source_nucleotides : list ascii)
  (actual_combinations all_combinations : list String) : list String :=
  match rounds with
  | O => all_combinations
  | S rounds' =>
      let new_combinations := grow_combinations source_nucleotides actual_combinations in
      grow_rounds rounds' source_nucleotides new_combinations
        (all_combinations ++ new_combinations)
  end.

(** Lines 115-138: [all_combinations] of the source nucleotides *)
Definition all_source_combinations (source_nucleotides : list ascii)
  (max_length : Z) : list String :=
  let singles := map (fun c => [c]) source_nucleotides in
  grow_rounds (Z.to_nat (max_length - 1)) source_nucleotides singles singles.

(** Lines 113-144 *)
Definition restriction_or_all (source_nucleotides : list ascii)
  (sequence_restriction : String) (max_length : Z) : String :=
  match sequence_restriction with
  | [] => concat (all_source_combinations source_nucleotides max_length)
  | _ => sequence_restriction
  end.

(** Lines 150-168, over the entries still ahead of the iterator: the map
    without its one-target entries, and the restriction sequence with the
    renames applied. The vectors of the map are never empty. *)
Fixpoint erase_trivial (entries : omap ascii (list ascii))
  (sequence_restriction : String) : omap ascii (list ascii) * String :=
  match entries with
  | [] => ([], sequence_restriction)
  | (source, targets) :: entries' =>
      match targets with
      | [first_target] =>
          if Ascii.eqb source first_target
          then erase_trivial entries' sequence_restriction
          else erase_trivial entries'
                 (substitute_char source first_target sequence_restriction)
      | _ =>
          let '(kept, seq) := erase_trivial entries' sequence_restriction in
          ((source, targets) :: kept, seq)
      end
  end.

Section Generator.
Context `{FormulaLibrary}.

Definition NucleotideModificationSubFormula : Type := EmpiricalFormula * bool.
Definition NucleotideModification : Type := list NucleotideModificationSubFormula.
Definition NucleotideModifications : Type := list NucleotideModification.

Record NuXLModificationMassesResult : Type := {
  formula2mass : omap String Mass;
  mod_combinations : omap String (oset String)
}.

(** Lines 90-95: [map_target_to_formula[fields[0]] = EmpiricalFormula(fields[1])] *)
Definition parse_target_nucleotide (m : omap String EmpiricalFormula) (s : String)
  : outcome (omap String EmpiricalFormula) :=
  let fields := split (str "=") s in
  f1 <- vector_at fields 1 ;;
  formula <- newFormula f1 ;;
  f0 <- vector_at fields 0 ;;
  Returns (map_set f0 formula m).

Definition parse_target_nucleotides (target_nucleotides : list String)
  : outcome (omap String EmpiricalFormula) :=
  foldM parse_target_nucleotide target_nucleotides [].

(** Lines 207-227: one piece [ems[j]] of a modification *)
Definition parse_subformula (nucleotide_modification : NucleotideModification)
  (em : String) : outcome NucleotideModification :=
  match em with
  | [] => Returns nucleotide_modification
  | c :: _ =>
      let '(mod_is_subtractive, em') :=
        if Ascii.eqb c "-" then (true, remove_char "-" em)
        else if Ascii.eqb c "+" then (false, remove_char "+" em)
        else (false, em) in
      ef <- newFormula em' ;;
      Returns (nucleotide_modification ++ [(setCharge ef 0, mod_is_subtractive)])
  end.

(** Lines 184-230: one modification string *)
Definition parse_modification (mods : omap String NucleotideModifications)
  (m : String) : outcome (omap String NucleotideModifications) :=
  c1 <- string_at m 1 ;;
  if negb (Ascii.eqb c1 ":") then Throws MissingInformation
  else
    c0 <- string_at m 0 ;;
    let target_nucleotide : String := [c0] in
    let m := skipn 2 m in
    let m := substitute (str "-") (str "#-") m in
    let m := substitute (str "+") (str "#+") m in
    let ems := split (str "#") m in
    nucleotide_modification <- foldM parse_subformula ems [] ;;
    Returns (map_push_back target_nucleotide nucleotide_modification mods).

Definition parse_modifications (modifications : list String)
  : outcome (omap String NucleotideModifications) :=
  foldM parse_modification modifications [].

(* ===================================================================== *)
(** ** [initModificationMassesNA], generation part (lines 253-335) *)
(* ===================================================================== *)

(** Lines 272-287: one subformula is appended to the nucleotide string and
    applied to the sum formula. *)
Definition apply_subformula (acc : EmpiricalFormula * String)
  (sf : NucleotideModificationSubFormula) : EmpiricalFormula * String :=
  let '(sum_formula, nt) := acc in
  let mod_ef := fst sf in
  let mod_str := toString (fst sf) in
  if snd sf
  then (ef_sub sum_formula mod_ef, nt ++ str "-" ++ mod_str)
  else (ef_add sum_formula mod_ef, nt ++ str "+" ++ mod_str).

(** Lines 270-287: the sum formula and the nucleotide string of one
    modification of one nucleotide *)
Definition modified_nucleotide (target_nucleotide : String)
  (target_nucleotide_formula : EmpiricalFormula) (nt_mod : NucleotideModification)
  : EmpiricalFormula * String :=
  fold_left apply_subformula nt_mod (target_nucleotide_formula, target_nucleotide).

(** Line 267: the set is declared and looked up, and never inserted into. *)
Definition formulas_of_modified_nucleotide : oset String := [].

(** Lines 268-300: body of the loop over the modifications of a nucleotide *)
Definition add_modified_nucleotide (target_nucleotide : String)
  (target_nucleotide_formula : EmpiricalFormula)
  (st : list EmpiricalFormula * omap String (oset String))
  (nt_mod : NucleotideModification)
  : list EmpiricalFormula * omap String (oset String) :=
  let '(actual_combinations, mc) := st in
  let '(sum_formula, nt) :=
    modified_nucleotide target_nucleotide target_nucleotide_formula nt_mod in
  if set_mem (toString sum_formula) formulas_of_modified_nucleotide
  then st
  else (actual_combinations ++ [sum_formula],
        map_set_insert (toString sum_formula) nt mc).

(** Lines 257-301: body of the loop over the target nucleotides *)
Definition add_target_nucleotide
  (map_to_nucleotide_modifications : omap String NucleotideModifications)
  (st : list EmpiricalFormula * omap String (oset String))
  (entry : String * EmpiricalFormula)
  : list EmpiricalFormula * omap String (oset String) :=
  let nt_mods := map_get [] (fst entry) map_to_nucleotide_modifications in
  fold_left (add_modified_nucleotide (fst entry) (snd entry)) nt_mods st.

(** Lines 256-301: [actual_combinations] and [result.mod_combinations]
    after the single nucleotides *)
Definition single_nucleotides (map_target_to_formula : omap String EmpiricalFormula)
  (map_to_nucleotide_modifications : omap String NucleotideModifications)
  : list EmpiricalFormula * omap String (oset String) :=
  fold_left (add_target_nucleotide map_to_nucleotide_modifications)
    map_target_to_formula ([], []).

(** Lines 321-325: the loop over [ambiguities], a reference into
    [result.mod_combinations] at key [src], while strings are inserted at
    key [dst]. The iterator [it] stands at an element of the live set and
    advances to its successor there. *)
Fixpoint extend_ambiguities (fuel : nat) (target_nucleotide src dst : String)
  (it : option String) (mc : omap String (oset String))
  : outcome (omap String (oset String)) :=
  match it with
  | None => Returns mc
  | Some s =>
      match fuel with
      | O => OutOfFuel
      | S fuel' =>
          let mc' := map_set_insert dst (target_nucleotide ++ s) mc in
          extend_ambiguities fuel' target_nucleotide src dst
            (set_next (map_get [] src mc') s) mc'
      end
  end.

(** The state of the chain extension: [new_combinations],
    [all_combinations], [result.mod_combinations] *)
Definition chain_state : Type :=
  list EmpiricalFormula * list EmpiricalFormula * omap String (oset String).

(** Lines 316-326: body of the loop over [actual_combinations] *)
Definition extend_combination (fuel : nat) (target_nucleotide : String)
  (target_nucleotide_formula : EmpiricalFormula) (st : chain_state)
  (ac : EmpiricalFormula) : outcome chain_state :=
  let '(new_combinations, all_combinations, mc) := st in
  water <- newFormula (str "H2O") ;;
  let extended := ef_sub (ef_add target_nucleotide_formula ac) water in
  let new_combinations := new_combinations ++ [extended] in
  let all_combinations := all_combinations ++ [extended] in
  let mc := map_touch [] (toString ac) mc in
  mc <- extend_ambiguities fuel target_nucleotide (toString ac) (toString extended)
          (set_begin (map_get [] (toString ac) mc)) mc ;;
  Returns (new_combinations, all_combinations, mc).

(** Lines 311-327: body of the loop over the target nucleotides *)
Definition extend_by_nucleotide (fuel : nat) (actual_combinations : list EmpiricalFormula)
  (st : chain_state) (target_to_formula : String * EmpiricalFormula)
  : outcome chain_state :=
  foldM (extend_combination fuel (fst target_to_formula) (snd target_to_formula))
    actual_combinations st.

(** Lines 310-328: one round of the chain extension *)
Definition extension_round (fuel : nat)
  (map_target_to_formula : omap String EmpiricalFormula)
  (actual_combinations all_combinations : list EmpiricalFormula)
  (mc : omap String (oset String)) : outcome chain_state :=
  foldM (extend_by_nucleotide fuel actual_combinations) map_target_to_formula
    ([], all_combinations, mc).

(** Lines 308-329, [rounds] iterations left: [actual_combinations],
    [all_combinations] and [result.mod_combinations] at the end *)
Fixpoint extension_rounds (fuel rounds : nat)
  (map_target_to_formula : omap String EmpiricalFormula)
  (actual_combinations all_combinations : list EmpiricalFormula)
  (mc : omap String (oset String)) : outcome chain_state :=
  match rounds with
  | O => Returns (actual_combinations, all_combinations, mc)
  | S rounds' =>
      '(new_combinations, all_combinations, mc) <-
        extension_round fuel map_target_to_formula actual_combinations
          all_combinations mc ;;
      extension_rounds fuel rounds' map_target_to_formula new_combinations
        all_combinations mc
  end.

(** Lines 307-329 *)
Definition chain_extension (fuel : nat) (max_length : Z)
  (map_target_to_formula : omap String EmpiricalFormula)
  (actual_combinations : list EmpiricalFormula) (mc : omap String (oset String))
  : outcome (list EmpiricalFormula * omap String (oset String)) :=
  '(_, all_combinations, mc) <-
    extension_rounds fuel (Z.to_nat (max_length - 1)) map_target_to_formula
      actual_combinations actual_combinations mc ;;
  Returns (all_combinations, mc).

(** Lines 331-334 *)
Definition fill_formula2mass (all_combinations : list EmpiricalFormula)
  : omap String Mass :=
  fold_left (fun f2m c => map_set (toString c) (getMonoWeight c) f2m)
    all_combinations [].

(* ===================================================================== *)
(** ** [initModificationMassesNA], restriction filter (lines 348-450) *)
(* ===================================================================== *)

(** Lines 357-366: the nucleotides in front of the first ['-'] or ['+'] *)
Definition strip_modifications (s : String) : String :=
  let p1 := find_char "-" s in
  let p2 := find_char "+" s in
  match min_pos p1 p2 with
  | Some p => prefix s p
  | None => s
  end.

(** Lines 357-369: the sorted nucleotide composition of an ambiguity *)
Definition nucleotide_composition (s : String) : String :=
  sort_chars (strip_modifications s).

(** Lines 373-374 *)
Definition count_lower (nucleotide_style_formula : String) : nat :=
  length (filter islower nucleotide_style_formula).

(** Lines 383-384 *)
Definition has_xl_nt (can_xl : oset ascii) (nucleotide_style_formula : String) : bool :=
  existsb (fun c => set_mem c can_xl) nucleotide_style_formula.

(** Lines 400-404 *)
Definition found_in_n_groups (nt_groups : list String)
  (nucleotide_style_formula : String) : nat :=
  length (filter (find_first_of nucleotide_style_formula) nt_groups).

(** Lines 413-420 *)
Definition containment_violated (target_sequences : list String)
  (nucleotide_style_formula : String) : bool :=
  let violation_count :=
    length (filter (fun current_target_seq =>
                      notInSeq current_target_seq nucleotide_style_formula)
              target_sequences) in
  violation_count =? length target_sequences.

(** [==] on [pair<String, double>] *)
Definition composition_eqb (a b : String * Mass) : bool :=
  String_eqb (fst a) (fst b) && (if Mass_eq_dec (snd a) (snd b) then true else false).

(** Lines 429-432: [find(...) != end()] *)
Definition already_added (unique_nucleotide_and_mod_composition : list (String * Mass))
  (composition : String * Mass) : bool :=
  existsb (fun u => composition_eqb u composition) unique_nucleotide_and_mod_composition.

(** The state of the filter: [unique_nucleotide_and_mod_composition] and
    [violates_restriction] *)
Definition filter_state : Type := list (String * Mass) * list (String * String).

Section Filter.
Variable nt_groups : list String.
Variable can_xl : oset ascii.
Variable max_length : Z.
Variable target_sequences : list String.

(** Lines 355-439: body of the loop over the ambiguities of one formula *)
Definition filter_ambiguity (formula : String) (mass : Mass) (st : filter_state)
  (s : String) : filter_state :=
  let '(unique, violates_restriction) := st in
  let nucleotide_style_formula := nucleotide_composition s in
  if 2 <=? count_lower nucleotide_style_formula
  then (unique, violates_restriction ++ [(formula, s)])
  else if negb (has_xl_nt can_xl nucleotide_style_formula)
  then (unique, violates_restriction ++ [(formula, s)])
  else if (Z.of_nat (length nucleotide_style_formula) >? max_length)%Z
  then (unique, violates_restriction ++ [(formula, s)])
  else if 1 <? found_in_n_groups nt_groups nucleotide_style_formula
  then (unique, violates_restriction ++ [(formula, s)])
  else
    let violates_restriction :=
      if containment_violated target_sequences nucleotide_style_formula
      then violates_restriction ++ [(formula, s)]
      else violates_restriction in
    let violates_restriction :=
      if already_added unique (nucleotide_style_formula, mass)
      then violates_restriction ++ [(formula, s)]
      else violates_restriction in
    (unique ++ [(nucleotide_style_formula, mass)], violates_restriction).

(** Lines 351-440: body of the loop over [result.formula2mass];
    [result.mod_combinations[formula]] creates a missing entry. *)
Definition filter_formula (st : omap String (oset String) * filter_state)
  (entry : String * Mass) : omap String (oset String) * filter_state :=
  let '(mc, fst_) := st in
  let mc := map_touch [] (fst entry) mc in
  let ambiguities := map_get [] (fst entry) mc in
  (mc, fold_left (filter_ambiguity (fst entry) (snd entry)) ambiguities fst_).

(** Lines 348-440 *)
Definition restriction_filter (f2m : omap String Mass)
  (mc : omap String (oset String)) : omap String (oset String) * filter_state :=
  fold_left filter_formula f2m (mc, ([], [])).

End Filter.

(** Lines 442-450 *)
Definition erase_violating (violates_restriction : list (String * String))
  (mc : omap String (oset String)) : omap String (oset String) :=
  fold_left (fun mc v => map_set_erase (fst v) (snd v) mc) violates_restriction mc.

Definition is_empty {A} (l : list A) : bool :=
  match l with [] => true | _ => false end.

(** Lines 453-464: the entries with an empty set leave
    [result.mod_combinations], their keys leave [result.formula2mass]. *)
Definition erase_empty (f2m : omap String Mass) (mc : omap String (oset String))
  : omap String Mass * omap String (oset String) :=
  (fold_left (fun f2m e => if is_empty (snd e) then map_erase (fst e) f2m else f2m)
     mc f2m,
   filter (fun e => negb (is_empty (snd e))) mc).

(** Line 82 *)
Definition cysteine_adduct_string : String := str "C4H8S2O2".

(** Lines 467-471 *)
Definition add_cysteine_adduct (cysteine_adduct : bool)
  (cysteine_adduct_formula : EmpiricalFormula)
  (f2m : omap String Mass) (mc : omap String (oset String))
  : omap String Mass * omap String (oset String) :=
  if cysteine_adduct
  then (map_set (toString cysteine_adduct_formula)
          (getMonoWeight cysteine_adduct_formula) f2m,
        map_set_insert (toString cysteine_adduct_formula) cysteine_adduct_string mc)
  else (f2m, mc).

(* ===================================================================== *)
(** ** [initModificationMassesNA] (lines 70-523) *)
(* ===================================================================== *)

(** Lines 98-168: the substitution map after the one-target rules are
    erased, and the restriction sequence handed to the expander *)
Definition effective_restriction (mappings : list String)
  (sequence_restriction : String) (max_length : Z)
  : outcome (omap ascii (list ascii) * String) :=
  map_source_to_targets <- parse_mappings mappings ;;
  source_nucleotides <- extract_source_nucleotides mappings ;;
  let sequence_restriction :=
    restriction_or_all source_nucleotides sequence_restriction max_length in
  Returns (erase_trivial map_source_to_targets sequence_restriction).

(** Lines 253-471: from the parsed configuration to the result *)
Definition generate_and_filter (fuel : nat)
  (map_target_to_formula : omap String EmpiricalFormula)
  (map_to_nucleotide_modifications : omap String NucleotideModifications)
  (target_sequences : list String)
  (nt_groups : list String) (can_xl : oset ascii)
  (cysteine_adduct : bool) (cysteine_adduct_formula : EmpiricalFormula)
  (max_length : Z) : outcome NuXLModificationMassesResult :=
  let '(actual_combinations, mc) :=
    single_nucleotides map_target_to_formula map_to_nucleotide_modifications in
  '(all_combinations, mc) <-
    chain_extension fuel max_length map_target_to_formula actual_combinations mc ;;
  let f2m := fill_formula2mass all_combinations in
  let '(mc, (_, violates_restriction)) :=
    restriction_filter nt_groups can_xl max_length target_sequences f2m mc in
  let mc := erase_violating violates_restriction mc in
  let '(f2m, mc) := erase_empty f2m mc in
  let '(f2m, mc) := add_cysteine_adduct cysteine_adduct cysteine_adduct_formula f2m mc in
  Returns {| formula2mass := f2m; mod_combinations := mc |}.

Definition initModificationMassesNA (fuel : nat)
  (target_nucleotides : list String) (nt_groups : list String)
  (can_xl : oset ascii) (mappings : list String) (modifications : list String)
  (sequence_restriction : String) (cysteine_adduct : bool) (max_length : Z)
  : outcome NuXLModificationMassesResult :=
  cysteine_adduct_formula <- newFormula cysteine_adduct_string ;;
  map_target_to_formula <- parse_target_nucleotides target_nucleotides ;;
  '(map_source_to_targets, sequence_restriction) <-
    effective_restriction mappings sequence_restriction max_length ;;
  map_to_nucleotide_modifications <- parse_modifications modifications ;;
  let target_sequences :=
    generateTargetSequences sequence_restriction 0 map_source_to_targets in
  generate_and_filter fuel map_target_to_formula map_to_nucleotide_modifications
    target_sequences nt_groups can_xl cysteine_adduct cysteine_adduct_formula
    max_length.

End Generator.


(* ===================================================================== *)
(** ** A formula library for the examples *)
(* ===================================================================== *)

Module SimpleFormulas.

(** Modelled from the spec: the Formula Algebra ([EmpiricalFormula]), which
    is not among the sources: "parses chemical-formula strings into
    atom-count vectors, supports addition/subtraction, canonical string
    rendering, and mass computation". A formula is the count of each element
    symbol, in symbol order, zero counts dropped; the canonical string lists
    each symbol followed by its count. *)
Definition formula : Type := omap String Z.

(** Monoisotopic weights in micro-dalton, standing for the [double]s. *)
Definition element_weight (symbol : String) : option Z :=
  if String_eqb symbol (str "C") then Some 12000000%Z
  else if String_eqb symbol (str "H") then Some 1007825%Z
  else if String_eqb symbol (str "N") then Some 14003074%Z
  else if String_eqb symbol (str "O") then Some 15994915%Z
  else if String_eqb symbol (str "P") then Some 30973762%Z
  else if String_eqb symbol (str "S") then Some 31972071%Z
  else None.

Definition add_atoms (symbol : String) (n : Z) (f : formula) : formula :=
  filter (fun e => negb (Z.eqb (snd e) 0))
    (map_upsert symbol (fun o => match o with Some c => (c + n)%Z | None => n end) f).

Definition add (a b : formula) : formula :=
  fold_left (fun f e => add_atoms (fst e) (snd e) f) b a.

Definition sub (a b : formula) : formula :=
  fold_left (fun f e => add_atoms (fst e) (- snd e) f) b a.

Definition is_upper (c : ascii) : bool :=
  let n := nat_of_ascii c in (65 <=? n) && (n <=? 90).

Definition is_digit (c : ascii) : bool :=
  let n := nat_of_ascii c in (48 <=? n) && (n <=? 57).

(** The element being read: its symbol and the digits of its count. *)
Definition flush (symbol : String) (count : option Z) (f : formula) : option formula :=
  match symbol with
  | [] => Some f
  | _ =>
      match element_weight symbol with
      | Some _ => Some (add_atoms symbol (match count with Some n => n | None => 1%Z end) f)
      | None => None
      end
  end.

Fixpoint parse_from (s symbol : String) (count : option Z) (f : formula)
  : option formula :=
  match s with
  | [] => flush symbol count f
  | c :: s' =>
      if is_upper c then
        match flush symbol count f with
        | Some f' => parse_from s' [c] None f'
        | None => None
        end
      else if islower c then
        match symbol, count with
        | _ :: _, None => parse_from s' (symbol ++ [c]) None f
        | _, _ => None
        end
      else if is_digit c then
        match symbol with
        | _ :: _ =>
            let d := Z.of_nat (nat_of_ascii c - 48) in
            parse_from s' symbol
              (Some (match count with Some n => 10 * n + d | None => d end)%Z) f
        | [] => None
        end
      else None
  end.

Definition parse (s : String) : option formula := parse_from s [] None [].

Definition decimal (n : Z) : String :=
  list_ascii_of_string (DecimalString.NilZero.string_of_int (Z.to_int n)).

Definition to_string (f : formula) : String :=
  flat_map (fun e => fst e ++ decimal (snd e)) f.

Definition mono_weight (f : formula) : Z :=
  fold_left
    (fun w e => match element_weight (fst e) with
                | Some m => (w + snd e * m)%Z
                | None => w
                end)
    f 0%Z.

#[export] Instance library : FormulaLibrary := {|
  EmpiricalFormula := formula;
  Mass := Z;
  Mass_eq_dec := Z.eq_dec;
  parseFormula := parse;
  ef_add := add;
  ef_sub := sub;
  setCharge := fun f _ => f;
  toString := to_string;
  getMonoWeight := mono_weight
|}.

End SimpleFormulas.


(* ===================================================================== *)
(** * Properties *)
(* ===================================================================== *)

(** ** Sorting and anagrams *)

Lemma ltb_char_Lt (a b : ascii) : ltb a b = true <-> char_cmp a b = Lt.
Proof.
  unfold ltb. simpl. destruct (char_cmp a b); split; congruence.
Qed.

Lemma char_total (a b : ascii) : ltb a b = false -> ltb b a = false -> a = b.
Proof.
  unfold ltb. simpl. rewrite (char_cmp_antisym a b).
  destruct (char_cmp a b) eqn:E; simpl; try discriminate.
  intros _ _. now apply char_cmp_eq.
Qed.

Lemma char_ltb_trans (a b c : ascii) :
  ltb a b = true -> ltb b c = true -> ltb a c = true.
Proof. rewrite !ltb_char_Lt. apply char_cmp_trans. Qed.

Lemma char_ltb_asym (a b : ascii) : ltb a b = true -> ltb b a = false.
Proof.
  unfold ltb. simpl. rewrite (char_cmp_antisym a b).
  destruct (char_cmp a b); simpl; congruence.
Qed.

Lemma char_ltb_le_trans (a b c : ascii) :
  ltb a b = true -> ltb c b = false -> ltb a c = true.
Proof.
  intros Hab Hcb. destruct (ltb a c) eqn:Hac; [reflexivity|].
  destruct (ltb c a) eqn:Hca.
  - rewrite (char_ltb_trans _ _ _ Hca Hab) in Hcb. discriminate.
  - rewrite (char_total _ _ Hac Hca) in Hab. congruence.
Qed.

Lemma char_le_ltb_trans (a b c : ascii) :
  ltb b a = false -> ltb b c = true -> ltb a c = true.
Proof.
  intros Hba Hbc. destruct (ltb a c) eqn:Hac; [reflexivity|].
  destruct (ltb a b) eqn:Hab.
  - now rewrite (char_ltb_trans _ _ _ Hab Hbc) in Hac.
  - rewrite (char_total _ _ Hab Hba) in Hac. congruence.
Qed.

Lemma insert_sorted_comm (x y : ascii) (s : String) :
  insert_sorted x (insert_sorted y s) = insert_sorted y (insert_sorted x s).
Proof.
  induction s as [|h t IH]; simpl.
  - destruct (ltb y x) eqn:Hyx, (ltb x y) eqn:Hxy; try reflexivity.
    + rewrite (char_ltb_asym _ _ Hyx) in Hxy. discriminate.
    + now rewrite (char_total _ _ Hxy Hyx).
  - destruct (ltb h y) eqn:Hhy, (ltb h x) eqn:Hhx; simpl;
      rewrite ?Hhy, ?Hhx; simpl.
    + now rewrite IH.
    + rewrite (char_le_ltb_trans _ _ _ Hhx Hhy). simpl. rewrite ?Hhy, ?Hhx. reflexivity.
    + rewrite (char_le_ltb_trans _ _ _ Hhy Hhx). simpl. rewrite ?Hhy, ?Hhx. reflexivity.
    + destruct (ltb y x) eqn:Hyx, (ltb x y) eqn:Hxy; simpl;
        rewrite ?Hhy, ?Hhx; try reflexivity.
      * rewrite (char_ltb_asym _ _ Hyx) in Hxy. discriminate.
      * now rewrite (char_total _ _ Hxy Hyx).
Qed.

Lemma insert_sorted_perm (c : ascii) (s : String) :
  Permutation (insert_sorted c s) (c :: s).
Proof.
  induction s as [|h t IH]; simpl; [reflexivity|].
  destruct (ltb h c); [|reflexivity].
  rewrite IH. apply perm_swap.
Qed.

Lemma sort_chars_perm (s : String) : Permutation (sort_chars s) s.
Proof.
  induction s as [|c s IH]; simpl; [reflexivity|].
  rewrite insert_sorted_perm. now constructor.
Qed.

Lemma sort_chars_length (s : String) : length (sort_chars s) = length s.
Proof. apply Permutation_length, sort_chars_perm. Qed.

Lemma sort_chars_of_perm (a b : String) :
  Permutation a b -> sort_chars a = sort_chars b.
Proof.
  induction 1; simpl.
  - reflexivity.
  - now f_equal.
  - apply insert_sorted_comm.
  - congruence.
Qed.

Lemma String_eqb_eq (a b : String) : String_eqb a b = true <-> a = b.
Proof. apply keq_true. Qed.

(** Two strings sort to the same string exactly when they are anagrams. *)
Lemma sorted_equal_iff_anagram (a b : String) :
  String_eqb (sort_chars a) (sort_chars b) = true <-> Permutation a b.
Proof.
  rewrite String_eqb_eq. split.
  - intros E. rewrite <- (sort_chars_perm a), E. apply sort_chars_perm.
  - apply sort_chars_of_perm.
Qed.

(** ** [notInSeq] *)

Lemma notInSeq_loop_false (iters : nat) (res_seq query : String) (l : nat) :
  notInSeq_loop iters res_seq query l = false <->
  exists j, l <= j < l + iters /\
            Permutation (substr res_seq j (length query)) query.
Proof.
  revert l. induction iters as [|n IH]; intros l; simpl.
  - split; [discriminate|]. intros (j & Hj & _). lia.
  - destruct (String_eqb _ _) eqn:E.
    + apply sorted_equal_iff_anagram in E. split; [|reflexivity].
      intros _. exists l. split; [lia|assumption].
    + rewrite IH. split.
      * intros (j & Hj & P). exists j. split; [lia|assumption].
      * intros (j & Hj & P).
        destruct (Nat.eq_dec j l) as [->|Hne].
        -- apply sorted_equal_iff_anagram in P. congruence.
        -- exists j. split; [lia|assumption].
Qed.

(** A window of [res_seq]: [k] characters from position [l] on. *)
Definition window (res_seq : String) (l k : nat) : Prop :=
  l + k <= length res_seq.

(** [query] occurs in [res_seq] as an exact, ordered substring. *)
Definition ordered_substring (res_seq query : String) : Prop :=
  exists l, window res_seq l (length query) /\
            substr res_seq l (length query) = query.

Lemma notInSeq_false_iff (res_seq query : String) :
  notInSeq res_seq query = false <->
  query = [] \/
  exists l, window res_seq l (length query) /\
            Permutation (substr res_seq l (length query)) query.
Proof.
  unfold notInSeq, window. destruct query as [|q query].
  - split; [now left | reflexivity].
  - rewrite notInSeq_loop_false. split.
    + intros (j & Hj & P). right. exists j. split; [lia | assumption].
    + intros [? | (j & Hj & P)]; [discriminate|].
      exists j. split; [lia | assumption].
Qed.

Lemma notInSeq_anagram_invariant (res_seq q q' : String) :
  Permutation q q' -> notInSeq res_seq q = notInSeq res_seq q'.
Proof.
  intros P.
  assert (forall a b, Permutation a b ->
                      notInSeq res_seq a = false -> notInSeq res_seq b = false) as Hmono.
  { intros a b Pab. rewrite !notInSeq_false_iff.
    intros [-> | (l & Hl & Pl)].
    - left. now apply Permutation_nil.
    - right. exists l. rewrite <- (Permutation_length Pab).
      split; [assumption|]. now rewrite Pl. }
  destruct (notInSeq res_seq q) eqn:E1, (notInSeq res_seq q') eqn:E2;
    try reflexivity.
  - apply (Hmono _ _ (Permutation_sym P)) in E2. congruence.
  - apply (Hmono _ _ P) in E1. congruence.
Qed.

(** C5: [notInSeq res_seq query] is false exactly when [query] is empty or
    some contiguous window of [res_seq] of the length of [query] is an
    anagram of [query]; it is true for a non-empty [query] longer than
    [res_seq]; and the answer depends on [query] up to anagram only, so
    that it differs from ordered substring search (["UA"] is found in
    ["AU"], where it is no substring). *)
Theorem notInSeq_anagram_window :
  (forall res_seq query,
      notInSeq res_seq query = false <->
      query = [] \/
      exists l, window res_seq l (length query) /\
                Permutation (substr res_seq l (length query)) query)
  /\ (forall res_seq query,
         query <> [] -> length res_seq < length query ->
         notInSeq res_seq query = true)
  /\ (forall res_seq q q',
         Permutation q q' -> notInSeq res_seq q = notInSeq res_seq q')
  /\ (notInSeq (str "AU") (str "UA") = false
      /\ ~ ordered_substring (str "AU") (str "UA")).
Proof.
  split; [exact notInSeq_false_iff|].
  split.
  { intros res_seq query Hne Hlen.
    destruct (notInSeq res_seq query) eqn:E; [reflexivity|].
    apply notInSeq_false_iff in E. destruct E as [-> | (l & Hl & _)].
    - congruence.
    - unfold window in Hl. lia. }
  split; [exact notInSeq_anagram_invariant|].
  split; [reflexivity|].
  intros (l & Hl & E). unfold window in Hl. simpl in Hl.
  assert (l = 0) as -> by lia. discriminate E.
Qed.

(* ===================================================================== *)
(** ** Ordered sets *)
(* ===================================================================== *)

Section SetFacts.
Context {K : Type} `{Ordered K}.

(** The representation invariant of a [std::set]: strictly increasing. *)
Fixpoint set_sorted (s : oset K) : Prop :=
  match s with
  | [] => True
  | x :: s' => Forall (fun y => cmp x y = Lt) s' /\ set_sorted s'
  end.

Lemma In_set_insert (x y : K) (s : oset K) :
  In y (set_insert x s) <-> y = x \/ In y s.
Proof.
  induction s as [|h t IH]; simpl.
  - intuition.
  - destruct (cmp x h) eqn:E; simpl.
    + apply cmp_eq in E. subst h. intuition.
    + intuition.
    + rewrite IH. intuition.
Qed.

Lemma set_insert_sorted (x : K) (s : oset K) :
  set_sorted s -> set_sorted (set_insert x s).
Proof.
  induction s as [|h t IH]; simpl.
  - intros _. split; [constructor | exact I].
  - intros [Hh Ht]. destruct (cmp x h) eqn:E; simpl.
    + split; assumption.
    + split; [|split; assumption].
      constructor; [assumption|].
      rewrite Forall_forall in *. intros y Hy.
      apply (cmp_trans _ _ _ E). now apply Hh.
    + split; [|now apply IH].
      rewrite Forall_forall in *. intros y Hy.
      apply In_set_insert in Hy. destruct Hy as [-> | Hy].
      * now apply cmp_Gt_Lt.
      * now apply Hh.
Qed.

Lemma set_insert_not_empty (x : K) (s : oset K) : set_insert x s <> [].
Proof.
  destruct s as [|h t]; simpl; [discriminate|].
  destruct (cmp x h); discriminate.
Qed.

Lemma In_set_erase (x y : K) (s : oset K) :
  set_sorted s -> (In y (set_erase x s) <-> In y s /\ y <> x).
Proof.
  induction s as [|h t IH]; simpl.
  - intuition.
  - intros [Hh Ht]. destruct (keq x h) eqn:E.
    + apply keq_true in E. subst h. split.
      * intros Hy. split; [now right|].
        intros ->. rewrite Forall_forall in Hh.
        apply Hh in Hy. rewrite cmp_refl in Hy. discriminate.
      * intros [[-> | Hy] Hne]; [congruence | assumption].
    + apply keq_false in E. simpl. rewrite (IH Ht). split.
      * intros [-> | [Hy Hne]]; [split; [now left | congruence] | tauto].
      * intros [[-> | Hy] Hne]; [now left | right; tauto].
Qed.

Lemma set_erase_sorted (x : K) (s : oset K) :
  set_sorted s -> set_sorted (set_erase x s).
Proof.
  induction s as [|h t IH]; simpl; [trivial|].
  intros [Hh Ht]. destruct (keq x h); [assumption|].
  simpl. split; [|now apply IH].
  rewrite Forall_forall in *. intros y Hy.
  apply (In_set_erase x y t Ht) in Hy. apply Hh. tauto.
Qed.

Lemma set_mem_In (x : K) (s : oset K) : set_mem x s = true <-> In x s.
Proof.
  unfold set_mem. rewrite existsb_exists. split.
  - intros (y & Hy & E). apply keq_true in E. now subst.
  - intros Hx. exists x. split; [assumption | apply keq_refl].
Qed.

Lemma ltb_Lt (a b : K) : ltb a b = true <-> cmp a b = Lt.
Proof. unfold ltb. destruct (cmp a b); split; congruence. Qed.

(** The first element of a set is its least. *)
Lemma set_begin_least (s : oset K) (x y : K) :
  set_sorted s -> set_begin s = Some x -> In y s -> cmp y x <> Lt.
Proof.
  destruct s as [|h t]; simpl; [discriminate|].
  intros [Hh _] [= ->] [-> | Hy].
  - rewrite cmp_refl. discriminate.
  - rewrite Forall_forall in Hh. apply Hh in Hy.
    intros E. exact (cmp_Lt_asym _ _ Hy E).
Qed.

Lemma set_begin_None (s : oset K) : set_begin s = None -> s = [].
Proof. destruct s; simpl; [reflexivity | discriminate]. Qed.

(** [set_next s x] is the least element of [s] above [x]. *)
Lemma set_next_Some (s : oset K) (x z : K) :
  set_sorted s -> set_next s x = Some z ->
  In z s /\ cmp x z = Lt /\
  forall y, In y s -> cmp x y = Lt -> cmp y z <> Lt.
Proof.
  induction s as [|h t IH]; simpl; [discriminate|].
  intros [Hh Ht]. destruct (ltb x h) eqn:E.
  - intros [= ->]. apply ltb_Lt in E. split; [now left|]. split; [assumption|].
    intros y [-> | Hy] _.
    + rewrite cmp_refl. discriminate.
    + rewrite Forall_forall in Hh. apply Hh in Hy.
      intros E'. exact (cmp_Lt_asym _ _ Hy E').
  - intros Hn. destruct (IH Ht Hn) as (Hz & Hxz & Hleast).
    split; [now right|]. split; [assumption|].
    intros y [-> | Hy] Hxy.
    + apply ltb_Lt in Hxy. congruence.
    + now apply Hleast.
Qed.

Lemma set_next_None (s : oset K) (x y : K) :
  set_next s x = None -> In y s -> cmp x y <> Lt.
Proof.
  induction s as [|h t IH]; simpl; [tauto|].
  destruct (ltb x h) eqn:E; [discriminate|].
  intros Hn [-> | Hy].
  - intros E'. apply ltb_Lt in E'. congruence.
  - now apply IH.
Qed.

(** In a set that does not change, the iterator walks down the list. *)
Lemma set_next_suffix (pre post : oset K) (x : K) :
  set_sorted (pre ++ x :: post) ->
  set_next (pre ++ x :: post) x = hd_error post.
Proof.
  induction pre as [|h t IH]; simpl.
  - intros [Hx Hpost]. unfold ltb. rewrite cmp_refl.
    destruct post as [|p post']; simpl; [reflexivity|].
    inversion Hx as [|? ? Hp _]. unfold ltb. now rewrite Hp.
  - intros [Hh Ht].
    assert (cmp h x = Lt) as Hhx.
    { rewrite Forall_forall in Hh. apply Hh. apply in_or_app. right. now left. }
    assert (ltb x h = false) as ->.
    { unfold ltb. rewrite (cmp_antisym h x), Hhx. reflexivity. }
    now apply IH.
Qed.

End SetFacts.

(* ===================================================================== *)
(** ** Ordered maps *)
(* ===================================================================== *)

Section MapFacts.
Context {K : Type} `{Ordered K}.
Variable V : Type.

(** The representation invariant of a [std::map]: strictly increasing keys. *)
Definition map_sorted (m : omap K V) : Prop := set_sorted (map_keys m).

Lemma map_sorted_nil : map_sorted [].
Proof. exact I. Qed.

Lemma map_keys_upsert (k k' : K) (f : option V -> V) (m : omap K V) :
  In k' (map_keys (map_upsert k f m)) <-> k' = k \/ In k' (map_keys m).
Proof.
  induction m as [|[h v] t IH]; simpl.
  - intuition.
  - destruct (cmp k h) eqn:E; simpl.
    + apply cmp_eq in E. subst h. intuition.
    + intuition.
    + unfold map_keys in IH. rewrite IH. intuition.
Qed.

Lemma map_upsert_sorted (k : K) (f : option V -> V) (m : omap K V) :
  map_sorted m -> map_sorted (map_upsert k f m).
Proof.
  unfold map_sorted.
  induction m as [|[h v] t IH]; simpl.
  - intros _. split; [constructor | exact I].
  - intros [Hh Ht]. destruct (cmp k h) eqn:E; simpl.
    + split; assumption.
    + split; [|split; assumption].
      constructor; [assumption|].
      rewrite Forall_forall in *. intros y Hy.
      apply (cmp_trans _ _ _ E). now apply Hh.
    + split; [|now apply IH].
      rewrite Forall_forall in *. intros y Hy.
      apply map_keys_upsert in Hy. destruct Hy as [-> | Hy].
      * now apply cmp_Gt_Lt.
      * now apply Hh.
Qed.

Lemma map_find_None (k : K) (m : omap K V) :
  map_find k m = None <-> ~ In k (map_keys m).
Proof.
  induction m as [|[h v] t IH]; simpl.
  - intuition.
  - destruct (keq k h) eqn:E.
    + apply keq_true in E. subst h. split; [discriminate | tauto].
    + apply keq_false in E. unfold map_keys in IH. rewrite IH.
      split; [intros Hn [? | ?]; [congruence | tauto] | tauto].
Qed.

Lemma map_find_In (k : K) (v : V) (m : omap K V) :
  map_find k m = Some v -> In (k, v) m.
Proof.
  induction m as [|[h w] t IH]; simpl; [discriminate|].
  destruct (keq k h) eqn:E.
  - apply keq_true in E. subst h. intros [= ->]. now left.
  - intros Hf. right. now apply IH.
Qed.

Lemma map_find_key (k : K) (v : V) (m : omap K V) :
  map_find k m = Some v -> In k (map_keys m).
Proof.
  intros Hf. apply map_find_In in Hf.
  change k with (fst (k, v)). now apply in_map.
Qed.

Lemma In_map_find (k : K) (v : V) (m : omap K V) :
  map_sorted m -> In (k, v) m -> map_find k m = Some v.
Proof.
  unfold map_sorted.
  induction m as [|[h w] t IH]; simpl; [tauto|].
  intros [Hh Ht] [[= -> ->] | Hin].
  - now rewrite keq_refl.
  - destruct (keq k h) eqn:E; [|now apply IH].
    apply keq_true in E. subst h. exfalso.
    rewrite Forall_forall in Hh.
    assert (cmp k k = Lt) as Hc.
    { apply Hh. change k with (fst (k, v)). now apply in_map. }
    rewrite cmp_refl in Hc. discriminate.
Qed.

Lemma map_find_above (k : K) (m : omap K V) :
  Forall (fun y => cmp k y = Lt) (map_keys m) -> map_find k m = None.
Proof.
  intros Hall. apply map_find_None. intros Hin.
  rewrite Forall_forall in Hall. apply Hall in Hin.
  rewrite cmp_refl in Hin. discriminate.
Qed.

Lemma map_find_upsert_same (k : K) (f : option V -> V) (m : omap K V) :
  map_sorted m -> map_find k (map_upsert k f m) = Some (f (map_find k m)).
Proof.
  unfold map_sorted.
  induction m as [|[h v] t IH]; simpl.
  - now rewrite keq_refl.
  - intros [Hh Ht]. unfold keq. destruct (cmp k h) eqn:E; simpl.
    + apply cmp_eq in E. subst h. now rewrite keq_refl.
    + rewrite keq_refl.
      rewrite map_find_above; [reflexivity|].
      rewrite Forall_forall in *. intros y Hy.
      apply (cmp_trans _ _ _ E). now apply Hh.
    + unfold keq. rewrite E. now apply IH.
Qed.

Lemma map_find_upsert_other (k k' : K) (f : option V -> V) (m : omap K V) :
  k' <> k -> map_find k' (map_upsert k f m) = map_find k' m.
Proof.
  intros Hne. induction m as [|[h v] t IH]; simpl.
  - apply keq_false in Hne. now rewrite Hne.
  - destruct (cmp k h) eqn:E; simpl.
    + apply cmp_eq in E. subst h. apply keq_false in Hne. now rewrite Hne.
    + apply keq_false in Hne. now rewrite Hne.
    + now rewrite IH.
Qed.

Lemma map_keys_erase (k k' : K) (m : omap K V) :
  map_sorted m ->
  (In k' (map_keys (map_erase k m)) <-> In k' (map_keys m) /\ k' <> k).
Proof.
  unfold map_sorted.
  induction m as [|[h v] t IH]; simpl.
  - intuition.
  - intros [Hh Ht]. destruct (keq k h) eqn:E.
    + apply keq_true in E. subst h. split.
      * intros Hk. split; [now right|]. intros ->.
        rewrite Forall_forall in Hh. apply Hh in Hk.
        rewrite cmp_refl in Hk. discriminate.
      * intros [[-> | Hk] Hne]; [congruence | assumption].
    + apply keq_false in E. simpl. unfold map_keys in IH. rewrite (IH Ht).
      split.
      * intros [-> | [Hk Hne]]; [split; [now left | congruence] | tauto].
      * intros [[-> | Hk] Hne]; [now left | right; tauto].
Qed.

Lemma map_erase_sorted (k : K) (m : omap K V) :
  map_sorted m -> map_sorted (map_erase k m).
Proof.
  unfold map_sorted.
  induction m as [|[h v] t IH]; simpl; [trivial|].
  intros [Hh Ht]. destruct (keq k h); [assumption|].
  simpl. split; [|now apply IH].
  rewrite Forall_forall in *. intros y Hy.
  apply (map_keys_erase k y t Ht) in Hy. apply Hh. tauto.
Qed.

Lemma map_sorted_filter (p : K * V -> bool) (m : omap K V) :
  map_sorted m -> map_sorted (filter p m).
Proof.
  unfold map_sorted.
  induction m as [|[h v] t IH]; simpl; [trivial|].
  intros [Hh Ht]. destruct (p (h, v)); simpl; [|now apply IH].
  split; [|now apply IH].
  rewrite Forall_forall in *. intros y Hy. apply Hh.
  unfold map_keys in *. apply in_map_iff in Hy. destruct Hy as (e & <- & He).
  apply filter_In in He. apply in_map. tauto.
Qed.

End MapFacts.

Lemma map_get_upsert_same {K V} `{Ordered K} (d : V) (k : K)
  (f : option V -> V) (m : omap K V) :
  map_sorted m -> map_get d k (map_upsert k f m) = f (map_find k m).
Proof.
  intros Hs. unfold map_get. now rewrite map_find_upsert_same.
Qed.

Lemma map_get_upsert_other {K V} `{Ordered K} (d : V) (k k' : K)
  (f : option V -> V) (m : omap K V) :
  k' <> k -> map_get d k' (map_upsert k f m) = map_get d k' m.
Proof.
  intros Hne. unfold map_get. now rewrite map_find_upsert_other.
Qed.

(* ===================================================================== *)
(** ** The outcome monad *)
(* ===================================================================== *)

Lemma bind_Returns {A B} (c : outcome A) (k : A -> outcome B) (b : B) :
  bind c k = Returns b -> exists a, c = Returns a /\ k a = Returns b.
Proof.
  destruct c as [a| | |]; simpl; try discriminate.
  intros E. now exists a.
Qed.

Lemma foldM_app {A S} (f : S -> A -> outcome S) (l1 l2 : list A) (s : S) :
  foldM f (l1 ++ l2) s = bind (foldM f l1 s) (foldM f l2).
Proof.
  revert s. induction l1 as [|a l1 IH]; intros s; simpl; [reflexivity|].
  destruct (f s a); simpl; auto.
Qed.

(** A loop whose body keeps an invariant keeps it when it returns. *)
Lemma foldM_invariant {A S} (P : S -> Prop) (f : S -> A -> outcome S)
  (l : list A) (s s' : S) :
  (forall s a s', In a l -> P s -> f s a = Returns s' -> P s') ->
  P s -> foldM f l s = Returns s' -> P s'.
Proof.
  revert s. induction l as [|a l IH]; intros s Hstep Hs; simpl.
  - now intros [= <-].
  - intros E. apply bind_Returns in E. destruct E as (s1 & E1 & E2).
    apply (IH s1); [| |assumption].
    + intros s0 b s0' Hb. apply Hstep. now right.
    + apply (Hstep s a); [now left | assumption | assumption].
Qed.

Ltac inv_bind H :=
  let a := fresh "r" in
  let E := fresh "E" in
  apply bind_Returns in H; destruct H as (a & E & H).

Ltac inv_bind_as H a E :=
  apply bind_Returns in H; destruct H as (a & E & H).

(* ===================================================================== *)
(** ** The generated restriction sequence *)
(* ===================================================================== *)

(** All strings of length [n] over the source nucleotides, a nucleotide
    put in front of every shorter string in turn. *)
Fixpoint words (source_nucleotides : list ascii) (n : nat) : list String :=
  match n with
  | O => [[]]
  | S n' => grow_combinations source_nucleotides (words source_nucleotides n')
  end.

Lemma words_1 (src : list ascii) : words src 1 = map (fun c => [c]) src.
Proof.
  change (words src 1) with (grow_combinations src [[]]).
  unfold grow_combinations. induction src as [|c src IH]; simpl;
    [reflexivity | now f_equal].
Qed.

Lemma In_grow_combinations (src : list ascii) (actual : list String) (w : String) :
  In w (grow_combinations src actual) <->
  exists n c, w = n :: c /\ In n src /\ In c actual.
Proof.
  unfold grow_combinations. rewrite in_flat_map. split.
  - intros (n & Hn & Hw). apply in_map_iff in Hw. destruct Hw as (c & <- & Hc).
    now exists n, c.
  - intros (n & c & -> & Hn & Hc). exists n. split; [assumption|].
    now apply in_map.
Qed.

Lemma In_words (src : list ascii) (n : nat) (w : String) :
  In w (words src n) <-> length w = n /\ Forall (fun c => In c src) w.
Proof.
  revert w. induction n as [|n IH]; intros w; simpl.
  - split.
    + intros [<- | []]. split; [reflexivity | constructor].
    + intros [Hl _]. destruct w; [now left | discriminate].
  - rewrite In_grow_combinations. split.
    + intros (a & c & -> & Ha & Hc). apply IH in Hc. destruct Hc as [Hl Hc].
      simpl. split; [congruence | now constructor].
    + intros [Hl Hall]. destruct w as [|a c]; [discriminate|].
      inversion Hall; subst. exists a, c. repeat split; try assumption.
      apply IH. split; [simpl in Hl; congruence | assumption].
Qed.

Lemma grow_rounds_levels (k : nat) (src : list ascii) (n : nat) (all : list String) :
  grow_rounds k src (words src (S n)) all
  = all ++ flat_map (words src) (seq (S (S n)) k).
Proof.
  revert n all. induction k as [|k IH]; intros n all; simpl.
  - now rewrite app_nil_r.
  - change (grow_combinations src (grow_combinations src (words src n)))
      with (words src (S (S n))).
    rewrite IH. now rewrite <- app_assoc.
Qed.

Lemma all_source_combinations_levels (src : list ascii) (max_length : Z) :
  all_source_combinations src max_length
  = flat_map (words src) (seq 1 (S (Z.to_nat (max_length - 1)))).
Proof.
  unfold all_source_combinations. rewrite <- words_1.
  rewrite grow_rounds_levels. reflexivity.
Qed.

(** ** Containment in the target sequences *)

Lemma filter_length_all {A} (p : A -> bool) (l : list A) :
  length (filter p l) = length l <-> forall a, In a l -> p a = true.
Proof.
  induction l as [|a l IH]; simpl.
  - intuition.
  - pose proof (filter_length_le p l) as Hle.
    destruct (p a) eqn:E; simpl.
    + split.
      * intros [= Hl] b [-> | Hb]; [assumption | now apply IH].
      * intros Hall. f_equal. apply IH. intros b Hb. apply Hall. now right.
    + split; [lia|]. intros Hall. specialize (Hall a (or_introl eq_refl)).
      congruence.
Qed.

Lemma containment_violated_false (target_sequences : list String) (q : String) :
  containment_violated target_sequences q = false <->
  exists t, In t target_sequences /\ notInSeq t q = false.
Proof.
  unfold containment_violated. rewrite Nat.eqb_neq, filter_length_all. split.
  - intros Hn.
    induction target_sequences as [|t ts IH].
    + exfalso. apply Hn. intros a [].
    + destruct (notInSeq t q) eqn:E.
      * destruct IH as (t' & Ht' & E').
        { intros Hall. apply Hn. intros a [<- | Ha]; [assumption | now apply Hall]. }
        exists t'. split; [now right | assumption].
      * exists t. split; [now left | assumption].
  - intros (t & Ht & E) Hall. apply Hall in Ht. congruence.
Qed.

(** With no substitution rule left, the expander hands back the sequence. *)
Lemma expand_from_nil (n : nat) (res_seq : String) (pos : nat) :
  expand_from n [] res_seq pos = [].
Proof.
  revert pos. induction n as [|n IH]; intros pos; simpl; [reflexivity|].
  apply IH.
Qed.

Lemma count_valid_nil (res_seq : String) (n : nat) :
  fold_left (fun count c =>
               match map_find c (@nil (ascii * list ascii)) with
               | None => S count
               | Some targets => count + length (filter (Ascii.eqb c) targets)
               end) res_seq n = n + length res_seq.
Proof.
  revert n. induction res_seq as [|c s IH]; intros n; simpl; [lia|].
  rewrite IH. lia.
Qed.

Lemma generateTargetSequences_nil (res_seq : String) :
  generateTargetSequences res_seq 0 [] = [res_seq].
Proof.
  unfold generateTargetSequences. rewrite expand_from_nil. simpl.
  unfold push_if_valid, count_valid. rewrite count_valid_nil. simpl.
  now rewrite Nat.eqb_refl.
Qed.

(** A piece that ends one string of a concatenation and starts the next
    is a window of the concatenation. *)
Lemma boundary_window (xs ys : list String) (u1 a b v2 : String) :
  let whole := concat (xs ++ (u1 ++ a) :: (b ++ v2) :: ys) in
  let l := length (concat xs ++ u1) in
  window whole l (length (a ++ b)) /\ substr whole l (length (a ++ b)) = a ++ b.
Proof.
  simpl. rewrite concat_app. simpl.
  replace (concat xs ++ (u1 ++ a) ++ (b ++ v2) ++ concat ys)
    with ((concat xs ++ u1) ++ (a ++ b) ++ (v2 ++ concat ys))
    by (now rewrite <- !app_assoc).
  split.
  - unfold window. rewrite !length_app. lia.
  - unfold substr. rewrite skipn_app, skipn_all, Nat.sub_diag. simpl.
    rewrite firstn_app, firstn_all, Nat.sub_diag. simpl. now rewrite app_nil_r.
Qed.

Lemma In_levels (src : list ascii) (n : nat) (w : String) :
  In w (flat_map (words src) (seq 1 n)) <->
  1 <= length w <= n /\ Forall (fun c => In c src) w.
Proof.
  rewrite in_flat_map. split.
  - intros (k & Hk & Hw). apply in_seq in Hk. apply In_words in Hw.
    destruct Hw as [Hl Hall]. split; [lia | assumption].
  - intros [Hl Hall]. exists (length w). split.
    + apply in_seq. lia.
    + apply In_words. split; [reflexivity | assumption].
Qed.

(** C10: with an empty restriction sequence (and [max_length >= 1]) the
    sequence handed on is one single string: the concatenation of every
    string over the source nucleotides of each length from 1 up to
    [max_length], in generation order, with the renames applied. The
    containment filter slides its windows over the target sequences expanded
    from this one string, so a window that ends one combination and starts
    the next counts as containment like any other window. *)
Theorem auto_restriction_concatenation
  (mappings : list String) (max_length : Z)
  (map_source_to_targets : omap ascii (list ascii)) (restriction : String) :
  (1 <= max_length)%Z ->
  effective_restriction mappings [] max_length
    = Returns (map_source_to_targets, restriction) ->
  exists map0 source_nucleotides,
    parse_mappings mappings = Returns map0 /\
    extract_source_nucleotides mappings = Returns source_nucleotides /\
    let all_combinations := all_source_combinations source_nucleotides max_length in
    let target_sequences :=
      generateTargetSequences restriction 0 map_source_to_targets in
    (map_source_to_targets, restriction)
      = erase_trivial map0 (concat all_combinations) /\
    all_combinations
      = flat_map (words source_nucleotides) (seq 1 (Z.to_nat max_length)) /\
    (forall w, In w all_combinations <->
               1 <= length w <= Z.to_nat max_length /\
               Forall (fun c => In c source_nucleotides) w) /\
    (forall xs u1 a b v2 ys q,
        all_combinations = xs ++ (u1 ++ a) :: (b ++ v2) :: ys ->
        Permutation q (a ++ b) ->
        notInSeq (concat all_combinations) q = false) /\
    (map_source_to_targets = [] -> target_sequences = [restriction]) /\
    (forall t l q,
        In t target_sequences -> window t l (length q) ->
        Permutation (substr t l (length q)) q ->
        containment_violated target_sequences q = false).
Proof.
  intros Hmax Hrun. unfold effective_restriction in Hrun.
  inv_bind Hrun. inv_bind Hrun. rename r into map0, r0 into src.
  injection Hrun as Hrun. exists map0, src.
  split; [assumption|]. split; [assumption|]. cbv zeta.
  assert (all_source_combinations src max_length
          = flat_map (words src) (seq 1 (Z.to_nat max_length))) as Hall.
  { rewrite all_source_combinations_levels. do 2 f_equal. lia. }
  split; [now rewrite <- Hrun|].
  split; [exact Hall|].
  split; [intros w; rewrite Hall; apply In_levels|].
  split.
  { intros xs u1 a b v2 ys q -> Hq.
    apply notInSeq_false_iff. right.
    destruct (boundary_window xs ys u1 a b v2) as [Hw Hs].
    exists (length (concat xs ++ u1)).
    rewrite (Permutation_length Hq). split; [exact Hw|].
    refine (eq_ind_r (fun z => Permutation z q) _ Hs). now symmetry. }
  split.
  { intros ->. apply generateTargetSequences_nil. }
  intros t l q Ht Hw Hq. apply containment_violated_false.
  exists t. split; [assumption|]. apply notInSeq_false_iff. right.
  exists l. split; assumption.
Qed.

(** With the source nucleotides [A] and [U] and [max_length = 1] the
    generated restriction is ["AU"]; the composition ["AU"] is none of the
    two combinations, and is contained as the window across their boundary. *)
Lemma auto_restriction_concatenation_witness :
  effective_restriction [str "A->A"; str "U->U"] [] 1 = Returns ([], str "AU")
  /\ all_source_combinations [ "A"%char; "U"%char ] 1 = [str "A"; str "U"]
  /\ containment_violated (generateTargetSequences (str "AU") 0 []) (str "UA") = false.
Proof.
  split; [reflexivity|]. split; [reflexivity|].
  destruct (@auto_restriction_concatenation
              [str "A->A"; str "U->U"] 1 [] (str "AU"))
    as (map0 & src & _ & _ & _ & _ & _ & _ & _ & Hwin); [lia | reflexivity |].
  apply (Hwin (str "AU") 0 (str "UA")).
  - now left.
  - unfold window. simpl. lia.
  - simpl. apply perm_swap.
Defined.

(* ===================================================================== *)
(** ** The configuration parsers *)
(* ===================================================================== *)

(** [sep] occurs in [s] at some position. *)
Fixpoint occurs_in (sep s : String) : bool :=
  starts_with sep s
  || match s with
     | [] => false
     | _ :: s' => occurs_in sep s'
     end.

Definition contains (sep s : String) : Prop :=
  exists a b, s = a ++ sep ++ b.

Lemma starts_with_iff (sep s : String) :
  starts_with sep s = true <-> exists b, s = sep ++ b.
Proof.
  revert s. induction sep as [|p sep IH]; intros s; simpl.
  - split; [intros _; now exists s | reflexivity].
  - destruct s as [|c s]; simpl.
    + split; [discriminate | intros (b & E); discriminate].
    + rewrite andb_true_iff, IH. split.
      * intros [E (b & ->)]. apply Ascii.eqb_eq in E. subst c. now exists b.
      * intros (b & [= -> ->]). split; [apply Ascii.eqb_refl | now exists b].
Qed.

Lemma occurs_in_iff (sep s : String) :
  occurs_in sep s = true <-> contains sep s.
Proof.
  unfold contains. induction s as [|c s IH]; simpl.
  - rewrite orb_false_r, starts_with_iff. split.
    + intros (b & E). now exists [], b.
    + intros (a & b & E). destruct a as [|x a]; [now exists b | discriminate].
  - rewrite orb_true_iff, starts_with_iff, IH. split.
    + intros [(b & E) | (a & b & E)].
      * now exists [], b.
      * exists (c :: a), b. simpl. now rewrite E.
    + intros (a & b & E). destruct a as [|x a].
      * left. now exists b.
      * right. injection E as -> E. now exists a, b.
Qed.

Lemma split_from_not_nil (sep : String) (skip : nat) (s cur : String) :
  1 <= length (split_from sep skip s cur).
Proof.
  revert skip cur. induction s as [|c s IH]; intros skip cur; simpl; [lia|].
  destruct skip as [|k]; [|apply IH].
  destruct (starts_with sep (c :: s)); simpl; [lia | apply IH].
Qed.

Lemma split_from_absent (sep s cur : String) :
  occurs_in sep s = false -> split_from sep 0 s cur = [rev cur ++ s].
Proof.
  revert cur. induction s as [|c s IH]; intros cur; simpl.
  - intros _. now rewrite app_nil_r.
  - rewrite orb_false_iff. intros [-> Hs]. rewrite (IH _ Hs). simpl.
    now rewrite <- app_assoc.
Qed.

Lemma split_from_present (sep s cur : String) :
  sep <> [] -> occurs_in sep s = true -> 2 <= length (split_from sep 0 s cur).
Proof.
  intros Hsep. revert cur. induction s as [|c s IH]; intros cur.
  - destruct sep; [congruence | discriminate].
  - simpl. destruct (starts_with sep (c :: s)) eqn:E; simpl.
    + intros _. pose proof (split_from_not_nil sep (length sep - 1) s []). lia.
    + apply IH.
Qed.

Lemma split_present (sep s : String) :
  sep <> [] -> occurs_in sep s = true -> 2 <= length (split sep s).
Proof.
  intros Hsep Hocc. unfold split. destruct s as [|c s].
  - destruct sep; [congruence | discriminate].
  - destruct sep as [|p sep]; [congruence|].
    now apply split_from_present.
Qed.

Lemma split_absent (sep s : String) :
  sep <> [] -> occurs_in sep s = false ->
  split sep s = match s with [] => [] | _ => [s] end.
Proof.
  intros Hsep Hocc. unfold split. destruct s as [|c s]; [reflexivity|].
  destruct sep as [|p sep]; [congruence|].
  now rewrite split_from_absent.
Qed.

(** A call that stays within its vectors and strings. *)
Definition in_bounds {A} (c : outcome A) : Prop := c <> Undefined.

Lemma in_bounds_bind {A B} (c : outcome A) (k : A -> outcome B) :
  in_bounds c -> (forall a, c = Returns a -> in_bounds (k a)) ->
  in_bounds (bind c k).
Proof.
  unfold in_bounds. destruct c; simpl; try congruence.
  intros _ Hk. now apply Hk.
Qed.

Lemma in_bounds_foldM {A S} (f : S -> A -> outcome S) (l : list A) (s : S) :
  (forall s a, In a l -> in_bounds (f s a)) -> in_bounds (foldM f l s).
Proof.
  revert s. induction l as [|a l IH]; intros s Hf; simpl.
  - discriminate.
  - apply in_bounds_bind.
    + apply Hf. now left.
    + intros s' _. apply IH. intros s0 b Hb. apply Hf. now right.
Qed.

Lemma in_bounds_Returns {A} (a : A) : in_bounds (Returns a).
Proof. discriminate. Qed.

Lemma in_bounds_Throws {A} (e : Exn) : in_bounds (@Throws A e).
Proof. discriminate. Qed.

Lemma vector_at_in_bounds {A} (v : list A) (i : nat) :
  i < length v -> in_bounds (vector_at v i).
Proof.
  intros Hi. unfold vector_at, in_bounds.
  destruct (nth_error v i) eqn:E; [discriminate|].
  apply nth_error_None in E. lia.
Qed.

Lemma vector_at_out_of_bounds {A} (v : list A) (i : nat) :
  length v <= i -> vector_at v i = Undefined.
Proof.
  intros Hi. unfold vector_at.
  now rewrite (proj2 (nth_error_None v i) Hi).
Qed.

Lemma string_at_in_bounds (s : String) (i : nat) :
  i <= length s -> in_bounds (string_at s i).
Proof.
  intros Hi. unfold string_at, in_bounds.
  destruct (nth_error s i) eqn:E; [discriminate|].
  apply nth_error_None in E.
  assert (i = length s) as -> by lia. now rewrite Nat.eqb_refl.
Qed.

Lemma string_at_length (s : String) (i : nat) (c : ascii) :
  string_at s i = Returns c -> c <> zero -> i < length s.
Proof.
  unfold string_at. destruct (nth_error s i) eqn:E.
  - intros _ _. apply nth_error_Some. congruence.
  - destruct (i =? length s); [|discriminate]. intros [= <-]. congruence.
Qed.

Section ParserFacts.
Context `{FormulaLibrary}.

Lemma newFormula_in_bounds (s : String) : in_bounds (newFormula s).
Proof. unfold newFormula. destruct (parseFormula s); discriminate. Qed.

Lemma newFormula_not_missing (s : String) :
  newFormula s <> Throws MissingInformation.
Proof. unfold newFormula. destruct (parseFormula s); discriminate. Qed.

Lemma separator_not_empty (sep : string) :
  sep <> EmptyString -> str sep <> [].
Proof. destruct sep; [congruence | discriminate]. Qed.

Lemma parse_target_nucleotide_in_bounds (m : omap String EmpiricalFormula)
  (s : String) :
  occurs_in (str "=") s = true -> in_bounds (parse_target_nucleotide m s).
Proof.
  intros Hocc. unfold parse_target_nucleotide.
  pose proof (@split_present (str "=") s ltac:(discriminate) Hocc) as Hlen.
  apply in_bounds_bind; [apply vector_at_in_bounds; lia|]. intros f1 _.
  apply in_bounds_bind; [apply newFormula_in_bounds|]. intros ef _.
  apply in_bounds_bind; [apply vector_at_in_bounds; lia|]. intros f0 _.
  apply in_bounds_Returns.
Qed.

Lemma parse_target_nucleotide_undefined (m : omap String EmpiricalFormula)
  (s : String) :
  occurs_in (str "=") s = false -> parse_target_nucleotide m s = Undefined.
Proof.
  intros Hocc. unfold parse_target_nucleotide.
  rewrite (@split_absent (str "=") s ltac:(discriminate) Hocc).
  destruct s; reflexivity.
Qed.

Lemma parse_mapping_in_bounds (m : omap ascii (list ascii)) (s : String) :
  occurs_in (str "->") s = true -> in_bounds (parse_mapping m s).
Proof.
  intros Hocc. unfold parse_mapping.
  pose proof (@split_present (str "->") s ltac:(discriminate) Hocc) as Hlen.
  apply in_bounds_bind; [apply vector_at_in_bounds; lia|]. intros f0 _.
  apply in_bounds_bind; [apply string_at_in_bounds; lia|]. intros c0 _.
  apply in_bounds_bind; [apply vector_at_in_bounds; lia|]. intros f1 _.
  apply in_bounds_bind; [apply string_at_in_bounds; lia|]. intros c1 _.
  apply in_bounds_Returns.
Qed.

Lemma parse_mapping_undefined (m : omap ascii (list ascii)) (s : String) :
  occurs_in (str "->") s = false -> parse_mapping m s = Undefined.
Proof.
  intros Hocc. unfold parse_mapping.
  rewrite (@split_absent (str "->") s ltac:(discriminate) Hocc).
  destruct s; reflexivity.
Qed.

Lemma extract_source_nucleotides_in_bounds (mappings : list String) :
  in_bounds (extract_source_nucleotides mappings).
Proof.
  unfold extract_source_nucleotides. apply in_bounds_foldM. intros v s _.
  apply in_bounds_bind; [apply string_at_in_bounds; lia|]. intros c _.
  apply in_bounds_Returns.
Qed.

Lemma parse_subformula_outcome (nm : NucleotideModification) (em : String) :
  in_bounds (parse_subformula nm em) /\
  parse_subformula nm em <> Throws MissingInformation.
Proof.
  unfold parse_subformula. destruct em as [|c em]; [split; discriminate|].
  destruct (if Ascii.eqb c "-" then _ else _) as [sub em'].
  unfold newFormula. destruct (parseFormula em'); simpl; split; discriminate.
Qed.

Lemma parse_subformulas_outcome (ems : list String) (nm : NucleotideModification) :
  in_bounds (foldM parse_subformula ems nm) /\
  foldM parse_subformula ems nm <> Throws MissingInformation.
Proof.
  revert nm. induction ems as [|em ems IH]; intros nm; simpl.
  - split; discriminate.
  - destruct (parse_subformula_outcome nm em) as [Hb Hm].
    destruct (parse_subformula nm em) as [nm'|e| |]; simpl.
    + apply IH.
    + split; [discriminate | congruence].
    + now elim Hb.
    + split; discriminate.
Qed.

(** A modification whose second character is read and is no colon *)
Lemma parse_modification_missing (mods : omap String NucleotideModifications)
  (m : String) (c : ascii) :
  string_at m 1 = Returns c -> c <> ":"%char ->
  parse_modification mods m = Throws MissingInformation.
Proof.
  intros E Hc. unfold parse_modification. rewrite E. simpl.
  apply Ascii.eqb_neq in Hc. now rewrite Hc.
Qed.

Lemma parse_modification_no_result (mods : omap String NucleotideModifications)
  (m : String) (r : omap String NucleotideModifications) :
  string_at m 1 <> Returns ":"%char -> parse_modification mods m <> Returns r.
Proof.
  intros Hne. unfold parse_modification.
  destruct (string_at m 1) as [c| | |]; simpl; try discriminate.
  destruct (Ascii.eqb_spec c ":"); simpl; [congruence | discriminate].
Qed.

Lemma parse_modification_colon (mods : omap String NucleotideModifications)
  (m : String) :
  string_at m 1 = Returns ":"%char ->
  in_bounds (parse_modification mods m) /\
  parse_modification mods m <> Throws MissingInformation.
Proof.
  intros E. unfold parse_modification. rewrite E. simpl.
  assert (1 < length m) as Hlen.
  { apply (string_at_length _ _ E). discriminate. }
  destruct m as [|c0 m]; [simpl in Hlen; lia|]. simpl.
  match goal with |- context [foldM parse_subformula ?ems ?nm] =>
    destruct (parse_subformulas_outcome ems nm) as [Hb Hm];
    destruct (foldM parse_subformula ems nm) as [nm'|e| |]
  end; simpl.
  - split; discriminate.
  - split; [discriminate | congruence].
  - now elim Hb.
  - split; discriminate.
Qed.

Lemma parse_modification_in_bounds (mods : omap String NucleotideModifications)
  (m : String) :
  m <> [] -> in_bounds (parse_modification mods m).
Proof.
  intros Hm.
  destruct (string_at m 1) as [c| | |] eqn:E.
  - destruct (Ascii.eqb_spec c ":") as [-> | Hc].
    + now apply parse_modification_colon.
    + rewrite (parse_modification_missing mods _ E Hc). discriminate.
  - unfold string_at in E. destruct (nth_error m 1); [discriminate|].
    destruct (1 =? length m); discriminate.
  - exfalso. revert E. apply string_at_in_bounds.
    destruct m; [congruence | simpl; lia].
  - unfold string_at in E. destruct (nth_error m 1); [discriminate|].
    destruct (1 =? length m); discriminate.
Qed.

Lemma parse_modification_empty (mods : omap String NucleotideModifications) :
  parse_modification mods [] = Undefined.
Proof. reflexivity. Qed.

Lemma parse_modification_single (mods : omap String NucleotideModifications)
  (c : ascii) :
  parse_modification mods [c] = Throws MissingInformation.
Proof. reflexivity. Qed.

End ParserFacts.

Lemma foldM_Returns_steps {A S} (f : S -> A -> outcome S) (l : list A) (s s' : S) :
  foldM f l s = Returns s' ->
  forall a, In a l -> exists s1 s2, f s1 a = Returns s2.
Proof.
  revert s. induction l as [|b l IH]; intros s; simpl; [intros _ a []|].
  intros E. inv_bind E. intros a [<- | Ha].
  - now exists s, r.
  - now apply (IH r).
Qed.

Section ErrorHandling.
Context `{FormulaLibrary}.

Lemma parse_modifications_colon (modifications : list String)
  (mods : omap String NucleotideModifications) :
  (forall m, In m modifications -> string_at m 1 = Returns ":"%char) ->
  foldM parse_modification modifications mods <> Throws MissingInformation.
Proof.
  revert mods. induction modifications as [|m l IH]; intros mods Hall; simpl.
  - discriminate.
  - destruct (parse_modification_colon mods m) as [_ Hm]; [apply Hall; now left|].
    destruct (parse_modification mods m) as [mods'|e| |]; simpl;
      try discriminate.
    + apply IH. intros m' Hm'. apply Hall. now right.
    + congruence.
Qed.

(** C7: a modification string whose second character is not [':'] makes
    [initModificationMassesNA] return no result at all; when the
    configuration before it is read without error and the second character
    is read, the call throws [MissingInformation]; and modification strings
    whose second character is [':'] never make the parser of the
    modifications throw [MissingInformation]. *)
Theorem malformed_modification_aborts
  (fuel : nat) (target_nucleotides nt_groups : list String) (can_xl : oset ascii)
  (mappings modifications : list String) (sequence_restriction : String)
  (cysteine_adduct : bool) (max_length : Z) :
  (forall m r,
      In m modifications -> string_at m 1 <> Returns ":"%char ->
      initModificationMassesNA fuel target_nucleotides nt_groups can_xl mappings
        modifications sequence_restriction cysteine_adduct max_length
      <> Returns r)
  /\ (forall good m rest c cysteine_adduct_formula map_target_to_formula
             restriction mods,
         modifications = good ++ m :: rest ->
         newFormula cysteine_adduct_string = Returns cysteine_adduct_formula ->
         parse_target_nucleotides target_nucleotides = Returns map_target_to_formula ->
         effective_restriction mappings sequence_restriction max_length
           = Returns restriction ->
         parse_modifications good = Returns mods ->
         string_at m 1 = Returns c -> c <> ":"%char ->
         initModificationMassesNA fuel target_nucleotides nt_groups can_xl mappings
           modifications sequence_restriction cysteine_adduct max_length
         = Throws MissingInformation)
  /\ ((forall m, In m modifications -> string_at m 1 = Returns ":"%char) ->
      parse_modifications modifications <> Throws MissingInformation).
Proof.
  split; [|split].
  - intros m r Hm Hbad Hrun. unfold initModificationMassesNA in Hrun.
    inv_bind Hrun. inv_bind Hrun. inv_bind Hrun.
    destruct r2 as [map_source_to_targets restriction].
    inv_bind Hrun.
    destruct (foldM_Returns_steps _ _ _ E2 m Hm) as (s1 & s2 & Hstep).
    exact (@parse_modification_no_result _ s1 m s2 Hbad Hstep).
  - intros good m rest c cys mtf restriction mods -> Hcys Htargets Heff Hgood Hc Hne.
    unfold initModificationMassesNA. rewrite Hcys. simpl.
    rewrite Htargets. simpl. rewrite Heff. simpl.
    destruct restriction as [map_source_to_targets restriction].
    unfold parse_modifications in *. rewrite foldM_app, Hgood. simpl.
    now rewrite (parse_modification_missing mods m Hc Hne).
  - apply parse_modifications_colon.
Qed.

End ErrorHandling.

(** The scenario of the specification with the modifications ["A:"] and
    ["U+H2O"], whose second character is ['+']. *)
Lemma malformed_modification_aborts_witness :
  initModificationMassesNA (H := SimpleFormulas.library) 8
    [str "A=C10H14N5O7P"; str "U=C9H13N2O9P"] [] ["U"%char] []
    [str "A:"; str "U+H2O"] (str "AU") false 2
  = Throws MissingInformation.
Proof.
  refine (proj1 (proj2 (@malformed_modification_aborts SimpleFormulas.library
            8 [str "A=C10H14N5O7P"; str "U=C9H13N2O9P"] [] ["U"%char] []
            [str "A:"; str "U+H2O"] (str "AU") false 2))
            [str "A:"] (str "U+H2O") [] "+"%char _ _ _ _
            eq_refl eq_refl eq_refl eq_refl eq_refl eq_refl _).
  discriminate.
Defined.

(* ===================================================================== *)
(** ** Out-of-range accesses *)
(* ===================================================================== *)

Section Bounds.
Context `{FormulaLibrary}.

Lemma extend_ambiguities_in_bounds (fuel : nat) (t src dst : String)
  (it : option String) (mc : omap String (oset String)) :
  in_bounds (extend_ambiguities fuel t src dst it mc).
Proof.
  revert it mc. induction fuel as [|fuel IH]; intros [s|] mc; simpl;
    try discriminate.
  apply IH.
Qed.

Lemma extend_combination_in_bounds (fuel : nat) (t : String)
  (F : EmpiricalFormula) (st : chain_state) (ac : EmpiricalFormula) :
  in_bounds (extend_combination fuel t F st ac).
Proof.
  unfold extend_combination. destruct st as [[new all] mc].
  apply in_bounds_bind; [apply newFormula_in_bounds|]. intros water _.
  apply in_bounds_bind; [apply extend_ambiguities_in_bounds|]. intros mc' _.
  apply in_bounds_Returns.
Qed.

Lemma extension_round_in_bounds (fuel : nat)
  (targets : omap String EmpiricalFormula) (actual all : list EmpiricalFormula)
  (mc : omap String (oset String)) :
  in_bounds (extension_round fuel targets actual all mc).
Proof.
  unfold extension_round. apply in_bounds_foldM. intros st e _.
  unfold extend_by_nucleotide. apply in_bounds_foldM. intros st' ac _.
  apply extend_combination_in_bounds.
Qed.

Lemma extension_rounds_in_bounds (fuel rounds : nat)
  (targets : omap String EmpiricalFormula) (actual all : list EmpiricalFormula)
  (mc : omap String (oset String)) :
  in_bounds (extension_rounds fuel rounds targets actual all mc).
Proof.
  revert actual all mc. induction rounds as [|rounds IH]; intros actual all mc;
    simpl; [discriminate|].
  apply in_bounds_bind; [apply extension_round_in_bounds|].
  intros [[new all'] mc'] _. apply IH.
Qed.

Lemma generate_and_filter_in_bounds (fuel : nat)
  (map_target_to_formula : omap String EmpiricalFormula)
  (mods : omap String NucleotideModifications)
  (target_sequences nt_groups : list String) (can_xl : oset ascii)
  (cysteine_adduct : bool) (cysteine_adduct_formula : EmpiricalFormula)
  (max_length : Z) :
  in_bounds (generate_and_filter fuel map_target_to_formula mods target_sequences
               nt_groups can_xl cysteine_adduct cysteine_adduct_formula max_length).
Proof.
  unfold generate_and_filter.
  destruct (single_nucleotides map_target_to_formula mods) as [actual mc].
  apply in_bounds_bind.
  - unfold chain_extension. apply in_bounds_bind;
      [apply extension_rounds_in_bounds|].
    intros [[new all] mc'] _. apply in_bounds_Returns.
  - intros [all mc'] _.
    destruct (restriction_filter _ _ _ _ _ _) as [mc'' [unique violates]].
    destruct (erase_empty _ _) as [f2m mc3].
    destruct (add_cysteine_adduct _ _ _ _) as [f2m' mc4].
    apply in_bounds_Returns.
Qed.

(** With the separators present and the modification strings non-empty,
    no stage reads outside a vector or string. *)
Lemma initModificationMassesNA_in_bounds
  (fuel : nat) (target_nucleotides nt_groups : list String) (can_xl : oset ascii)
  (mappings modifications : list String) (sequence_restriction : String)
  (cysteine_adduct : bool) (max_length : Z) :
  (forall s, In s target_nucleotides -> contains (str "=") s) ->
  (forall s, In s mappings -> contains (str "->") s) ->
  (forall m, In m modifications -> m <> []) ->
  in_bounds (initModificationMassesNA fuel target_nucleotides nt_groups can_xl
               mappings modifications sequence_restriction cysteine_adduct
               max_length).
Proof.
  intros Htargets Hmappings Hmods. unfold initModificationMassesNA.
  apply in_bounds_bind; [apply newFormula_in_bounds|]. intros cys _.
  apply in_bounds_bind.
  { unfold parse_target_nucleotides. apply in_bounds_foldM. intros m s Hs.
    apply parse_target_nucleotide_in_bounds, occurs_in_iff. now apply Htargets. }
  intros mtf _.
  apply in_bounds_bind.
  { unfold effective_restriction. apply in_bounds_bind.
    - unfold parse_mappings. apply in_bounds_foldM. intros m s Hs.
      apply parse_mapping_in_bounds, occurs_in_iff. now apply Hmappings.
    - intros map0 _. apply in_bounds_bind;
        [apply extract_source_nucleotides_in_bounds|].
      intros src _. apply in_bounds_Returns. }
  intros [map_source_to_targets restriction] _.
  apply in_bounds_bind.
  { unfold parse_modifications. apply in_bounds_foldM. intros mods m Hm.
    apply parse_modification_in_bounds. now apply Hmods. }
  intros mods _. apply generate_and_filter_in_bounds.
Qed.

End Bounds.

Section Preconditions.
Context `{FormulaLibrary}.

Lemma not_contains_occurs (sep s : String) :
  ~ contains sep s -> occurs_in sep s = false.
Proof.
  intros Hn. destruct (occurs_in sep s) eqn:E; [|reflexivity].
  apply occurs_in_iff in E. contradiction.
Qed.

Lemma split_empty_target (source : ascii) :
  split (str "->") (source :: str "->") = [[source]; []].
Proof. destruct source as [[] [] [] [] [] [] [] []]; reflexivity. Qed.

Lemma parse_mapping_empty_target (m : omap ascii (list ascii)) (source : ascii) :
  parse_mapping m (source :: str "->") = Returns (map_push_back source zero m).
Proof. unfold parse_mapping. now rewrite split_empty_target. Qed.

(** C9, as amended: the parsers read [fields[1]], [fields[0][0]],
    [fields[1][0]] and [m[1]] unchecked. When every target-nucleotide
    string contains ['='], every mapping string contains ["->"] and every
    modification string is non-empty, no call of [initModificationMassesNA]
    reads out of range. A target-nucleotide string without ['='], a mapping
    string without ["->"] and an empty modification string are read out of
    range. A one-character modification string is read at its terminating
    null character and raises [MissingInformation]; a mapping with an empty
    target field is read at the null character as well. *)
Theorem configuration_strings_in_bounds :
  (forall fuel target_nucleotides nt_groups can_xl mappings modifications
          sequence_restriction cysteine_adduct max_length,
      (forall s, In s target_nucleotides -> contains (str "=") s) ->
      (forall s, In s mappings -> contains (str "->") s) ->
      (forall m, In m modifications -> m <> []) ->
      initModificationMassesNA fuel target_nucleotides nt_groups can_xl
        mappings modifications sequence_restriction cysteine_adduct max_length
      <> Undefined)
  /\ (forall good s rest m,
         parse_target_nucleotides good = Returns m ->
         ~ contains (str "=") s ->
         parse_target_nucleotides (good ++ s :: rest) = Undefined)
  /\ (forall good s rest m,
         parse_mappings good = Returns m ->
         ~ contains (str "->") s ->
         parse_mappings (good ++ s :: rest) = Undefined)
  /\ (forall good rest mods,
         parse_modifications good = Returns mods ->
         parse_modifications (good ++ [] :: rest) = Undefined)
  /\ (forall good c rest mods,
         parse_modifications good = Returns mods ->
         parse_modifications (good ++ [c] :: rest) = Throws MissingInformation)
  /\ (forall m source,
         parse_mapping m (source :: str "->")
         = Returns (map_push_back source zero m)).
Proof.
  split; [exact initModificationMassesNA_in_bounds|].
  split.
  { intros good s rest m Hgood Hs. unfold parse_target_nucleotides in *.
    rewrite foldM_app, Hgood. simpl.
    now rewrite (parse_target_nucleotide_undefined m s (not_contains_occurs Hs)). }
  split.
  { intros good s rest m Hgood Hs. unfold parse_mappings in *.
    rewrite foldM_app, Hgood. simpl.
    now rewrite (parse_mapping_undefined m s (not_contains_occurs Hs)). }
  split.
  { intros good rest mods Hgood. unfold parse_modifications in *.
    now rewrite foldM_app, Hgood. }
  split.
  { intros good c rest mods Hgood. unfold parse_modifications in *.
    now rewrite foldM_app, Hgood. }
  exact parse_mapping_empty_target.
Qed.

End Preconditions.

(** The modification ["U"] has fewer than two characters; the call reads
    its terminating null character and throws the configuration error. The
    mapping ["A->"] has an empty target field and is read the same way. *)
Lemma one_character_modification_is_reported :
  length (str "U") < 2
  /\ initModificationMassesNA (H := SimpleFormulas.library) 8
       [str "A=C10H14N5O7P"; str "U=C9H13N2O9P"] [] ["U"%char] []
       [str "U"] (str "AU") false 2
     = Throws MissingInformation
  /\ effective_restriction [str "A->"] (str "AU") 2
     = Returns ([], [zero; "U"%char]).
Proof. split; [simpl; lia|]. split; reflexivity. Qed.

(** A configuration within the preconditions, and the three kinds of
    string that are read out of range. *)
Lemma configuration_strings_witness :
  initModificationMassesNA (H := SimpleFormulas.library) 8
    [str "A=C10H14N5O7P"; str "U=C9H13N2O9P"] [] ["U"%char] [str "A->A"]
    [str "U:"] (str "AU") false 2
  <> Undefined
  /\ parse_target_nucleotides (H := SimpleFormulas.library) [str "U"] = Undefined
  /\ parse_mappings [str "AX"] = Undefined
  /\ parse_modifications (H := SimpleFormulas.library) [str ""] = Undefined.
Proof.
  pose proof (@configuration_strings_in_bounds SimpleFormulas.library)
    as (Hin & Htargets & Hmappings & Hmods & _).
  split.
  { apply Hin.
    - intros s [<- | [<- | []]].
      + now exists (str "A"), (str "C10H14N5O7P").
      + now exists (str "U"), (str "C9H13N2O9P").
    - intros s [<- | []]. now exists (str "A"), (str "A").
    - intros m [<- | []]. discriminate. }
  split.
  { apply (Htargets [] (str "U") [] []); [reflexivity|].
    intros Hc. apply occurs_in_iff in Hc. discriminate. }
  split.
  { apply (Hmappings [] (str "AX") [] []); [reflexivity|].
    intros Hc. apply occurs_in_iff in Hc. discriminate. }
  apply (Hmods [] [] []). reflexivity.
Defined.

(* ===================================================================== *)
(** ** [result.mod_combinations]: a map of sets *)
(* ===================================================================== *)

(** The ambiguities recorded for a formula *)
Definition ambiguities (mc : omap String (oset String)) (formula : String)
  : oset String :=
  map_get [] formula mc.

(** The representation invariant of [result.mod_combinations] *)
Definition mc_wf (mc : omap String (oset String)) : Prop :=
  map_sorted mc /\ forall k s, In (k, s) mc -> set_sorted s.

Lemma mc_wf_nil : mc_wf [].
Proof. split; [exact I | intros k s []]. Qed.

Lemma In_map_upsert {K V} `{Ordered K} (k : K) (f : option V -> V)
  (m : omap K V) (e : K * V) :
  map_sorted m -> In e (map_upsert k f m) ->
  e = (k, f (map_find k m)) \/ In e m.
Proof.
  unfold map_sorted.
  induction m as [|[h v] t IH]; simpl.
  - intros _ [<- | []]. now left.
  - intros [Hh Ht]. unfold keq. destruct (cmp k h) eqn:E; simpl.
    + apply cmp_eq in E. subst h. intros [<- | He]; [now left | right; now right].
    + intros [<- | He]; [|now right]. left.
      rewrite map_find_above; [reflexivity|].
      rewrite Forall_forall in *. intros y Hy.
      apply (cmp_trans _ _ _ E). now apply Hh.
    + intros [<- | He]; [right; now left|].
      destruct (IH Ht He) as [-> | Hin]; [now left | right; now right].
Qed.

Lemma map_get_In {K V} `{Ordered K} (k : K) (m : omap K (list V)) (x : V) :
  In x (map_get [] k m) -> exists s, In (k, s) m /\ In x s /\ map_find k m = Some s.
Proof.
  unfold map_get. destruct (map_find k m) as [s|] eqn:E; [|intros []].
  intros Hx. exists s. split; [now apply map_find_In | now split].
Qed.

(** Case analysis on the lookup that the goal branches on. *)
Ltac case_find E :=
  match goal with
  | |- context [@map_find ?K ?H ?V ?k ?m] =>
      destruct (@map_find K H V k m) eqn:E
  end.

Section ModCombinations.

Lemma mc_wf_upsert (k : String) (f : option (oset String) -> oset String)
  (mc : omap String (oset String)) :
  (forall o, match o with Some s => set_sorted s | None => True end ->
             set_sorted (f o)) ->
  mc_wf mc -> mc_wf (map_upsert k f mc).
Proof.
  intros Hf [Hs Hsets]. split; [now apply map_upsert_sorted|].
  intros k' s Hin. apply In_map_upsert in Hin; [|assumption].
  destruct Hin as [[= -> ->] | Hin]; [|now apply (Hsets k')].
  apply Hf. destruct (map_find k mc) as [s0|] eqn:E; [|exact I].
  apply map_find_In in E. now apply (Hsets k).
Qed.

Lemma mc_wf_insert (k x : String) (mc : omap String (oset String)) :
  mc_wf mc -> mc_wf (map_set_insert k x mc).
Proof.
  apply mc_wf_upsert. intros [s|] Hs.
  - now apply set_insert_sorted.
  - split; [constructor | exact I].
Qed.

Lemma mc_wf_touch (k : String) (mc : omap String (oset String)) :
  mc_wf mc -> mc_wf (map_touch [] k mc).
Proof. apply mc_wf_upsert. intros [s|] Hs; [assumption | exact I]. Qed.

Lemma mc_wf_erase (k x : String) (mc : omap String (oset String)) :
  mc_wf mc -> mc_wf (map_set_erase k x mc).
Proof.
  apply mc_wf_upsert. intros [s|] Hs; [now apply set_erase_sorted | exact I].
Qed.

Lemma ambiguities_sorted (mc : omap String (oset String)) (k : String) :
  mc_wf mc -> set_sorted (ambiguities mc k).
Proof.
  intros [_ Hsets]. unfold ambiguities, map_get.
  case_find E; [|exact I].
  apply map_find_In in E. now apply (Hsets k).
Qed.

Lemma ambiguities_insert (k x k' y : String) (mc : omap String (oset String)) :
  mc_wf mc ->
  (In y (ambiguities (map_set_insert k x mc) k') <->
   (k' = k /\ y = x) \/ In y (ambiguities mc k')).
Proof.
  intros [Hs _]. unfold ambiguities, map_set_insert.
  destruct (key_eq_dec k' k) as [-> | Hne].
  - rewrite map_get_upsert_same by assumption. unfold map_get.
    case_find E.
    + rewrite In_set_insert. intuition.
    + simpl. intuition.
  - rewrite map_get_upsert_other by assumption. intuition.
Qed.

Lemma ambiguities_touch (k k' : String) (mc : omap String (oset String)) :
  mc_wf mc -> ambiguities (map_touch [] k mc) k' = ambiguities mc k'.
Proof.
  intros [Hs _]. unfold ambiguities, map_touch.
  destruct (key_eq_dec k' k) as [-> | Hne].
  - rewrite map_get_upsert_same by assumption. unfold map_get.
    now case_find E.
  - now rewrite map_get_upsert_other.
Qed.

Lemma ambiguities_erase (k x k' y : String) (mc : omap String (oset String)) :
  mc_wf mc ->
  (In y (ambiguities (map_set_erase k x mc) k') <->
   In y (ambiguities mc k') /\ ~ (k' = k /\ y = x)).
Proof.
  intros Hwf. pose proof (ambiguities_sorted k Hwf) as Hsorted.
  destruct Hwf as [Hs _]. unfold ambiguities, map_set_erase in *.
  destruct (key_eq_dec k' k) as [-> | Hne].
  - rewrite map_get_upsert_same by assumption. unfold map_get in *.
    case_find E.
    + rewrite (In_set_erase x y _ Hsorted). intuition.
    + simpl. intuition.
  - rewrite map_get_upsert_other by assumption. intuition.
Qed.

Lemma ambiguities_find (mc : omap String (oset String)) (k : String)
  (s : oset String) :
  map_find k mc = Some s -> ambiguities mc k = s.
Proof.
  intros E. unfold ambiguities, map_get. case_find E'.
  - pose proof (eq_trans (eq_sym E') E) as Es. now injection Es.
  - pose proof (eq_trans (eq_sym E') E) as Es. discriminate Es.
Qed.

Lemma ambiguities_key (mc : omap String (oset String)) (k x : String) :
  In x (ambiguities mc k) -> In k (map_keys mc).
Proof.
  intros Hx. apply map_get_In in Hx. destruct Hx as (s & _ & _ & Hf).
  now apply map_find_key in Hf.
Qed.

End ModCombinations.

(* ===================================================================== *)
(** ** Loops over vectors *)
(* ===================================================================== *)

Lemma fold_left_invariant {A S} (P : S -> Prop) (g : S -> A -> S)
  (l : list A) (s : S) :
  (forall s a, In a l -> P s -> P (g s a)) -> P s -> P (fold_left g l s).
Proof.
  revert s. induction l as [|a l IH]; intros s Hstep Hs; simpl; [assumption|].
  apply IH.
  - intros s0 b Hb. apply Hstep. now right.
  - apply Hstep; [now left | assumption].
Qed.

(** What the iteration at [a] establishes, and later iterations keep,
    holds at the end of the loop. *)
Lemma fold_left_establish {A S} (P Q : S -> Prop) (g : S -> A -> S)
  (l : list A) (a : A) (s : S) :
  In a l -> P s ->
  (forall s b, P s -> P (g s b)) ->
  (forall s, P s -> Q (g s a)) ->
  (forall s b, P s -> Q s -> Q (g s b)) ->
  Q (fold_left g l s).
Proof.
  intros Ha Hs HP Hest Hkeep. apply in_split in Ha.
  destruct Ha as (l1 & l2 & ->). rewrite fold_left_app. simpl.
  assert (P (fold_left g l1 s)) as H1.
  { apply fold_left_invariant; [intros; now apply HP | assumption]. }
  assert (P (g (fold_left g l1 s) a) /\ Q (g (fold_left g l1 s) a)) as H2.
  { split; [now apply HP | now apply Hest]. }
  apply (fold_left_invariant (fun s => P s /\ Q s)); [|assumption].
  intros s0 b _ [HP0 HQ0]. split; [now apply HP | now apply Hkeep].
Qed.

(* ===================================================================== *)
(** ** The single nucleotides (lines 256-301) *)
(* ===================================================================== *)

Section SingleNucleotides.
Context `{FormulaLibrary}.

(** The loop state: [actual_combinations] and [result.mod_combinations] *)
Definition generated (sum_formula : EmpiricalFormula) (nt : String)
  (st : list EmpiricalFormula * omap String (oset String)) : Prop :=
  In sum_formula (fst st) /\ In nt (ambiguities (snd st) (toString sum_formula)).

Lemma add_modified_nucleotide_eq (N : String) (F : EmpiricalFormula)
  (st : list EmpiricalFormula * omap String (oset String))
  (nt_mod : NucleotideModification) :
  add_modified_nucleotide N F st nt_mod
  = (fst st ++ [fst (modified_nucleotide N F nt_mod)],
     map_set_insert (toString (fst (modified_nucleotide N F nt_mod)))
       (snd (modified_nucleotide N F nt_mod)) (snd st)).
Proof.
  unfold add_modified_nucleotide. destruct st as [actual mc].
  now destruct (modified_nucleotide N F nt_mod) as [sum_formula nt].
Qed.

Lemma add_modified_nucleotide_wf (N : String) (F : EmpiricalFormula)
  (st : list EmpiricalFormula * omap String (oset String))
  (nt_mod : NucleotideModification) :
  mc_wf (snd st) -> mc_wf (snd (add_modified_nucleotide N F st nt_mod)).
Proof.
  intros Hwf. rewrite add_modified_nucleotide_eq. simpl. now apply mc_wf_insert.
Qed.

Lemma add_modified_nucleotide_keeps (N : String) (F : EmpiricalFormula)
  (st : list EmpiricalFormula * omap String (oset String))
  (nt_mod : NucleotideModification) (c : EmpiricalFormula) (nt : String) :
  mc_wf (snd st) -> generated c nt st ->
  generated c nt (add_modified_nucleotide N F st nt_mod).
Proof.
  intros Hwf [Hc Hnt]. rewrite add_modified_nucleotide_eq. split; simpl.
  - apply in_or_app. now left.
  - apply ambiguities_insert; [assumption | now right].
Qed.

Lemma add_modified_nucleotide_generates (N : String) (F : EmpiricalFormula)
  (st : list EmpiricalFormula * omap String (oset String))
  (nt_mod : NucleotideModification) :
  mc_wf (snd st) ->
  generated (fst (modified_nucleotide N F nt_mod))
    (snd (modified_nucleotide N F nt_mod))
    (add_modified_nucleotide N F st nt_mod).
Proof.
  intros Hwf. rewrite add_modified_nucleotide_eq. split; simpl.
  - apply in_or_app. right. now left.
  - apply ambiguities_insert; [assumption | now left].
Qed.

Lemma add_target_nucleotide_wf (mods : omap String NucleotideModifications)
  (st : list EmpiricalFormula * omap String (oset String))
  (entry : String * EmpiricalFormula) :
  mc_wf (snd st) -> mc_wf (snd (add_target_nucleotide mods st entry)).
Proof.
  intros Hwf. unfold add_target_nucleotide.
  apply (fold_left_invariant (fun st => mc_wf (snd st))); [|assumption].
  intros s a _. apply add_modified_nucleotide_wf.
Qed.

Lemma add_target_nucleotide_keeps (mods : omap String NucleotideModifications)
  (st : list EmpiricalFormula * omap String (oset String))
  (entry : String * EmpiricalFormula) (c : EmpiricalFormula) (nt : String) :
  mc_wf (snd st) -> generated c nt st ->
  generated c nt (add_target_nucleotide mods st entry).
Proof.
  intros Hwf Hgen. unfold add_target_nucleotide.
  apply (fold_left_invariant
           (fun st => mc_wf (snd st) /\ generated c nt st)); [|now split].
  intros s a _ [Hwf' Hgen']. split.
  - now apply add_modified_nucleotide_wf.
  - now apply add_modified_nucleotide_keeps.
Qed.

Lemma single_nucleotides_wf (targets : omap String EmpiricalFormula)
  (mods : omap String NucleotideModifications) :
  mc_wf (snd (single_nucleotides targets mods)).
Proof.
  unfold single_nucleotides.
  apply (fold_left_invariant (fun st => mc_wf (snd st))); [|exact mc_wf_nil].
  intros s a _. apply add_target_nucleotide_wf.
Qed.

(** Every modification listed for a target nucleotide yields a combination. *)
Lemma single_nucleotides_generated (targets : omap String EmpiricalFormula)
  (mods : omap String NucleotideModifications)
  (N : String) (F : EmpiricalFormula) (nt_mod : NucleotideModification) :
  In (N, F) targets -> In nt_mod (map_get [] N mods) ->
  generated (fst (modified_nucleotide N F nt_mod))
    (snd (modified_nucleotide N F nt_mod)) (single_nucleotides targets mods).
Proof.
  intros HN Hmod. unfold single_nucleotides.
  apply (fold_left_establish (fun st => mc_wf (snd st)) _ _ _ (N, F));
    [assumption | exact mc_wf_nil | | |].
  - intros s b. apply add_target_nucleotide_wf.
  - intros s Hwf. unfold add_target_nucleotide. simpl.
    apply (fold_left_establish (fun st => mc_wf (snd st)) _ _ _ nt_mod);
      [assumption | assumption | | |].
    + intros s0 b. apply add_modified_nucleotide_wf.
    + intros s0. apply add_modified_nucleotide_generates.
    + intros s0 b. apply add_modified_nucleotide_keeps.
  - intros s b. apply add_target_nucleotide_keeps.
Qed.

(** Without a modification listed for any target nucleotide, nothing is
    generated: the unmodified nucleotide is no implicit case. *)
Lemma single_nucleotides_none (targets : omap String EmpiricalFormula)
  (mods : omap String NucleotideModifications) :
  (forall N F, In (N, F) targets -> map_get [] N mods = []) ->
  single_nucleotides targets mods = ([], []).
Proof.
  intros Hnone. unfold single_nucleotides.
  apply (fold_left_invariant (fun st => st = ([], []))); [|reflexivity].
  intros s [N F] HN ->. unfold add_target_nucleotide. simpl.
  now rewrite (Hnone N F HN).
Qed.

End SingleNucleotides.

(* ===================================================================== *)
(** ** The modifications listed for a nucleotide (lines 184-230) *)
(* ===================================================================== *)

Section ModificationTable.
Context `{FormulaLibrary}.

(** Lines 200-227: the subformulae of the text behind ["N:"] *)
Definition modification_spec (spec : String) : outcome NucleotideModification :=
  foldM parse_subformula
    (split (str "#")
       (substitute (str "+") (str "#+") (substitute (str "-") (str "#-") spec)))
    [].

Lemma parse_modification_Returns (mods mods' : omap String NucleotideModifications)
  (m : String) :
  parse_modification mods m = Returns mods' ->
  exists c spec nm,
    m = c :: ":"%char :: spec /\ modification_spec spec = Returns nm /\
    mods' = map_push_back [c] nm mods.
Proof.
  unfold parse_modification. intros E. inv_bind E.
  destruct (Ascii.eqb_spec r ":") as [-> | Hne]; simpl in E; [|discriminate].
  assert (1 < length m) as Hlen.
  { apply (string_at_length _ _ E0). discriminate. }
  destruct m as [|c [|c1 spec]]; simpl in Hlen; try lia.
  injection E0 as ->. simpl in E. inv_bind E. injection E as <-.
  now exists c, spec, r.
Qed.

Lemma map_push_back_sorted {V} (k : String) (x : V) (m : omap String (list V)) :
  map_sorted m -> map_sorted (map_push_back k x m).
Proof. apply map_upsert_sorted. Qed.

Lemma map_push_back_In {V} (k k' : String) (x y : V) (m : omap String (list V)) :
  map_sorted m ->
  (In y (map_get [] k' (map_push_back k x m)) <->
   (k' = k /\ y = x) \/ In y (map_get [] k' m)).
Proof.
  intros Hs. unfold map_push_back.
  destruct (key_eq_dec k' k) as [-> | Hne].
  - rewrite map_get_upsert_same by assumption. unfold map_get.
    case_find E.
    + rewrite in_app_iff. simpl. intuition.
    + simpl. intuition.
  - rewrite map_get_upsert_other by assumption. intuition.
Qed.

Lemma parse_modifications_keeps (modifications : list String)
  (mods mods' : omap String NucleotideModifications) :
  foldM parse_modification modifications mods = Returns mods' ->
  map_sorted mods ->
  map_sorted mods' /\
  forall k nm, In nm (map_get [] k mods) -> In nm (map_get [] k mods').
Proof.
  revert mods. induction modifications as [|m l IH]; intros mods; simpl.
  - intros [= <-] Hs. now split.
  - intros E Hs. inv_bind E.
    apply parse_modification_Returns in E0.
    destruct E0 as (c & spec & nm & -> & Hspec & ->).
    destruct (IH _ E (map_push_back_sorted _ _ _ Hs)) as [Hs' Hkeep].
    split; [assumption|]. intros k nm' Hin. apply Hkeep.
    apply map_push_back_In; [assumption | now right].
Qed.

(** A modification string ["N:spec"] of the configuration is listed for
    the nucleotide [N] in the table. *)
Lemma parse_modifications_listed (good rest : list String) (c : ascii)
  (spec : String) (mods : omap String NucleotideModifications) :
  parse_modifications (good ++ (c :: ":"%char :: spec) :: rest) = Returns mods ->
  exists nm, modification_spec spec = Returns nm /\
             In nm (map_get [] [c] mods).
Proof.
  unfold parse_modifications. rewrite foldM_app. intros E. inv_bind E.
  simpl in E. inv_bind E.
  assert (map_sorted r) as Hr.
  { apply (parse_modifications_keeps _ _ E0). exact I. }
  apply parse_modification_Returns in E1.
  destruct E1 as (c' & spec' & nm & [= <- <-] & Hspec & ->).
  exists nm. split; [assumption|].
  apply (parse_modifications_keeps _ _ E (map_push_back_sorted _ _ _ Hr)).
  apply map_push_back_In; [assumption | now left].
Qed.

Lemma modification_spec_empty : modification_spec [] = Returns [].
Proof. reflexivity. Qed.

End ModificationTable.

(* ===================================================================== *)
(** ** The scenario of the specification *)
(* ===================================================================== *)

Module Scenario.
Import SimpleFormulas.

(** Symbols [A] and [U] with their monophosphate formulas, the
    cross-linkable set [{U}], [max_length = 2], no substitution rules, the
    restriction sequence ["AU"]. *)
Definition target_nucleotides : list String :=
  [str "A=C10H14N5O7P"; str "U=C9H13N2O9P"].

Definition can_xl : oset ascii := ["U"%char].

Definition formula_of (s : string) : formula :=
  match parse (str s) with Some f => f | None => [] end.

Definition formula_A : formula := formula_of "C10H14N5O7P".
Definition formula_U : formula := formula_of "C9H13N2O9P".
Definition water : formula := formula_of "H2O".

(** The condensation product of [A] and [U] *)
Definition formula_AU : formula := sub (add formula_A formula_U) water.

Definition run (modifications : list String) (cysteine_adduct : bool)
  : outcome NuXLModificationMassesResult :=
  initModificationMassesNA 8 target_nucleotides [] can_xl [] modifications
    (str "AU") cysteine_adduct 2.

Definition result (f2m : omap String Z) (mc : omap String (oset String))
  : NuXLModificationMassesResult :=
  {| formula2mass := f2m; mod_combinations := mc |}.

End Scenario.

(** C1, as amended: for every target nucleotide with a base formula and
    every modification string ["N:spec"] listed for it, the generator
    produces the single-nucleotide combination of that modification; the
    unmodified nucleotide is generated when it is listed as the empty
    modification ["N:"], and there is no implicit unmodified case: without
    a listed modification nothing is generated. In the scenario with the
    modifications ["A:"] and ["U:"] the result holds the formula of [U] and
    the condensation product of [A] and [U] with the mass
    [A + U - H2O], and the formula of [A] alone is rejected. *)
Theorem single_nucleotide_combinations :
  (forall (L : FormulaLibrary) (good rest : list String) (c : ascii)
          (spec : String) (mods : omap String NucleotideModifications)
          (targets : omap String EmpiricalFormula) (F : EmpiricalFormula),
      parse_modifications (good ++ (c :: ":"%char :: spec) :: rest) = Returns mods ->
      In ([c], F) targets ->
      exists nm,
        modification_spec spec = Returns nm /\
        In nm (map_get [] [c] mods) /\
        generated (fst (modified_nucleotide [c] F nm))
          (snd (modified_nucleotide [c] F nm)) (single_nucleotides targets mods))
  /\ (forall (L : FormulaLibrary) (N : String) (F : EmpiricalFormula),
         modification_spec [] = Returns [] /\ modified_nucleotide N F [] = (F, N))
  /\ (forall (L : FormulaLibrary) (targets : omap String EmpiricalFormula)
             (mods : omap String NucleotideModifications),
         (forall N F, In (N, F) targets -> map_get [] N mods = []) ->
         single_nucleotides targets mods = ([], []))
  /\ Scenario.run [str "A:"; str "U:"] false
     = Returns
         (Scenario.result
            [(SimpleFormulas.to_string Scenario.formula_AU,
              (SimpleFormulas.mono_weight Scenario.formula_A
               + SimpleFormulas.mono_weight Scenario.formula_U
               - SimpleFormulas.mono_weight Scenario.water)%Z);
             (SimpleFormulas.to_string Scenario.formula_U,
              SimpleFormulas.mono_weight Scenario.formula_U)]
            [(SimpleFormulas.to_string Scenario.formula_AU, [str "AU"]);
             (SimpleFormulas.to_string Scenario.formula_U, [str "U"])]).
Proof.
  split; [|split; [|split]].
  - intros L good rest c spec mods targets F Hparse HF.
    destruct (parse_modifications_listed _ _ _ _ Hparse) as (nm & Hspec & Hnm).
    exists nm. split; [assumption|]. split; [assumption|].
    now apply single_nucleotides_generated.
  - intros L N F. split; reflexivity.
  - intros L. apply single_nucleotides_none.
  - reflexivity.
Qed.

(** The scenario as the specification states it, without modifications:
    nothing is generated, the result holds no formula at all. *)
Lemma scenario_without_modifications_is_empty :
  Scenario.run [] false = Returns (Scenario.result [] []).
Proof. reflexivity. Qed.

(** The modification ["U:-H2O"] of the scenario yields the combination
    ["U-H2O1"] under the formula of [U] less water. *)
Lemma single_nucleotide_combinations_witness :
  exists nm,
    modification_spec (H := SimpleFormulas.library) (str "-H2O") = Returns nm /\
    In nm (map_get [] (str "U")
             [(str "A", [[]]); (str "U", [[(Scenario.water, true)]])]) /\
    generated (H := SimpleFormulas.library)
      (fst (modified_nucleotide (H := SimpleFormulas.library)
              (str "U") Scenario.formula_U nm))
      (snd (modified_nucleotide (H := SimpleFormulas.library)
              (str "U") Scenario.formula_U nm))
      (single_nucleotides (H := SimpleFormulas.library)
         [(str "A", Scenario.formula_A); (str "U", Scenario.formula_U)]
         [(str "A", [[]]); (str "U", [[(Scenario.water, true)]])]).
Proof.
  apply (proj1 single_nucleotide_combinations SimpleFormulas.library
           [str "A:"] [] "U"%char (str "-H2O")).
  - reflexivity.
  - right. now left.
Defined.

(* ===================================================================== *)
(** ** The chain extension (lines 303-329) *)
(* ===================================================================== *)

(** [result.mod_combinations] only grows during the generation. *)
Definition grows (mc mc' : omap String (oset String)) : Prop :=
  mc_wf mc' /\
  forall k x, In x (ambiguities mc k) -> In x (ambiguities mc' k).

Lemma grows_refl (mc : omap String (oset String)) : mc_wf mc -> grows mc mc.
Proof. intros Hwf. split; [assumption | auto]. Qed.

Lemma grows_trans (mc1 mc2 mc3 : omap String (oset String)) :
  grows mc1 mc2 -> grows mc2 mc3 -> grows mc1 mc3.
Proof. intros [_ H12] [Hwf H23]. split; [assumption | auto]. Qed.

Lemma grows_insert (k x : String) (mc : omap String (oset String)) :
  mc_wf mc -> grows mc (map_set_insert k x mc).
Proof.
  intros Hwf. split; [now apply mc_wf_insert|].
  intros k' y Hy. apply ambiguities_insert; [assumption | now right].
Qed.

Lemma grows_touch (k : String) (mc : omap String (oset String)) :
  mc_wf mc -> grows mc (map_touch [] k mc).
Proof.
  intros Hwf. split; [now apply mc_wf_touch|].
  intros k' y Hy. now rewrite ambiguities_touch.
Qed.

Lemma cmp_not_Lt (x y : String) :
  cmp y x <> Lt -> cmp x y = Lt \/ x = y.
Proof.
  intros Hn. destruct (cmp x y) eqn:E.
  - right. now apply cmp_eq.
  - now left.
  - apply cmp_Gt_Lt in E. contradiction.
Qed.

(** An element lies before the iterator. *)
Definition before (x : String) (it : option String) : Prop :=
  match it with
  | None => True
  | Some y => cmp x y = Lt
  end.

(** The loop over the ambiguities visits every string that the set held
    when the loop started, whatever is inserted meanwhile. *)
Lemma extend_ambiguities_spec (fuel : nat) (t src dst : String)
  (S0 : oset String) (it : option String) (mc mc' : omap String (oset String)) :
  mc_wf mc ->
  extend_ambiguities fuel t src dst it mc = Returns mc' ->
  (forall x, In x S0 -> In x (ambiguities mc src)) ->
  (forall x, In x S0 -> before x it -> In (t ++ x) (ambiguities mc dst)) ->
  grows mc mc' /\
  (forall x, In x S0 -> In (t ++ x) (ambiguities mc' dst)) /\
  (forall k, In k (map_keys mc') -> k = dst \/ In k (map_keys mc)).
Proof.
  revert it mc. induction fuel as [|fuel IH]; intros [y|] mc Hwf Hrun Hsub Hdone;
    simpl in Hrun; try discriminate.
  - injection Hrun as <-. split; [now apply grows_refl|]. split; [|auto].
    intros x Hx. now apply Hdone.
  - pose proof (grows_insert dst (t ++ y) Hwf) as Hg.
    destruct (IH _ _ (proj1 Hg) Hrun) as (Hg' & Hall & Hkeys).
    + intros x Hx. apply Hg. now apply Hsub.
    + intros x Hx Hbefore.
      assert (cmp y x <> Lt) as Hle.
      { pose proof (ambiguities_sorted src (proj1 Hg)) as Hsorted.
        specialize (Hsub x Hx). apply Hg in Hsub.
        unfold ambiguities in Hsorted, Hsub.
        match type of Hbefore with before _ (set_next ?s _) =>
          destruct (set_next s y) as [z|] eqn:En
        end.
        - destruct (set_next_Some _ _ Hsorted En) as (_ & _ & Hleast).
          intros Hyx. exact (Hleast x Hsub Hyx Hbefore).
        - exact (@set_next_None _ _ _ y x En Hsub). }
      destruct (cmp_not_Lt x y Hle) as [Hlt | ->].
      * apply Hg. now apply Hdone.
      * apply ambiguities_insert; [assumption | now left].
    + split; [exact (grows_trans Hg Hg')|]. split; [assumption|].
      intros k Hk. destruct (Hkeys k Hk) as [-> | Hk']; [now left|].
      apply map_keys_upsert in Hk'. tauto.
  - injection Hrun as <-. split; [now apply grows_refl|]. split; [|auto].
    intros x Hx. now apply Hdone.
Qed.

(** What the iteration at [a] establishes, and later iterations keep,
    holds when the loop returns. *)
Lemma foldM_establish {A S} (P Q : S -> Prop) (f : S -> A -> outcome S)
  (l : list A) (a : A) (s s' : S) :
  In a l -> P s -> foldM f l s = Returns s' ->
  (forall s b s', P s -> f s b = Returns s' -> P s') ->
  (forall s s', P s -> f s a = Returns s' -> Q s') ->
  (forall s b s', P s -> Q s -> f s b = Returns s' -> Q s') ->
  P s' /\ Q s'.
Proof.
  intros Ha Hs Hrun HP Hest Hkeep. apply in_split in Ha.
  destruct Ha as (l1 & l2 & ->). rewrite foldM_app in Hrun.
  inv_bind Hrun. simpl in Hrun. inv_bind Hrun.
  assert (P r) as H1.
  { apply (foldM_invariant P f l1 s); [|assumption|assumption].
    intros s0 b s0' _. apply HP. }
  assert (P r0 /\ Q r0) as H2.
  { split; [exact (HP _ _ _ H1 E0) | exact (Hest _ _ H1 E0)]. }
  apply (foldM_invariant (fun s => P s /\ Q s) f l2 r0); [|assumption|assumption].
  intros s0 b s0' _ [HP0 HQ0] Hstep.
  split; [exact (HP _ _ _ HP0 Hstep) | exact (Hkeep _ _ _ HP0 HQ0 Hstep)].
Qed.

Section ChainExtension.
Context `{FormulaLibrary}.

(** Line 318: [target_nucleotide_formula + ac - EmpiricalFormula("H2O")] *)
Definition extend_formula (water target_nucleotide_formula ac : EmpiricalFormula)
  : EmpiricalFormula :=
  ef_sub (ef_add target_nucleotide_formula ac) water.

(** The combinations of one round: every target nucleotide in turn put in
    front of every combination of the round before. *)
Definition extended (water : EmpiricalFormula)
  (targets : omap String EmpiricalFormula) (actual : list EmpiricalFormula)
  : list EmpiricalFormula :=
  flat_map (fun e => map (extend_formula water (snd e)) actual) targets.

(** The combinations with [k] nucleotides added to those of [actual] *)
Fixpoint level (water : EmpiricalFormula) (targets : omap String EmpiricalFormula)
  (actual : list EmpiricalFormula) (k : nat) : list EmpiricalFormula :=
  match k with
  | O => actual
  | S k' => extended water targets (level water targets actual k')
  end.

(** Every key of [result.mod_combinations] is the string of a combination. *)
Definition keys_generated (all : list EmpiricalFormula)
  (mc : omap String (oset String)) : Prop :=
  forall k, In k (map_keys mc) -> exists c, In c all /\ toString c = k.

Definition cs_new (st : chain_state) : list EmpiricalFormula := fst (fst st).
Definition cs_all (st : chain_state) : list EmpiricalFormula := snd (fst st).
Definition cs_mc (st : chain_state) : omap String (oset String) := snd st.

Lemma extend_combination_spec (fuel : nat) (N : String) (F_N : EmpiricalFormula)
  (st st' : chain_state) (ac : EmpiricalFormula) :
  mc_wf (cs_mc st) ->
  extend_combination fuel N F_N st ac = Returns st' ->
  exists water,
    newFormula (str "H2O") = Returns water /\
    cs_new st' = cs_new st ++ [extend_formula water F_N ac] /\
    cs_all st' = cs_all st ++ [extend_formula water F_N ac] /\
    grows (cs_mc st) (cs_mc st') /\
    (forall x, In x (ambiguities (cs_mc st) (toString ac)) ->
               In (N ++ x)
                 (ambiguities (cs_mc st') (toString (extend_formula water F_N ac)))) /\
    (forall k, In k (map_keys (cs_mc st')) ->
               k = toString (extend_formula water F_N ac) \/ k = toString ac \/
               In k (map_keys (cs_mc st))).
Proof.
  destruct st as [[new all] mc]. unfold cs_new, cs_all, cs_mc. simpl.
  intros Hwf Hrun. unfold extend_combination in Hrun.
  inv_bind Hrun. rename r into water. inv_bind Hrun. injection Hrun as <-.
  exists water. simpl. split; [assumption|]. split; [reflexivity|].
  split; [reflexivity|].
  pose proof (grows_touch (toString ac) Hwf) as Ht.
  destruct (@extend_ambiguities_spec fuel N (toString ac)
              (toString (extend_formula water F_N ac))
              (ambiguities mc (toString ac)) _ _ _ (proj1 Ht) E0)
    as (Hg & Hall & Hkeys).
  - intros x Hx. now rewrite ambiguities_touch.
  - intros x Hx Hbefore. exfalso.
    pose proof (ambiguities_sorted (toString ac) (proj1 Ht)) as Hsorted.
    destruct (set_begin _) as [y|] eqn:Eb; simpl in Hbefore.
    + refine (@set_begin_least _ _ _ y x Hsorted Eb _ Hbefore).
      now rewrite ambiguities_touch.
    + apply set_begin_None in Eb. unfold ambiguities in Eb.
      rewrite <- (ambiguities_touch (toString ac) (toString ac) Hwf) in Hx.
      unfold ambiguities in Hx. rewrite Eb in Hx. destruct Hx.
  - split; [exact (grows_trans Ht Hg)|]. split; [assumption|].
    intros k Hk. destruct (Hkeys k Hk) as [-> | Hk']; [now left|].
    apply map_keys_upsert in Hk'. tauto.
Qed.

Lemma foldM_grows {A} (f : chain_state -> A -> outcome chain_state)
  (l : list A) (st st' : chain_state) :
  (forall s a s', mc_wf (cs_mc s) -> f s a = Returns s' ->
                  grows (cs_mc s) (cs_mc s')) ->
  mc_wf (cs_mc st) -> foldM f l st = Returns st' ->
  grows (cs_mc st) (cs_mc st').
Proof.
  intros Hstep Hwf Hrun.
  apply (foldM_invariant (fun s => grows (cs_mc st) (cs_mc s)) f l st);
    [|now apply grows_refl|assumption].
  intros s a s' _ Hg Hf. apply (grows_trans Hg).
  exact (Hstep _ _ _ (proj1 Hg) Hf).
Qed.

Lemma extend_combination_grows (fuel : nat) (N : String) (F_N : EmpiricalFormula)
  (st : chain_state) (ac : EmpiricalFormula) (st' : chain_state) :
  mc_wf (cs_mc st) -> extend_combination fuel N F_N st ac = Returns st' ->
  grows (cs_mc st) (cs_mc st').
Proof.
  intros Hwf Hrun.
  destruct (extend_combination_spec _ _ _ _ _ Hwf Hrun) as (w & _ & _ & _ & Hg & _).
  exact Hg.
Qed.

Lemma extend_by_nucleotide_grows (fuel : nat) (actual : list EmpiricalFormula)
  (st : chain_state) (e : String * EmpiricalFormula) (st' : chain_state) :
  mc_wf (cs_mc st) -> extend_by_nucleotide fuel actual st e = Returns st' ->
  grows (cs_mc st) (cs_mc st').
Proof.
  unfold extend_by_nucleotide. apply foldM_grows.
  intros s a s'. apply extend_combination_grows.
Qed.

Lemma extension_round_grows (fuel : nat) (targets : omap String EmpiricalFormula)
  (actual all : list EmpiricalFormula) (mc : omap String (oset String))
  (st' : chain_state) :
  mc_wf mc -> extension_round fuel targets actual all mc = Returns st' ->
  grows mc (cs_mc st').
Proof.
  unfold extension_round. intros Hwf Hrun.
  apply (@foldM_grows _ (extend_by_nucleotide fuel actual) targets
           ([], all, mc) st'); [|exact Hwf|exact Hrun].
  intros s a s'. apply extend_by_nucleotide_grows.
Qed.

(** The lists of one nucleotide's share of a round *)
Lemma extend_by_nucleotide_lists (fuel : nat) (water : EmpiricalFormula)
  (actual : list EmpiricalFormula) (e : String * EmpiricalFormula)
  (st st' : chain_state) :
  newFormula (str "H2O") = Returns water ->
  extend_by_nucleotide fuel actual st e = Returns st' ->
  cs_new st' = cs_new st ++ map (extend_formula water (snd e)) actual /\
  cs_all st' = cs_all st ++ map (extend_formula water (snd e)) actual.
Proof.
  intros Hw. unfold extend_by_nucleotide. revert st.
  induction actual as [|ac actual IH]; intros st; simpl.
  - intros [= <-]. now rewrite !app_nil_r.
  - intros Hrun. inv_bind Hrun. destruct (IH _ Hrun) as [Hn Ha].
    destruct st as [[new all] mc]. unfold extend_combination in E.
    rewrite Hw in E. simpl in E. inv_bind E. injection E as <-.
    unfold cs_new, cs_all in *. simpl in *.
    rewrite Hn, Ha, <- !app_assoc. now split.
Qed.

Lemma extension_round_lists (fuel : nat) (water : EmpiricalFormula)
  (targets : omap String EmpiricalFormula) (actual all : list EmpiricalFormula)
  (mc : omap String (oset String)) (st' : chain_state) :
  newFormula (str "H2O") = Returns water ->
  extension_round fuel targets actual all mc = Returns st' ->
  cs_new st' = extended water targets actual /\
  cs_all st' = all ++ extended water targets actual.
Proof.
  intros Hw. unfold extension_round.
  assert (forall st,
             foldM (extend_by_nucleotide fuel actual) targets st = Returns st' ->
             cs_new st' = cs_new st ++ extended water targets actual /\
             cs_all st' = cs_all st ++ extended water targets actual) as Hgen.
  { induction targets as [|e targets IH]; intros st; simpl.
    - intros [= <-]. unfold extended. simpl. now rewrite !app_nil_r.
    - intros Hrun. inv_bind Hrun. destruct (IH _ Hrun) as [Hn Ha].
      destruct (extend_by_nucleotide_lists _ _ _ _ Hw E) as [Hn' Ha'].
      unfold extended in *. simpl. rewrite Hn, Ha, Hn', Ha', <- !app_assoc.
      now split. }
  intros Hrun. apply Hgen in Hrun. exact Hrun.
Qed.

(** Ambiguity propagation within one round: the new formula inherits the
    ambiguities of the old one with the nucleotide put in front. *)
Lemma extend_by_nucleotide_propagates (fuel : nat) (water : EmpiricalFormula)
  (actual : list EmpiricalFormula) (N : String) (F_N : EmpiricalFormula)
  (st st' : chain_state) (ac : EmpiricalFormula) (x : String) :
  newFormula (str "H2O") = Returns water ->
  mc_wf (cs_mc st) ->
  extend_by_nucleotide fuel actual st (N, F_N) = Returns st' ->
  In ac actual -> In x (ambiguities (cs_mc st) (toString ac)) ->
  In (N ++ x) (ambiguities (cs_mc st') (toString (extend_formula water F_N ac))).
Proof.
  intros Hw Hwf Hrun Hac Hx. unfold extend_by_nucleotide in Hrun. simpl in Hrun.
  refine (proj2 (foldM_establish
            (fun s => grows (cs_mc st) (cs_mc s))
            (fun s => In (N ++ x)
                        (ambiguities (cs_mc s)
                           (toString (extend_formula water F_N ac))))
            _ _ ac _ Hac (grows_refl Hwf) Hrun _ _ _)).
  - intros s b s' Hg Hf. apply (grows_trans Hg).
    exact (extend_combination_grows _ _ _ _ _ (proj1 Hg) Hf).
  - intros s s' Hg Hf.
    destruct (extend_combination_spec _ _ _ _ _ (proj1 Hg) Hf)
      as (w & Hw' & _ & _ & _ & Hprop & _).
    rewrite Hw in Hw'. injection Hw' as <-. apply Hprop. now apply Hg.
  - intros s b s' Hg HQ Hf.
    apply (extend_combination_grows _ _ _ _ _ (proj1 Hg) Hf). exact HQ.
Qed.

Lemma extension_round_propagates (fuel : nat) (water : EmpiricalFormula)
  (targets : omap String EmpiricalFormula) (actual all : list EmpiricalFormula)
  (mc : omap String (oset String)) (st' : chain_state)
  (N : String) (F_N ac : EmpiricalFormula) (x : String) :
  newFormula (str "H2O") = Returns water ->
  mc_wf mc ->
  extension_round fuel targets actual all mc = Returns st' ->
  In (N, F_N) targets -> In ac actual -> In x (ambiguities mc (toString ac)) ->
  In (N ++ x) (ambiguities (cs_mc st') (toString (extend_formula water F_N ac))).
Proof.
  intros Hw Hwf Hrun HN Hac Hx. unfold extension_round in Hrun.
  refine (proj2 (@foldM_establish _ _
            (fun s => grows mc (cs_mc s))
            (fun s => In (N ++ x)
                        (ambiguities (cs_mc s)
                           (toString (extend_formula water F_N ac))))
            _ _ (N, F_N) ([], all, mc) st' HN (grows_refl Hwf) Hrun _ _ _)).
  - intros s b s' Hg Hf. apply (grows_trans Hg).
    exact (extend_by_nucleotide_grows _ _ _ _ (proj1 Hg) Hf).
  - intros s s' Hg Hf.
    eapply extend_by_nucleotide_propagates;
      [exact Hw | exact (proj1 Hg) | exact Hf | exact Hac | now apply Hg].
  - intros s b s' Hg HQ Hf.
    apply (extend_by_nucleotide_grows _ _ _ _ (proj1 Hg) Hf). exact HQ.
Qed.

End ChainExtension.

Lemma bind_assoc {A B C} (c : outcome A) (f : A -> outcome B) (g : B -> outcome C) :
  bind (bind c f) g = bind c (fun a => bind (f a) g).
Proof. destruct c; reflexivity. Qed.

Section ChainRounds.
Context `{FormulaLibrary}.

(** Running [k + j] rounds is running [k] rounds and then [j] more. *)
Lemma extension_rounds_split (fuel k j : nat)
  (targets : omap String EmpiricalFormula) (actual all : list EmpiricalFormula)
  (mc : omap String (oset String)) :
  extension_rounds fuel (k + j) targets actual all mc
  = bind (extension_rounds fuel k targets actual all mc)
      (fun st => extension_rounds fuel j targets (cs_new st) (cs_all st) (cs_mc st)).
Proof.
  revert actual all mc. induction k as [|k IH]; intros actual all mc; simpl.
  - reflexivity.
  - rewrite bind_assoc. destruct (extension_round _ _ _ _ _) as [[[new all'] mc']| | |];
      simpl; try reflexivity.
    apply IH.
Qed.

Lemma extension_rounds_grows (fuel k : nat)
  (targets : omap String EmpiricalFormula) (actual all : list EmpiricalFormula)
  (mc : omap String (oset String)) (st' : chain_state) :
  mc_wf mc -> extension_rounds fuel k targets actual all mc = Returns st' ->
  grows mc (cs_mc st').
Proof.
  revert actual all mc. induction k as [|k IH]; intros actual all mc Hwf; simpl.
  - intros [= <-]. now apply grows_refl.
  - intros Hrun. inv_bind Hrun. destruct r as [[new all'] mc'].
    pose proof (extension_round_grows _ _ _ _ Hwf E) as Hg.
    exact (grows_trans Hg (IH _ _ _ (proj1 Hg) Hrun)).
Qed.

Lemma level_shift (water : EmpiricalFormula) (targets : omap String EmpiricalFormula)
  (actual : list EmpiricalFormula) (k : nat) :
  level water targets (extended water targets actual) k
  = level water targets actual (S k).
Proof.
  induction k as [|k IH]; simpl; [reflexivity|]. now rewrite IH.
Qed.

Lemma extension_rounds_lists (fuel k : nat) (water : EmpiricalFormula)
  (targets : omap String EmpiricalFormula) (actual all : list EmpiricalFormula)
  (mc : omap String (oset String)) (st' : chain_state) :
  newFormula (str "H2O") = Returns water ->
  extension_rounds fuel k targets actual all mc = Returns st' ->
  cs_new st' = level water targets actual k /\
  cs_all st' = all ++ flat_map (level water targets actual) (seq 1 k).
Proof.
  intros Hw. revert actual all mc. induction k as [|k IH]; intros actual all mc.
  - simpl. intros [= <-]. unfold cs_new, cs_all. simpl. now rewrite app_nil_r.
  - cbn [extension_rounds]. intros Hrun. inv_bind Hrun.
    destruct r as [[new all'] mc'].
    destruct (extension_round_lists _ _ _ _ _ Hw E) as [Hn Ha].
    unfold cs_new, cs_all in Hn, Ha. simpl in Hn, Ha. subst new all'.
    destruct (IH _ _ _ Hrun) as [Hn' Ha']. split.
    + now rewrite Hn', level_shift.
    + rewrite Ha', <- app_assoc. f_equal.
      change (seq 1 (S k)) with (1 :: seq 2 k). cbn [flat_map].
      change (level water targets actual 1) with (extended water targets actual).
      f_equal. rewrite <- (seq_shift k 1), !flat_map_concat_map, map_map.
      f_equal. apply map_ext. intros i. apply level_shift.
Qed.

End ChainRounds.

(* ===================================================================== *)
(** ** Termination of the chain extension *)
(* ===================================================================== *)

(** A loop body with an iteration budget: a larger budget changes no result. *)
Definition fuel_monotone {A S} (f : nat -> S -> A -> outcome S) : Prop :=
  forall n n' s a s', n <= n' -> f n s a = Returns s' -> f n' s a = Returns s'.

Lemma foldM_fuel_monotone {A S} (f : nat -> S -> A -> outcome S) (l : list A) :
  fuel_monotone f -> fuel_monotone (fun n s (_ : unit) => foldM (f n) l s).
Proof.
  intros Hf n n' s _ s' Hle. revert s.
  induction l as [|a l IH]; intros s; simpl; [trivial|].
  intros Hrun. inv_bind Hrun. rewrite (Hf _ _ _ _ _ Hle E). simpl. now apply IH.
Qed.

Lemma foldM_enough_fuel {A S} (I : S -> Prop) (f : nat -> S -> A -> outcome S)
  (l : list A) (s : S) :
  fuel_monotone f ->
  (forall s a, In a l -> I s -> exists n s', f n s a = Returns s' /\ I s') ->
  I s -> exists n s', foldM (f n) l s = Returns s' /\ I s'.
Proof.
  intros Hmono. revert s. induction l as [|a l IH]; intros s Hstep Hs.
  - exists 0, s. now split.
  - destruct (Hstep s a (or_introl eq_refl) Hs) as (n1 & s1 & E1 & Hs1).
    destruct (IH s1) as (n2 & s2 & E2 & Hs2); [|assumption|].
    { intros s0 b Hb. apply Hstep. now right. }
    exists (Nat.max n1 n2), s2. split; [|assumption]. simpl.
    rewrite (Hmono n1 (Nat.max n1 n2) _ _ _ (Nat.le_max_l _ _) E1). simpl.
    exact (@foldM_fuel_monotone _ _ f l Hmono n2 (Nat.max n1 n2) s1 tt s2
             (Nat.le_max_r _ _) E2).
Qed.

Section Termination.
Context `{FormulaLibrary}.

Lemma extend_ambiguities_mono (fuel fuel' : nat) (t src dst : String)
  (it : option String) (mc mc' : omap String (oset String)) :
  fuel <= fuel' ->
  extend_ambiguities fuel t src dst it mc = Returns mc' ->
  extend_ambiguities fuel' t src dst it mc = Returns mc'.
Proof.
  revert fuel' it mc.
  induction fuel as [|fuel IH]; intros fuel' [y|] mc Hle Hrun; simpl in Hrun.
  - discriminate.
  - destruct fuel'; exact Hrun.
  - destruct fuel' as [|fuel']; [lia|]. simpl. apply IH; [lia | exact Hrun].
  - destruct fuel'; exact Hrun.
Qed.

(** When the strings are inserted under another formula than the one
    whose ambiguities are read, the loop ends after one step per string. *)
Lemma extend_ambiguities_total (t src dst : String) (post : oset String) :
  dst <> src ->
  forall (fuel : nat) (pre : oset String) (mc : omap String (oset String)),
    mc_wf mc -> ambiguities mc src = pre ++ post -> length post <= fuel ->
    exists mc', extend_ambiguities fuel t src dst (hd_error post) mc = Returns mc'.
Proof.
  intros Hne. induction post as [|y post IH]; intros fuel pre mc Hwf Hs Hlen.
  - exists mc. destruct fuel; reflexivity.
  - destruct fuel as [|fuel]; [simpl in Hlen; lia|].
    cbn [extend_ambiguities hd_error].
    assert (ambiguities (map_set_insert dst (t ++ y) mc) src = pre ++ y :: post)
      as Hsame.
    { unfold ambiguities, map_set_insert.
      rewrite map_get_upsert_other by congruence. exact Hs. }
    match goal with |- context [set_next ?s y] =>
      replace (set_next s y) with (hd_error post)
    end.
    + apply (IH fuel (pre ++ [y])).
      * now apply mc_wf_insert.
      * rewrite Hsame. now rewrite <- app_assoc.
      * simpl in Hlen. lia.
    + symmetry. transitivity (set_next (pre ++ y :: post) y).
      * f_equal. exact Hsame.
      * apply set_next_suffix. rewrite <- Hs. now apply ambiguities_sorted.
Qed.

Lemma extend_combination_mono (N : String) (F_N : EmpiricalFormula) :
  fuel_monotone (fun fuel st ac => extend_combination fuel N F_N st ac).
Proof.
  intros n n' [[new all] mc] ac st' Hle. unfold extend_combination.
  intros Hrun. inv_bind Hrun. rewrite E. simpl. inv_bind Hrun.
  now rewrite (extend_ambiguities_mono _ _ _ _ _ Hle E0).
Qed.

Lemma extend_by_nucleotide_mono (actual : list EmpiricalFormula) :
  fuel_monotone (fun fuel st e => extend_by_nucleotide fuel actual st e).
Proof.
  intros n n' st e st' Hle Hrun. unfold extend_by_nucleotide in *.
  exact (@foldM_fuel_monotone _ _ _ actual
           (extend_combination_mono (fst e) (snd e)) n n' st tt st' Hle Hrun).
Qed.

Lemma extension_round_mono (fuel fuel' : nat)
  (targets : omap String EmpiricalFormula) (actual all : list EmpiricalFormula)
  (mc : omap String (oset String)) (st' : chain_state) :
  fuel <= fuel' ->
  extension_round fuel targets actual all mc = Returns st' ->
  extension_round fuel' targets actual all mc = Returns st'.
Proof.
  intros Hle Hrun. unfold extension_round in *.
  exact (@foldM_fuel_monotone _ _ _ targets (extend_by_nucleotide_mono actual)
           fuel fuel' _ tt st' Hle Hrun).
Qed.

Lemma extension_rounds_mono (fuel fuel' k : nat)
  (targets : omap String EmpiricalFormula) (actual all : list EmpiricalFormula)
  (mc : omap String (oset String)) (st' : chain_state) :
  fuel <= fuel' ->
  extension_rounds fuel k targets actual all mc = Returns st' ->
  extension_rounds fuel' k targets actual all mc = Returns st'.
Proof.
  intros Hle. revert actual all mc. induction k as [|k IH]; intros actual all mc;
    simpl; [trivial|].
  intros Hrun. inv_bind Hrun. rewrite (extension_round_mono _ _ _ _ Hle E).
  simpl. destruct r as [[new all'] mc']. now apply IH.
Qed.

(** Putting a nucleotide in front changes the string of a formula. *)
Definition extension_changes_formula (water : EmpiricalFormula)
  (targets : omap String EmpiricalFormula) : Prop :=
  forall N F_N ac, In (N, F_N) targets ->
                   toString (extend_formula water F_N ac) <> toString ac.

Lemma extend_combination_total (water : EmpiricalFormula) (N : String)
  (F_N : EmpiricalFormula) (st : chain_state) (ac : EmpiricalFormula) :
  newFormula (str "H2O") = Returns water ->
  toString (extend_formula water F_N ac) <> toString ac ->
  mc_wf (cs_mc st) ->
  exists fuel st', extend_combination fuel N F_N st ac = Returns st' /\
                   mc_wf (cs_mc st').
Proof.
  intros Hw Hne Hwf. destruct st as [[new all] mc]. unfold cs_mc in Hwf.
  simpl in Hwf.
  pose proof (mc_wf_touch (toString ac) Hwf) as Hwf'.
  destruct (@extend_ambiguities_total N (toString ac)
              (toString (extend_formula water F_N ac))
              (ambiguities (map_touch [] (toString ac) mc) (toString ac)) Hne
              (length (ambiguities (map_touch [] (toString ac) mc) (toString ac)))
              [] _ Hwf' eq_refl (le_n _)) as (mc' & Hrun).
  exists (length (ambiguities (map_touch [] (toString ac) mc) (toString ac))).
  exists (new ++ [extend_formula water F_N ac],
          all ++ [extend_formula water F_N ac], mc').
  assert (extend_combination
            (length (ambiguities (map_touch [] (toString ac) mc) (toString ac)))
            N F_N (new, all, mc) ac
          = Returns (new ++ [extend_formula water F_N ac],
                     all ++ [extend_formula water F_N ac], mc')) as Hstep.
  { unfold extend_combination. rewrite Hw. cbn [bind].
    match goal with |- bind ?c ?k = _ =>
      replace c with (Returns mc') by (symmetry; exact Hrun)
    end.
    reflexivity. }
  split; [exact Hstep|].
  exact (proj1 (@extend_combination_grows _ _ N F_N (new, all, mc) ac _
                  Hwf Hstep)).
Qed.

Lemma extension_round_total (water : EmpiricalFormula)
  (targets : omap String EmpiricalFormula) (actual all : list EmpiricalFormula)
  (mc : omap String (oset String)) :
  newFormula (str "H2O") = Returns water ->
  extension_changes_formula water targets ->
  mc_wf mc ->
  exists fuel st', extension_round fuel targets actual all mc = Returns st' /\
                   mc_wf (cs_mc st').
Proof.
  intros Hw Hch Hwf. unfold extension_round.
  apply (@foldM_enough_fuel _ _ (fun st => mc_wf (cs_mc st))
           (fun fuel st e => extend_by_nucleotide fuel actual st e)
           targets ([], all, mc));
    [apply extend_by_nucleotide_mono | | exact Hwf].
  intros st [N F_N] HN Hst. unfold extend_by_nucleotide. simpl.
  apply (@foldM_enough_fuel _ _ (fun st => mc_wf (cs_mc st))
           (fun fuel st ac => extend_combination fuel N F_N st ac) actual st);
    [apply extend_combination_mono | | exact Hst].
  intros st0 ac _ Hst0.
  eapply extend_combination_total;
    [exact Hw | exact (Hch N F_N ac HN) | exact Hst0].
Qed.

Lemma extension_rounds_total (water : EmpiricalFormula) (k : nat)
  (targets : omap String EmpiricalFormula) (actual all : list EmpiricalFormula)
  (mc : omap String (oset String)) :
  newFormula (str "H2O") = Returns water ->
  extension_changes_formula water targets ->
  mc_wf mc ->
  exists fuel st', extension_rounds fuel k targets actual all mc = Returns st'.
Proof.
  intros Hw Hch. revert actual all mc.
  induction k as [|k IH]; intros actual all mc Hwf.
  - exists 0. simpl. eauto.
  - destruct (@extension_round_total water targets actual all mc Hw Hch Hwf)
      as (n1 & [[new all'] mc'] & E1 & Hwf1).
    destruct (IH new all' mc' Hwf1) as (n2 & st2 & E2).
    exists (Nat.max n1 n2), st2. simpl.
    rewrite (extension_round_mono _ _ _ _ (Nat.le_max_l n1 n2) E1). simpl.
    exact (extension_rounds_mono _ _ _ _ _ (Nat.le_max_r n1 n2) E2).
Qed.

End Termination.

Section ChainTheorem.
Context `{FormulaLibrary}.

Lemma In_extended (water : EmpiricalFormula) (targets : omap String EmpiricalFormula)
  (actual : list EmpiricalFormula) (N : String) (F_N F : EmpiricalFormula) :
  In (N, F_N) targets -> In F actual ->
  In (extend_formula water F_N F) (extended water targets actual).
Proof.
  intros HN HF. unfold extended. apply in_flat_map. exists (N, F_N).
  split; [assumption|]. simpl. now apply in_map.
Qed.

Lemma chain_extension_Returns (fuel : nat) (max_length : Z)
  (targets : omap String EmpiricalFormula) (actual : list EmpiricalFormula)
  (mc : omap String (oset String)) (all_f : list EmpiricalFormula)
  (mc_f : omap String (oset String)) :
  chain_extension fuel max_length targets actual mc = Returns (all_f, mc_f) ->
  exists new_f,
    extension_rounds fuel (Z.to_nat (max_length - 1)) targets actual actual mc
    = Returns (new_f, all_f, mc_f).
Proof.
  unfold chain_extension. intros Hrun. inv_bind Hrun.
  destruct r as [[new_f all'] mc']. injection Hrun as <- <-. now exists new_f.
Qed.

(** X16: when it returns, the chain extension has run [max_length - 1] rounds (none when
    [max_length < 1]): the combinations at the end are those of the levels
    [0] to [max_length - 1]. In round [k], for every target nucleotide [N]
    with formula [F_N] and every combination [F] of the round before, the
    formula [F_N + F - H2O] is a new combination, and its ambiguities at
    the end contain [N] put in front of every ambiguity recorded for [F]
    when the round starts. When putting a nucleotide in front changes the
    string of a formula, the extension returns for every large enough
    iteration budget. *)
Theorem chain_extension_rounds
  (fuel : nat) (max_length : Z) (targets : omap String EmpiricalFormula)
  (mods : omap String NucleotideModifications) (water : EmpiricalFormula) :
  let actual := fst (single_nucleotides targets mods) in
  let mc := snd (single_nucleotides targets mods) in
  let rounds := Z.to_nat (max_length - 1) in
  newFormula (str "H2O") = Returns water ->
  (forall all_f mc_f,
      chain_extension fuel max_length targets actual mc = Returns (all_f, mc_f) ->
      all_f = flat_map (level water targets actual) (seq 0 (S rounds)) /\
      forall k N F_N F s,
        k < rounds -> In (N, F_N) targets ->
        In F (level water targets actual k) ->
        exists all_k mc_k,
          extension_rounds fuel k targets actual actual mc
          = Returns (level water targets actual k, all_k, mc_k) /\
          In (extend_formula water F_N F) (level water targets actual (S k)) /\
          In (extend_formula water F_N F) all_f /\
          (In s (ambiguities mc_k (toString F)) ->
           In (N ++ s)
             (ambiguities mc_f (toString (extend_formula water F_N F)))))
  /\ (extension_changes_formula water targets ->
      exists fuel0, forall fuel', fuel0 <= fuel' ->
        exists all_f mc_f,
          chain_extension fuel' max_length targets actual mc
          = Returns (all_f, mc_f)).
Proof.
  intros actual mc rounds Hw.
  assert (mc_wf mc) as Hwf by apply single_nucleotides_wf.
  split.
  - intros all_f mc_f Hrun.
    apply chain_extension_Returns in Hrun. destruct Hrun as (new_f & Hrun).
    fold rounds in Hrun.
    assert (all_f = flat_map (level water targets actual) (seq 0 (S rounds)))
      as Hall.
    { edestruct extension_rounds_lists as [_ Hall]; [exact Hw | exact Hrun |].
      exact Hall. }
    split; [exact Hall|].
    intros k N F_N F s Hk HN HF.
    replace rounds with (k + S (rounds - S k)) in Hrun by lia.
    rewrite extension_rounds_split in Hrun. inv_bind Hrun.
    rename r into st_k.
    assert (cs_new st_k = level water targets actual k) as Hnew_k.
    { edestruct extension_rounds_lists as [Hn _]; [exact Hw | exact E |].
      exact Hn. }
    assert (grows mc (cs_mc st_k)) as Hg_k.
    { eapply extension_rounds_grows; [exact Hwf | exact E]. }
    destruct st_k as [[new_k all_k] mc_k]. unfold cs_new, cs_all, cs_mc in *.
    simpl in Hnew_k, Hg_k, Hrun. subst new_k.
    exists all_k, mc_k. split; [exact E|].
    assert (In (extend_formula water F_N F) (level water targets actual (S k)))
      as Hin by (simpl; now apply (In_extended water targets _ N)).
    split; [exact Hin|]. split.
    { rewrite Hall. apply in_flat_map. exists (S k). split; [|exact Hin].
      apply in_seq. lia. }
    intros Hs. inv_bind Hrun. rename r into st_k1.
    assert (grows mc_k (cs_mc st_k1)) as Hg1.
    { eapply extension_round_grows; [exact (proj1 Hg_k) | exact E0]. }
    assert (In (N ++ s)
              (ambiguities (cs_mc st_k1)
                 (toString (extend_formula water F_N F)))) as Hprop.
    { eapply extension_round_propagates;
        [exact Hw | exact (proj1 Hg_k) | exact E0 | exact HN | exact HF
        | exact Hs]. }
    destruct st_k1 as [[new1 all1] mc1]. unfold cs_mc in *. simpl in *.
    assert (grows mc1 mc_f) as Hg_f.
    { eapply (@extension_rounds_grows _ fuel (rounds - S k) targets new1 all1 mc1
                (new_f, all_f, mc_f)); [exact (proj1 Hg1) | exact Hrun]. }
    apply Hg_f. exact Hprop.
  - intros Hch.
    destruct (@extension_rounds_total _ water rounds targets actual actual mc
                Hw Hch Hwf) as (fuel0 & [[new_f all_f] mc_f] & Hrun).
    exists fuel0. intros fuel' Hle. exists all_f, mc_f.
    unfold chain_extension. fold rounds.
    assert (extension_rounds fuel' rounds targets actual actual mc
            = Returns (new_f, all_f, mc_f)) as Hrun'.
    { eapply extension_rounds_mono; [exact Hle | exact Hrun]. }
    now rewrite Hrun'.
Qed.

End ChainTheorem.

Module ChainScenario.
Import SimpleFormulas.

(** The parsed configuration of the scenario with the modifications ["A:"]
    and ["U:"] *)
Definition targets : omap String formula :=
  [(str "A", Scenario.formula_A); (str "U", Scenario.formula_U)].

Definition mods : omap String NucleotideModifications :=
  [(str "A", [[]]); (str "U", [[]])].

Definition chain : outcome (list formula * omap String (oset String)) :=
  Eval vm_compute in
    chain_extension 8 2 targets
      (fst (single_nucleotides targets mods)) (snd (single_nucleotides targets mods)).

Definition all_combinations : list formula :=
  match chain with Returns (all, _) => all | _ => [] end.

Definition mod_combinations : omap String (oset String) :=
  match chain with Returns (_, mc) => mc | _ => [] end.

End ChainScenario.

(** In the scenario one round runs; ["AU"] is recorded for the
    condensation product of [A] and [U], from ["U"] recorded for [U]. *)
Lemma chain_extension_rounds_witness :
  ChainScenario.all_combinations
  = flat_map
      (level (H := SimpleFormulas.library) Scenario.water ChainScenario.targets
         (fst (single_nucleotides (H := SimpleFormulas.library)
                 ChainScenario.targets ChainScenario.mods)))
      (seq 0 2)
  /\ In (str "AU")
       (ambiguities ChainScenario.mod_combinations
          (SimpleFormulas.to_string Scenario.formula_AU)).
Proof.
  destruct (@chain_extension_rounds SimpleFormulas.library 8 2
              ChainScenario.targets ChainScenario.mods Scenario.water eq_refl)
    as [Hrun _].
  destruct (Hrun ChainScenario.all_combinations ChainScenario.mod_combinations
              eq_refl) as [Hall Hround].
  split; [exact Hall|].
  destruct (Hround 0 (str "A") Scenario.formula_A Scenario.formula_U (str "U"))
    as (all_k & mc_k & Hk & _ & _ & Hprop).
  - simpl. lia.
  - now left.
  - right. now left.
  - apply Hprop. simpl in Hk. injection Hk as _ <-. now left.
Defined.

(* ===================================================================== *)
(** ** The keys of the two maps *)
(* ===================================================================== *)

Section Keys.
Context `{FormulaLibrary}.

Lemma keys_generated_insert (all : list EmpiricalFormula)
  (mc : omap String (oset String)) (c : EmpiricalFormula) (x : String) :
  keys_generated all mc ->
  keys_generated (all ++ [c]) (map_set_insert (toString c) x mc).
Proof.
  intros Hk k Hin. apply map_keys_upsert in Hin. destruct Hin as [-> | Hin].
  - exists c. split; [apply in_or_app; right; now left | reflexivity].
  - destruct (Hk k Hin) as (c' & Hc' & E). exists c'.
    split; [apply in_or_app; now left | assumption].
Qed.

Lemma single_nucleotides_keys (targets : omap String EmpiricalFormula)
  (mods : omap String NucleotideModifications) :
  keys_generated (fst (single_nucleotides targets mods))
    (snd (single_nucleotides targets mods)).
Proof.
  unfold single_nucleotides.
  apply (fold_left_invariant (fun st => keys_generated (fst st) (snd st))).
  - intros st e _ Hst. unfold add_target_nucleotide.
    apply (fold_left_invariant (fun st => keys_generated (fst st) (snd st)));
      [|assumption].
    intros st0 nt_mod _ Hst0. rewrite add_modified_nucleotide_eq. simpl.
    now apply keys_generated_insert.
  - intros k [].
Qed.

(** The invariant of the chain extension: the keys are strings of
    combinations, and the combinations being extended are recorded. *)
Definition chain_inv (actual : list EmpiricalFormula) (st : chain_state) : Prop :=
  mc_wf (cs_mc st) /\ keys_generated (cs_all st) (cs_mc st) /\
  incl actual (cs_all st) /\ incl (cs_new st) (cs_all st).

Lemma extend_combination_inv (fuel : nat) (N : String) (F_N : EmpiricalFormula)
  (actual : list EmpiricalFormula) (st st' : chain_state) (ac : EmpiricalFormula) :
  In ac actual -> chain_inv actual st ->
  extend_combination fuel N F_N st ac = Returns st' -> chain_inv actual st'.
Proof.
  intros Hac (Hwf & Hkeys & Hactual & Hnew) Hrun.
  destruct (extend_combination_spec _ _ _ _ _ Hwf Hrun)
    as (water & _ & Hn & Ha & Hg & _ & Hk).
  split; [exact (proj1 Hg)|]. split; [|split].
  - intros k Hin. rewrite Ha. destruct (Hk k Hin) as [-> | [-> | Hin']].
    + eexists. split; [apply in_or_app; right; now left | reflexivity].
    + exists ac. split; [apply in_or_app; left; now apply Hactual | reflexivity].
    + destruct (Hkeys k Hin') as (c & Hc & E). exists c.
      split; [apply in_or_app; now left | assumption].
  - rewrite Ha. intros c Hc. apply in_or_app. left. now apply Hactual.
  - rewrite Hn, Ha. intros c Hc. apply in_app_or in Hc. apply in_or_app.
    destruct Hc as [Hc | Hc]; [left; now apply Hnew | now right].
Qed.

Lemma extension_round_inv (fuel : nat) (targets : omap String EmpiricalFormula)
  (actual all : list EmpiricalFormula) (mc : omap String (oset String))
  (st' : chain_state) :
  mc_wf mc -> keys_generated all mc -> incl actual all ->
  extension_round fuel targets actual all mc = Returns st' ->
  chain_inv actual st'.
Proof.
  intros Hwf Hkeys Hactual Hrun. unfold extension_round in Hrun.
  eapply (@foldM_invariant _ _ (chain_inv actual)); [| |exact Hrun].
  - intros st e st1 _ Hst Hstep. unfold extend_by_nucleotide in Hstep.
    eapply (@foldM_invariant _ _ (chain_inv actual)); [|exact Hst|exact Hstep].
    intros st0 ac st2 Hac Hst0 Hstep0.
    eapply extend_combination_inv; [exact Hac | exact Hst0 | exact Hstep0].
  - split; [exact Hwf|]. split; [exact Hkeys|]. split; [exact Hactual|].
    intros c [].
Qed.

Lemma extension_rounds_inv (fuel k : nat) (targets : omap String EmpiricalFormula)
  (actual all : list EmpiricalFormula) (mc : omap String (oset String))
  (st' : chain_state) :
  mc_wf mc -> keys_generated all mc -> incl actual all ->
  extension_rounds fuel k targets actual all mc = Returns st' ->
  mc_wf (cs_mc st') /\ keys_generated (cs_all st') (cs_mc st').
Proof.
  revert actual all mc. induction k as [|k IH]; intros actual all mc Hwf Hkeys Hincl;
    simpl.
  - intros [= <-]. now split.
  - intros Hrun. inv_bind Hrun. destruct r as [[new all'] mc'].
    assert (chain_inv actual (new, all', mc')) as (Hwf' & Hkeys' & _ & Hnew').
    { eapply extension_round_inv;
        [exact Hwf | exact Hkeys | exact Hincl | exact E]. }
    exact (IH _ _ _ Hwf' Hkeys' Hnew' Hrun).
Qed.

(** After the generation every key of [result.mod_combinations] is the
    string of a generated combination. *)
Lemma chain_extension_inv (fuel : nat) (max_length : Z)
  (targets : omap String EmpiricalFormula)
  (mods : omap String NucleotideModifications)
  (all : list EmpiricalFormula) (mc : omap String (oset String)) :
  chain_extension fuel max_length targets
    (fst (single_nucleotides targets mods)) (snd (single_nucleotides targets mods))
  = Returns (all, mc) ->
  mc_wf mc /\ keys_generated all mc.
Proof.
  intros Hrun. apply chain_extension_Returns in Hrun.
  destruct Hrun as (new_f & Hrun).
  change (mc_wf (cs_mc (new_f, all, mc)) /\
          keys_generated (cs_all (new_f, all, mc)) (cs_mc (new_f, all, mc))).
  eapply extension_rounds_inv;
    [apply single_nucleotides_wf | apply single_nucleotides_keys
    | apply incl_refl | exact Hrun].
Qed.

(** Lines 331-334: the keys of [result.formula2mass] are the strings of
    the combinations. *)
Lemma fill_formula2mass_keys (all : list EmpiricalFormula) :
  map_sorted (fill_formula2mass all) /\
  forall k, In k (map_keys (fill_formula2mass all)) <->
            exists c, In c all /\ toString c = k.
Proof.
  unfold fill_formula2mass.
  assert (forall f2m,
             map_sorted f2m ->
             map_sorted
               (fold_left (fun f2m c => map_set (toString c) (getMonoWeight c) f2m)
                  all f2m) /\
             forall k,
               In k (map_keys
                       (fold_left
                          (fun f2m c => map_set (toString c) (getMonoWeight c) f2m)
                          all f2m)) <->
               In k (map_keys f2m) \/ exists c, In c all /\ toString c = k) as Hgen.
  { induction all as [|c all IH]; intros f2m Hs; simpl.
    - split; [assumption|]. intros k. split; [now left|].
      intros [Hk | (c & [] & _)]. exact Hk.
    - destruct (IH (map_set (toString c) (getMonoWeight c) f2m)) as [Hs' Hk'].
      { now apply map_upsert_sorted. }
      split; [assumption|]. intros k. rewrite Hk'. unfold map_set.
      rewrite map_keys_upsert. split.
      + intros [[-> | Hk] | (c' & Hc' & E)].
        * right. exists c. split; [now left | reflexivity].
        * now left.
        * right. exists c'. split; [now right | assumption].
      + intros [Hk | (c' & [<- | Hc'] & E)].
        * left. now right.
        * left. left. now symmetry.
        * right. now exists c'. }
  destruct (Hgen [] I) as [Hs Hk]. split; [assumption|].
  intros k. rewrite Hk. simpl. tauto.
Qed.

End Keys.

(* ===================================================================== *)
(** ** The restriction filter (lines 348-440) *)
(* ===================================================================== *)

Section FilterFacts.
Context `{FormulaLibrary}.
Variable nt_groups : list String.
Variable can_xl : oset ascii.
Variable max_length : Z.
Variable target_sequences : list String.

(** An entry of the iteration: formula, mass and ambiguity *)
Definition filter_item : Type := String * Mass * String.

Definition item_formula (i : filter_item) : String := fst (fst i).
Definition item_mass (i : filter_item) : Mass := snd (fst i).
Definition item_string (i : filter_item) : String := snd i.

(** The (sorted composition, mass) pair of an entry *)
Definition item_key (i : filter_item) : String * Mass :=
  (nucleotide_composition (item_string i), item_mass i).

(** The entries in iteration order: the formulas in key order, the
    ambiguities of each in set order *)
Definition filter_items (f2m : omap String Mass) (mc : omap String (oset String))
  : list filter_item :=
  flat_map (fun e => map (fun s => (fst e, snd e, s)) (ambiguities mc (fst e))) f2m.

Definition filter_step (st : filter_state) (i : filter_item) : filter_state :=
  filter_ambiguity nt_groups can_xl max_length target_sequences
    (item_formula i) (item_mass i) st (item_string i).

(** The filter state after the entries [items] *)
Definition filter_run (items : list filter_item) : filter_state :=
  fold_left filter_step items ([], []).

(** Rules 2 to 5: lines 373-410, each followed by [continue] *)
Definition passes_basic (composition : String) : bool :=
  negb (2 <=? count_lower composition)
  && has_xl_nt can_xl composition
  && negb (Z.of_nat (length composition) >? max_length)%Z
  && negb (1 <? found_in_n_groups nt_groups composition).

(** An entry is accepted: none of the seven rules rejects it. *)
Definition accepted (unique : list (String * Mass)) (i : filter_item) : bool :=
  passes_basic (nucleotide_composition (item_string i))
  && negb (containment_violated target_sequences
             (nucleotide_composition (item_string i)))
  && negb (already_added unique (item_key i)).

Lemma filter_step_rejected (st : filter_state) (i : filter_item) :
  passes_basic (nucleotide_composition (item_string i)) = false ->
  filter_step st i = (fst st, snd st ++ [(item_formula i, item_string i)]).
Proof.
  unfold passes_basic, filter_step, filter_ambiguity.
  destruct st as [unique violates]. cbv beta iota zeta.
  set (c := nucleotide_composition (item_string i)).
  destruct (2 <=? count_lower c); [reflexivity|].
  destruct (has_xl_nt can_xl c); [|reflexivity].
  destruct (Z.of_nat (length c) >? max_length)%Z; [reflexivity|].
  destruct (1 <? found_in_n_groups nt_groups c); [reflexivity | discriminate].
Qed.

Lemma filter_step_recorded (st : filter_state) (i : filter_item) :
  passes_basic (nucleotide_composition (item_string i)) = true ->
  filter_step st i
  = (fst st ++ [item_key i],
     (snd st
      ++ (if containment_violated target_sequences
               (nucleotide_composition (item_string i))
          then [(item_formula i, item_string i)] else []))
     ++ (if already_added (fst st) (item_key i)
         then [(item_formula i, item_string i)] else [])).
Proof.
  unfold passes_basic, filter_step, filter_ambiguity, item_key.
  destruct st as [unique violates]. cbv beta iota zeta.
  set (c := nucleotide_composition (item_string i)).
  destruct (2 <=? count_lower c); [discriminate|].
  destruct (has_xl_nt can_xl c); [|discriminate].
  destruct (Z.of_nat (length c) >? max_length)%Z; [discriminate|].
  destruct (1 <? found_in_n_groups nt_groups c); [discriminate|]. intros _.
  cbn [fst snd].
  destruct (containment_violated target_sequences c),
    (already_added unique (c, item_mass i));
    now rewrite ?app_nil_r.
Qed.

(** The pairs in [violates_restriction] after a step: those before, and
    the pair of the entry unless it is accepted. *)
Lemma filter_step_violates (st : filter_state) (i : filter_item)
  (v : String * String) :
  In v (snd (filter_step st i)) <->
  In v (snd st) \/
  (v = (item_formula i, item_string i) /\ accepted (fst st) i = false).
Proof.
  unfold accepted.
  destruct (passes_basic (nucleotide_composition (item_string i))) eqn:Hp.
  - rewrite (filter_step_recorded st i Hp). simpl.
    destruct (containment_violated _ _), (already_added _ _); simpl;
      rewrite ?in_app_iff; simpl; intuition congruence.
  - rewrite (filter_step_rejected st i Hp). simpl.
    rewrite in_app_iff. simpl. intuition congruence.
Qed.

Lemma filter_run_snoc (items : list filter_item) (i : filter_item) :
  filter_run (items ++ [i]) = filter_step (filter_run items) i.
Proof. unfold filter_run. now rewrite fold_left_app. Qed.

(** [violates_restriction] holds the pairs of the entries not accepted. *)
Lemma filter_run_violates (items : list filter_item) (v : String * String) :
  In v (snd (filter_run items)) <->
  exists pre i post,
    items = pre ++ i :: post /\ v = (item_formula i, item_string i) /\
    accepted (fst (filter_run pre)) i = false.
Proof.
  induction items as [|i items IH] using rev_ind.
  - split; [intros [] | intros (pre & i & post & E & _)].
    now destruct pre.
  - rewrite filter_run_snoc, filter_step_violates, IH. split.
    + intros [(pre & j & post & -> & Hv & Ha) | [Hv Ha]].
      * exists pre, j, (post ++ [i]). now rewrite <- app_assoc.
      * now exists items, i, [].
    + intros (pre & j & post & E & Hv & Ha).
      destruct post as [|p post] using rev_ind.
      * apply app_inj_tail in E. destruct E as [-> ->]. now right.
      * rewrite app_comm_cons, app_assoc in E. apply app_inj_tail in E.
        destruct E as [-> ->]. left. now exists pre, j, post.
Qed.

(** A pair of the iteration that is not in [violates_restriction] passed
    rules 2 to 6. *)
Lemma filter_run_kept (items : list filter_item) (i : filter_item) :
  In i items ->
  ~ In (item_formula i, item_string i) (snd (filter_run items)) ->
  passes_basic (nucleotide_composition (item_string i)) = true /\
  containment_violated target_sequences (nucleotide_composition (item_string i))
  = false.
Proof.
  intros Hi Hn. apply in_split in Hi. destruct Hi as (pre & post & ->).
  destruct (accepted (fst (filter_run pre)) i) eqn:Ha.
  - unfold accepted in Ha. apply andb_true_iff in Ha. destruct Ha as [Ha _].
    apply andb_true_iff in Ha. destruct Ha as [Hp Hc].
    split; [assumption|]. now apply negb_true_iff.
  - exfalso. apply Hn. apply filter_run_violates. now exists pre, i, post.
Qed.

End FilterFacts.

Section Assembly.
Context `{FormulaLibrary}.

(** The entries that [result.mod_combinations[formula]] creates during
    the filter loop *)
Definition touch_all (f2m : omap String Mass) (mc : omap String (oset String))
  : omap String (oset String) :=
  fold_left (fun mc e => map_touch [] (fst e) mc) f2m mc.

Lemma touch_all_spec (f2m : omap String Mass) (mc : omap String (oset String)) :
  mc_wf mc ->
  mc_wf (touch_all f2m mc) /\
  (forall k, ambiguities (touch_all f2m mc) k = ambiguities mc k) /\
  (forall k, In k (map_keys (touch_all f2m mc)) <->
             In k (map_keys mc) \/ In k (map_keys f2m)).
Proof.
  unfold touch_all. revert mc. induction f2m as [|e f2m IH]; intros mc Hwf; simpl.
  - split; [assumption|]. split; [reflexivity | tauto].
  - destruct (IH _ (mc_wf_touch (fst e) Hwf)) as (Hwf' & Hamb & Hkeys).
    split; [assumption|]. split.
    + intros k. rewrite Hamb. now apply ambiguities_touch.
    + intros k. rewrite Hkeys. unfold map_touch. rewrite map_keys_upsert.
      intuition.
Qed.

Lemma fold_left_map {A B S} (g : S -> B -> S) (h : A -> B) (l : list A) (s : S) :
  fold_left g (map h l) s = fold_left (fun s a => g s (h a)) l s.
Proof. revert s. induction l as [|a l IH]; intros s; simpl; auto. Qed.

Lemma filter_items_ext (f2m : omap String Mass) (mc mc' : omap String (oset String)) :
  (forall k, ambiguities mc' k = ambiguities mc k) ->
  filter_items f2m mc' = filter_items f2m mc.
Proof.
  intros Hamb. unfold filter_items. rewrite !flat_map_concat_map. f_equal.
  apply map_ext. intros e. now rewrite Hamb.
Qed.

(** The filter is one loop over the entries of the iteration. *)
Lemma restriction_filter_flat (nt_groups : list String) (can_xl : oset ascii)
  (max_length : Z) (target_sequences : list String)
  (f2m : omap String Mass) (mc : omap String (oset String)) :
  mc_wf mc ->
  restriction_filter nt_groups can_xl max_length target_sequences f2m mc
  = (touch_all f2m mc,
     filter_run nt_groups can_xl max_length target_sequences (filter_items f2m mc)).
Proof.
  unfold restriction_filter, filter_run. generalize (@nil (String * Mass),
                                                      @nil (String * String)).
  revert mc. induction f2m as [|e f2m IH]; intros mc st Hwf.
  - reflexivity.
  - cbn [fold_left]. unfold filter_formula at 2. cbv beta iota zeta.
    rewrite (IH _ _ (mc_wf_touch (fst e) Hwf)).
    unfold touch_all. cbn [fold_left]. f_equal.
    rewrite (filter_items_ext f2m mc (map_touch [] (fst e) mc)
               (fun k => ambiguities_touch (fst e) k Hwf)).
    unfold filter_items at 2. cbn [flat_map]. rewrite fold_left_app. f_equal.
    rewrite fold_left_map.
    change (map_get [] (fst e) (map_touch [] (fst e) mc))
      with (ambiguities (map_touch [] (fst e) mc) (fst e)).
    now rewrite (ambiguities_touch (fst e) (fst e) Hwf).
Qed.

Lemma filter_items_key (f2m : omap String Mass) (mc : omap String (oset String))
  (i : filter_item) :
  In i (filter_items f2m mc) ->
  In (item_formula i) (map_keys f2m) /\
  In (item_string i) (ambiguities mc (item_formula i)).
Proof.
  unfold filter_items. intros Hi. apply in_flat_map in Hi.
  destruct Hi as (e & He & Hi). apply in_map_iff in Hi.
  destruct Hi as (s & <- & Hs). unfold item_formula, item_string. simpl.
  split; [now apply in_map | assumption].
Qed.

Lemma In_filter_items (f2m : omap String Mass) (mc : omap String (oset String))
  (k s : String) :
  In k (map_keys f2m) -> In s (ambiguities mc k) ->
  exists m, In (k, m, s) (filter_items f2m mc).
Proof.
  intros Hk Hs. unfold map_keys in Hk. apply in_map_iff in Hk.
  destruct Hk as ([k' m] & <- & He). exists m. unfold filter_items.
  apply in_flat_map. exists (k', m). split; [assumption|].
  simpl. apply in_map_iff. now exists s.
Qed.

(** Lines 442-450 *)
Lemma erase_violating_spec (violates : list (String * String))
  (mc : omap String (oset String)) :
  mc_wf mc ->
  mc_wf (erase_violating violates mc) /\
  (forall k y, In y (ambiguities (erase_violating violates mc) k) <->
               In y (ambiguities mc k) /\ ~ In (k, y) violates) /\
  (forall k, In k (map_keys (erase_violating violates mc)) <->
             In k (map_keys mc) \/ In k (map fst violates)).
Proof.
  unfold erase_violating. revert mc.
  induction violates as [|v violates IH]; intros mc Hwf; simpl.
  - split; [assumption|]. split; [intros; tauto | intros; tauto].
  - destruct (IH _ (mc_wf_erase (fst v) (snd v) Hwf)) as (Hwf' & Hamb & Hkeys).
    split; [assumption|]. split.
    + intros k y. rewrite Hamb, (ambiguities_erase _ _ _ _ Hwf).
      destruct v as [vk vs]. simpl. split.
      * intros [[Hy Hne] Hn]. split; [assumption|].
        intros [[= -> ->] | Hv]; [apply Hne; now split | contradiction].
      * intros [Hy Hn]. split; [split; [assumption|] |].
        -- intros [-> ->]. apply Hn. now left.
        -- intros Hv. apply Hn. now right.
    + intros k. rewrite Hkeys. unfold map_set_erase. rewrite map_keys_upsert.
      intuition.
Qed.

Lemma is_empty_true {A} (l : list A) : is_empty l = true <-> l = [].
Proof. destruct l; simpl; split; congruence. Qed.

(** Lines 453-464 *)
Lemma erase_empty_spec (f2m : omap String Mass) (mc : omap String (oset String)) :
  map_sorted f2m ->
  (forall k, In k (map_keys (fst (erase_empty f2m mc))) <->
             In k (map_keys f2m) /\ ~ In (k, []) mc) /\
  (forall k s, In (k, s) (snd (erase_empty f2m mc)) <-> In (k, s) mc /\ s <> []).
Proof.
  intros Hs. unfold erase_empty. simpl. split.
  - revert f2m Hs. induction mc as [|e mc IH]; intros f2m Hs k; simpl.
    + tauto.
    + destruct e as [ek es]. simpl. destruct es as [|x es]; simpl.
      * rewrite (IH _ (map_erase_sorted ek f2m Hs)), (map_keys_erase ek k f2m Hs).
        split.
        -- intros [[Hk Hne] Hn]. split; [assumption|].
           intros [[= ->] | Hin]; [congruence | contradiction].
        -- intros [Hk Hn]. split; [split; [assumption|] |].
           ++ intros ->. apply Hn. now left.
           ++ intros Hin. apply Hn. now right.
      * rewrite (IH _ Hs). split.
        -- intros [Hk Hn]. split; [assumption|].
           intros [[=] | Hin]. contradiction.
        -- intros [Hk Hn]. split; [assumption|]. intros Hin. apply Hn. now right.
  - intros k s. rewrite filter_In. simpl. rewrite negb_true_iff.
    split; intros [Hin Hne]; (split; [assumption|]).
    + intros ->. discriminate.
    + destruct s; [congruence | reflexivity].
Qed.

End Assembly.

Section ResultInvariants.
Context `{FormulaLibrary}.
Variable nt_groups : list String.
Variable can_xl : oset ascii.
Variable max_length : Z.
Variable target_sequences : list String.

(** Lines 331-464: the two maps after the filter, from the combinations
    and ambiguities of the generation *)
Definition filtered (all : list EmpiricalFormula) (mc : omap String (oset String))
  : omap String Mass * omap String (oset String) :=
  let f2m := fill_formula2mass all in
  let st := restriction_filter nt_groups can_xl max_length target_sequences f2m mc in
  erase_empty f2m (erase_violating (snd (snd st)) (fst st)).

Lemma generate_and_filter_Returns (fuel : nat)
  (targets : omap String EmpiricalFormula)
  (mods : omap String NucleotideModifications)
  (cysteine_adduct : bool) (cysteine_adduct_formula : EmpiricalFormula)
  (r : NuXLModificationMassesResult) :
  generate_and_filter fuel targets mods target_sequences nt_groups can_xl
    cysteine_adduct cysteine_adduct_formula max_length = Returns r ->
  exists all mc,
    chain_extension fuel max_length targets
      (fst (single_nucleotides targets mods)) (snd (single_nucleotides targets mods))
    = Returns (all, mc) /\
    (formula2mass r, mod_combinations r)
    = add_cysteine_adduct cysteine_adduct cysteine_adduct_formula
        (fst (filtered all mc)) (snd (filtered all mc)).
Proof.
  unfold generate_and_filter, filtered.
  destruct (single_nucleotides targets mods) as [actual mc0]. cbn [fst snd].
  intros Hrun. inv_bind Hrun. destruct r0 as [all mc]. exists all, mc.
  split; [assumption|]. cbv zeta.
  destruct (restriction_filter nt_groups can_xl max_length target_sequences
              (fill_formula2mass all) mc) as [mc_t [unique violates]].
  cbn [fst snd].
  destruct (erase_empty (fill_formula2mass all) (erase_violating violates mc_t))
    as [f2m' mc'].
  cbn [fst snd].
  destruct (add_cysteine_adduct cysteine_adduct cysteine_adduct_formula f2m' mc')
    as [f2m'' mc''].
  now injection Hrun as <-.
Qed.

(** The two maps after the filter: same keys, no empty set, and every
    ambiguity left passed rules 2 to 6. *)
Lemma filtered_spec (all : list EmpiricalFormula) (mc : omap String (oset String)) :
  mc_wf mc -> keys_generated all mc ->
  mc_wf (snd (filtered all mc)) /\
  (forall k, In k (map_keys (fst (filtered all mc))) <->
             In k (map_keys (snd (filtered all mc)))) /\
  (forall k s, In (k, s) (snd (filtered all mc)) -> s <> []) /\
  (forall k y, In y (ambiguities (snd (filtered all mc)) k) ->
               passes_basic nt_groups can_xl max_length (nucleotide_composition y)
               = true /\
               containment_violated target_sequences (nucleotide_composition y)
               = false).
Proof.
  intros Hwf Hgen. unfold filtered. cbv zeta.
  destruct (fill_formula2mass_keys all) as [Hf2m_sorted Hf2m_keys].
  set (f2m := fill_formula2mass all) in *.
  rewrite (restriction_filter_flat nt_groups can_xl max_length target_sequences
             f2m Hwf). cbn [fst snd].
  destruct (touch_all_spec f2m Hwf) as (Hwf_t & Hamb_t & Hkeys_t).
  set (mc_t := touch_all f2m mc) in *.
  set (items := filter_items f2m mc).
  set (violates :=
         snd (filter_run nt_groups can_xl max_length target_sequences items)).
  destruct (erase_violating_spec violates Hwf_t) as (Hwf_e & Hamb_e & Hkeys_e).
  set (mc_e := erase_violating violates mc_t) in *.
  destruct (erase_empty_spec f2m mc_e Hf2m_sorted) as [Hkeys' Hin'].
  (* the keys of the ambiguity map are those of the mass map *)
  assert (forall k, In k (map_keys mc_e) <-> In k (map_keys f2m)) as Hsame.
  { intros k. rewrite Hkeys_e, Hkeys_t. split; [|tauto].
    intros [[Hk | Hk] | Hk]; [|assumption|].
    - apply Hf2m_keys. now apply Hgen.
    - apply in_map_iff in Hk. destruct Hk as (v & <- & Hv).
      apply filter_run_violates in Hv.
      destruct Hv as (pre & i & post & Hitems & -> & _).
      apply (filter_items_key f2m mc i). fold items. rewrite Hitems.
      apply in_or_app. right. now left. }
  assert (mc_wf (snd (erase_empty f2m mc_e))) as Hwf'.
  { split.
    - apply map_sorted_filter. exact (proj1 Hwf_e).
    - intros k s Hin. apply Hin' in Hin. exact (proj2 Hwf_e k s (proj1 Hin)). }
  split; [exact Hwf'|]. split; [|split].
  - intros k. rewrite Hkeys', <- Hsame. split.
    + intros [Hk Hn]. unfold map_keys in Hk. apply in_map_iff in Hk.
      destruct Hk as ([k' s] & <- & Hin). simpl in *.
      change k' with (fst (k', s)). apply in_map. apply Hin'.
      split; [assumption|]. intros ->. contradiction.
    + intros Hk. unfold map_keys in Hk. apply in_map_iff in Hk.
      destruct Hk as ([k' s] & <- & Hin). simpl. apply Hin' in Hin.
      destruct Hin as [Hin Hne]. split.
      * change k' with (fst (k', s)). now apply in_map.
      * intros Hempty.
        pose proof (In_map_find _ _ _ (proj1 Hwf_e) Hin) as E1.
        pose proof (In_map_find _ _ _ (proj1 Hwf_e) Hempty) as E2.
        congruence.
  - intros k s Hin. now apply Hin' in Hin.
  - intros k y Hy. apply map_get_In in Hy. destruct Hy as (s & Hin & Hy & _).
    apply Hin' in Hin. destruct Hin as [Hin _].
    assert (In y (ambiguities mc_e k)) as Hy_e.
    { pose proof (In_map_find _ _ _ (proj1 Hwf_e) Hin) as Ef.
      unfold ambiguities, map_get. case_find E.
      - pose proof (eq_trans (eq_sym E) Ef) as Es. now injection Es as ->.
      - pose proof (eq_trans (eq_sym E) Ef) as Es. discriminate Es. }
    apply Hamb_e in Hy_e. destruct Hy_e as [Hy_t Hkept].
    rewrite Hamb_t in Hy_t.
    assert (In k (map_keys f2m)) as Hk.
    { apply Hsame. change k with (fst (k, s)). now apply in_map. }
    destruct (In_filter_items f2m mc k y Hk Hy_t) as (m & Hitem).
    exact (filter_run_kept nt_groups can_xl max_length target_sequences
             items (k, m, y) Hitem Hkept).
Qed.

End ResultInvariants.

(* ===================================================================== *)
(** ** The returned result *)
(* ===================================================================== *)

Section Results.
Context `{FormulaLibrary}.

Lemma initModificationMassesNA_Returns (fuel : nat)
  (target_nucleotides nt_groups : list String) (can_xl : oset ascii)
  (mappings modifications : list String) (sequence_restriction : String)
  (cysteine_adduct : bool) (max_length : Z) (r : NuXLModificationMassesResult) :
  initModificationMassesNA fuel target_nucleotides nt_groups can_xl mappings
    modifications sequence_restriction cysteine_adduct max_length = Returns r ->
  exists cysteine_adduct_formula targets map_source_to_targets restriction mods
         all mc,
    newFormula cysteine_adduct_string = Returns cysteine_adduct_formula /\
    parse_target_nucleotides target_nucleotides = Returns targets /\
    effective_restriction mappings sequence_restriction max_length
    = Returns (map_source_to_targets, restriction) /\
    parse_modifications modifications = Returns mods /\
    chain_extension fuel max_length targets
      (fst (single_nucleotides targets mods)) (snd (single_nucleotides targets mods))
    = Returns (all, mc) /\
    (formula2mass r, mod_combinations r)
    = add_cysteine_adduct cysteine_adduct cysteine_adduct_formula
        (fst (filtered nt_groups can_xl max_length
                (generateTargetSequences restriction 0 map_source_to_targets)
                all mc))
        (snd (filtered nt_groups can_xl max_length
                (generateTargetSequences restriction 0 map_source_to_targets)
                all mc)).
Proof.
  unfold initModificationMassesNA. intros Hrun.
  inv_bind_as Hrun cys Hcys. inv_bind_as Hrun targets Htargets.
  inv_bind_as Hrun eff Heff.
  destruct eff as [map_source_to_targets restriction].
  inv_bind_as Hrun mods Hmods.
  apply generate_and_filter_Returns in Hrun.
  destruct Hrun as (all & mc & Hchain & Hr).
  exists cys, targets, map_source_to_targets, restriction, mods, all, mc.
  repeat (split; [assumption|]). exact Hr.
Qed.

(** C3: when [initModificationMassesNA] returns, the two maps of the
    result have the same keys, and no key of [mod_combinations] maps to an
    empty set: a formula whose ambiguities were all filtered out is in
    neither map. *)
Theorem result_maps_synchronized (fuel : nat)
  (target_nucleotides nt_groups : list String) (can_xl : oset ascii)
  (mappings modifications : list String) (sequence_restriction : String)
  (cysteine_adduct : bool) (max_length : Z) (r : NuXLModificationMassesResult) :
  initModificationMassesNA fuel target_nucleotides nt_groups can_xl mappings
    modifications sequence_restriction cysteine_adduct max_length = Returns r ->
  (forall k, In k (map_keys (formula2mass r)) <->
             In k (map_keys (mod_combinations r))) /\
  (forall k s, In (k, s) (mod_combinations r) -> s <> []) /\
  (forall k, ambiguities (mod_combinations r) k = [] ->
             map_find k (formula2mass r) = None /\
             map_find k (mod_combinations r) = None).
Proof.
  intros Hrun. apply initModificationMassesNA_Returns in Hrun.
  destruct Hrun as (cys & targets & mst & restriction & mods & all & mc
                    & _ & _ & _ & _ & Hchain & Hr).
  apply chain_extension_inv in Hchain. destruct Hchain as [Hwf Hgen].
  destruct (filtered_spec nt_groups can_xl max_length
              (generateTargetSequences restriction 0 mst) Hwf Hgen)
    as (Hwf' & Hkeys & Hne & _).
  set (fm := filtered nt_groups can_xl max_length
               (generateTargetSequences restriction 0 mst) all mc) in *.
  assert ((forall k, In k (map_keys (formula2mass r)) <->
                     In k (map_keys (mod_combinations r))) /\
          (forall k s, In (k, s) (mod_combinations r) -> s <> []) /\
          map_sorted (mod_combinations r)) as (Hk & Hs & Hsorted).
  { unfold add_cysteine_adduct in Hr. destruct cysteine_adduct.
    - injection Hr as -> ->. split; [|split].
      + intros k. unfold map_set, map_set_insert.
        rewrite !map_keys_upsert. pose proof (Hkeys k). tauto.
      + intros k s Hin. apply In_map_upsert in Hin; [|exact (proj1 Hwf')].
        destruct Hin as [[= -> ->] | Hin]; [|exact (Hne k s Hin)].
        destruct (map_find _ _); [apply set_insert_not_empty | discriminate].
      + apply map_upsert_sorted. exact (proj1 Hwf').
    - injection Hr as -> ->. split; [exact Hkeys|].
      split; [exact Hne | exact (proj1 Hwf')]. }
  split; [exact Hk|]. split; [exact Hs|].
  intros k Hempty.
  assert (map_find k (mod_combinations r) = None) as Hnone.
  { destruct (map_find k (mod_combinations r)) as [s|] eqn:E; [|reflexivity].
    exfalso. rewrite (ambiguities_find _ _ E) in Hempty. subst s.
    apply map_find_In in E. now apply Hs in E. }
  split; [|exact Hnone].
  apply map_find_None. rewrite Hk. now apply map_find_None.
Qed.

End Results.

Lemma scenario_result :
  Scenario.run [str "A:"; str "U:"] false
  = Returns
      (Scenario.result
         [(SimpleFormulas.to_string Scenario.formula_AU, 653088392%Z);
          (SimpleFormulas.to_string Scenario.formula_U, 324035870%Z)]
         [(SimpleFormulas.to_string Scenario.formula_AU, [str "AU"]);
          (SimpleFormulas.to_string Scenario.formula_U, [str "U"])]).
Proof. reflexivity. Qed.

(** The result of the scenario with the modifications ["A:"] and ["U:"]:
    two keys in either map, the sets ["AU"] and ["U"]. *)
Lemma result_maps_synchronized_witness :
  (forall k,
      In k (map_keys
              [(SimpleFormulas.to_string Scenario.formula_AU, 653088392%Z);
               (SimpleFormulas.to_string Scenario.formula_U, 324035870%Z)]) <->
      In k (map_keys
              [(SimpleFormulas.to_string Scenario.formula_AU, [str "AU"]);
               (SimpleFormulas.to_string Scenario.formula_U, [str "U"])]))
  /\ Scenario.run [str "A:"; str "U:"] false
     = Returns
         (Scenario.result
            [(SimpleFormulas.to_string Scenario.formula_AU, 653088392%Z);
             (SimpleFormulas.to_string Scenario.formula_U, 324035870%Z)]
            [(SimpleFormulas.to_string Scenario.formula_AU, [str "AU"]);
             (SimpleFormulas.to_string Scenario.formula_U, [str "U"])]).
Proof.
  split; [|exact scenario_result].
  exact (proj1 (@result_maps_synchronized SimpleFormulas.library _ _ _ _ _ _ _ _ _ _
                  scenario_result)).
Defined.

Section RetainedAmbiguities.
Context `{FormulaLibrary}.

Lemma passes_basic_true (nt_groups : list String) (can_xl : oset ascii)
  (max_length : Z) (composition : String) :
  passes_basic nt_groups can_xl max_length composition = true ->
  count_lower composition <= 1 /\
  (exists c, In c composition /\ In c can_xl) /\
  (Z.of_nat (length composition) <= max_length)%Z /\
  found_in_n_groups nt_groups composition <= 1.
Proof.
  unfold passes_basic. rewrite !andb_true_iff, !negb_true_iff.
  intros [[[Hl Hx] Hlen] Hg].
  apply Nat.leb_gt in Hl. apply Nat.ltb_ge in Hg.
  split; [lia|]. split; [|split; [|assumption]].
  - unfold has_xl_nt in Hx. apply existsb_exists in Hx.
    destruct Hx as (c & Hc & Hm). exists c. split; [assumption|].
    now apply set_mem_In.
  - rewrite Z.gtb_ltb in Hlen. apply Z.ltb_ge in Hlen. exact Hlen.
Qed.

(** C2, as amended: in the returned [mod_combinations] every ambiguity
    other than the label of the cysteine adduct, which is added after the
    filter when the flag is set, has a composition (the string up to the
    first ['+'] or ['-'], sorted) with a cross-linkable symbol, at most one
    lower-case symbol, at most [max_length] symbols, symbols of at most one
    nucleotide group, and an anagram window in a generated target
    sequence. *)
Theorem retained_ambiguities_pass_filters (fuel : nat)
  (target_nucleotides nt_groups : list String) (can_xl : oset ascii)
  (mappings modifications : list String) (sequence_restriction : String)
  (cysteine_adduct : bool) (max_length : Z) (r : NuXLModificationMassesResult)
  (formula : String) (ambiguity_set : oset String) (s : String) :
  initModificationMassesNA fuel target_nucleotides nt_groups can_xl mappings
    modifications sequence_restriction cysteine_adduct max_length = Returns r ->
  In (formula, ambiguity_set) (mod_combinations r) -> In s ambiguity_set ->
  cysteine_adduct = false \/ s <> cysteine_adduct_string ->
  let composition := nucleotide_composition s in
  (exists c, In c composition /\ In c can_xl) /\
  count_lower composition <= 1 /\
  (Z.of_nat (length composition) <= max_length)%Z /\
  found_in_n_groups nt_groups composition <= 1 /\
  exists map_source_to_targets restriction t l,
    effective_restriction mappings sequence_restriction max_length
    = Returns (map_source_to_targets, restriction) /\
    In t (generateTargetSequences restriction 0 map_source_to_targets) /\
    window t l (length composition) /\
    Permutation (substr t l (length composition)) composition.
Proof.
  intros Hrun Hset Hs Hcys composition.
  apply initModificationMassesNA_Returns in Hrun.
  destruct Hrun as (cys & targets & mst & restriction & mods & all & mc
                    & _ & _ & Heff & _ & Hchain & Hr).
  apply chain_extension_inv in Hchain. destruct Hchain as [Hwf Hgen].
  destruct (filtered_spec nt_groups can_xl max_length
              (generateTargetSequences restriction 0 mst) Hwf Hgen)
    as (Hwf' & _ & _ & Hpass).
  set (fm := filtered nt_groups can_xl max_length
               (generateTargetSequences restriction 0 mst) all mc) in *.
  assert (In s (ambiguities (snd fm) formula)) as Hin.
  { unfold add_cysteine_adduct in Hr. destruct cysteine_adduct.
    - injection Hr as _ Hmc. rewrite Hmc in Hset.
      assert (In s (ambiguities
                      (map_set_insert (toString cys) cysteine_adduct_string (snd fm))
                      formula)) as Hin.
      { rewrite (ambiguities_find _ _
                   (In_map_find _ _ _ (proj1 (mc_wf_insert _ _ Hwf')) Hset)).
        exact Hs. }
      apply (ambiguities_insert _ _ _ _ Hwf') in Hin.
      destruct Hin as [[_ ->] | Hin]; [|exact Hin].
      destruct Hcys as [Hc | Hc]; [discriminate | congruence].
    - injection Hr as _ Hmc. rewrite Hmc in Hset.
      rewrite (ambiguities_find _ _ (In_map_find _ _ _ (proj1 Hwf') Hset)).
      exact Hs. }
  destruct (Hpass formula s Hin) as [Hbasic Hcont].
  apply passes_basic_true in Hbasic.
  destruct Hbasic as (Hlower & (c & Hc & Hxl) & Hlen & Hgroups).
  split; [now exists c|]. split; [assumption|]. split; [assumption|].
  split; [assumption|].
  apply containment_violated_false in Hcont. destruct Hcont as (t & Ht & Hnot).
  apply notInSeq_false_iff in Hnot. destruct Hnot as [Hempty | (l & Hw & Hp)].
  - unfold composition in *. rewrite Hempty in Hc. destruct Hc.
  - now exists mst, restriction, t, l.
Qed.

End RetainedAmbiguities.

(** With the cysteine adduct the result of the scenario holds the label
    ["C4H8S2O2"], whose composition has no cross-linkable symbol and eight
    symbols, more than [max_length = 2]. *)
Lemma cysteine_adduct_label_is_not_filtered :
  exists r,
    Scenario.run [str "A:"; str "U:"] true = Returns r /\
    In (str "C4H8O2S2", [str "C4H8S2O2"]) (mod_combinations r) /\
    has_xl_nt Scenario.can_xl (nucleotide_composition (str "C4H8S2O2")) = false /\
    (Z.of_nat (length (nucleotide_composition (str "C4H8S2O2"))) > 2)%Z.
Proof.
  exists (Scenario.result
            [(SimpleFormulas.to_string Scenario.formula_AU, 653088392%Z);
             (str "C4H8O2S2", 151996572%Z);
             (SimpleFormulas.to_string Scenario.formula_U, 324035870%Z)]
            [(SimpleFormulas.to_string Scenario.formula_AU, [str "AU"]);
             (str "C4H8O2S2", [str "C4H8S2O2"]);
             (SimpleFormulas.to_string Scenario.formula_U, [str "U"])]).
  split; [reflexivity|].
  split; [right; left; reflexivity|].
  split; reflexivity.
Qed.

(** The ambiguity ["AU"] retained in the scenario *)
Lemma retained_ambiguities_pass_filters_witness :
  let composition := nucleotide_composition (str "AU") in
  (exists c, In c composition /\ In c Scenario.can_xl) /\
  count_lower composition <= 1 /\
  (Z.of_nat (length composition) <= 2)%Z /\
  found_in_n_groups [] composition <= 1 /\
  exists map_source_to_targets restriction t l,
    effective_restriction [] (str "AU") 2
    = Returns (map_source_to_targets, restriction) /\
    In t (generateTargetSequences restriction 0 map_source_to_targets) /\
    window t l (length composition) /\
    Permutation (substr t l (length composition)) composition.
Proof.
  refine (@retained_ambiguities_pass_filters SimpleFormulas.library 8
            Scenario.target_nucleotides [] Scenario.can_xl [] [str "A:"; str "U:"]
            (str "AU") false 2 _
            (SimpleFormulas.to_string Scenario.formula_AU) [str "AU"] (str "AU")
            scenario_result _ _ _).
  - now left.
  - now left.
  - now left.
Defined.

(* ===================================================================== *)
(** ** Deduplication (lines 427-438) *)
(* ===================================================================== *)

Lemma set_sorted_NoDup {K} `{Ordered K} (s : oset K) : set_sorted s -> NoDup s.
Proof.
  induction s as [|x s IH]; simpl; [constructor|].
  intros [Hx Hs]. constructor; [|now apply IH].
  intros Hin. rewrite Forall_forall in Hx. apply Hx in Hin.
  rewrite cmp_refl in Hin. discriminate.
Qed.

(** In a list without repetition under [g], an element is found at one
    place only. *)
Lemma NoDup_position {A B} (g : A -> B) (p1 p2 q1 q2 : list A) (a b : A) :
  NoDup (map g (p1 ++ a :: q1)) ->
  p1 ++ a :: q1 = p2 ++ b :: q2 -> g a = g b ->
  p1 = p2 /\ a = b /\ q1 = q2.
Proof.
  revert p2. induction p1 as [|x p1 IH]; intros [|y p2]; simpl.
  - intros _ [= -> ->]. auto.
  - intros Hnd [= -> ->] Hg. exfalso. inversion Hnd as [|? ? Hn _]. apply Hn.
    rewrite Hg. apply in_map. apply in_or_app. right. now left.
  - intros Hnd [= -> <-] Hg. exfalso. inversion Hnd as [|? ? Hn _]. apply Hn.
    rewrite <- Hg. apply in_map. apply in_or_app. right. now left.
  - intros Hnd [= -> E] Hg. inversion Hnd as [|? ? _ Hnd'].
    destruct (IH p2 Hnd' E Hg) as (-> & -> & ->). auto.
Qed.

Section Dedup.
Context `{FormulaLibrary}.
Variable nt_groups : list String.
Variable can_xl : oset ascii.
Variable max_length : Z.
Variable target_sequences : list String.

Notation run := (filter_run nt_groups can_xl max_length target_sequences).
Notation step := (filter_step nt_groups can_xl max_length target_sequences).

Lemma composition_eqb_eq (a b : String * Mass) :
  composition_eqb a b = true <-> a = b.
Proof.
  unfold composition_eqb. destruct a as [a m], b as [b m']. simpl.
  rewrite andb_true_iff, String_eqb_eq.
  destruct (Mass_eq_dec m m') as [-> | Hne]; split.
  - now intros [-> _].
  - now intros [= ->].
  - intros [_ Hf]. discriminate.
  - intros [= _ E]. contradiction.
Qed.

Lemma already_added_In (unique : list (String * Mass)) (key : String * Mass) :
  already_added unique key = true <-> In key unique.
Proof.
  unfold already_added. rewrite existsb_exists. split.
  - intros (u & Hu & E). apply composition_eqb_eq in E. now subst.
  - intros Hin. exists key. split; [assumption | now apply composition_eqb_eq].
Qed.

Lemma filter_step_unique (st : filter_state) (i : filter_item)
  (key : String * Mass) :
  In key (fst (step st i)) <->
  In key (fst st) \/
  (item_key i = key /\
   passes_basic nt_groups can_xl max_length
     (nucleotide_composition (item_string i)) = true).
Proof.
  destruct (passes_basic nt_groups can_xl max_length
              (nucleotide_composition (item_string i))) eqn:Hp.
  - rewrite (filter_step_recorded _ _ _ _ st i Hp). simpl.
    rewrite in_app_iff. simpl. intuition.
  - rewrite (filter_step_rejected _ _ _ _ st i Hp). simpl.
    intuition congruence.
Qed.

(** [unique_nucleotide_and_mod_composition] holds the keys of the entries
    that passed rules 2 to 5. *)
Lemma filter_run_unique (items : list filter_item) (key : String * Mass) :
  In key (fst (run items)) <->
  exists i, In i items /\ item_key i = key /\
            passes_basic nt_groups can_xl max_length
              (nucleotide_composition (item_string i)) = true.
Proof.
  induction items as [|i items IH] using rev_ind.
  - split; [intros [] | intros (i & [] & _)].
  - rewrite filter_run_snoc, filter_step_unique, IH. split.
    + intros [(j & Hj & Hk & Hp) | [Hk Hp]].
      * exists j. split; [apply in_or_app; now left | now split].
      * exists i. split; [apply in_or_app; right; now left | now split].
    + intros (j & Hj & Hk & Hp). apply in_app_or in Hj.
      destruct Hj as [Hj | [<- | []]]; [left; now exists j | now right].
Qed.

(** The first entry of a list with a given key that passed rules 2 to 5 *)
Lemma first_recorded (items : list filter_item) (key : String * Mass) :
  In key (fst (run items)) ->
  exists pre i post,
    items = pre ++ i :: post /\ item_key i = key /\
    passes_basic nt_groups can_xl max_length
      (nucleotide_composition (item_string i)) = true /\
    ~ In key (fst (run pre)).
Proof.
  induction items as [|i items IH] using rev_ind.
  - intros [].
  - rewrite filter_run_snoc, filter_step_unique.
    destruct (already_added (fst (run items)) key) eqn:Ea.
    + intros _. apply already_added_In in Ea.
      destruct (IH Ea) as (pre & j & post & -> & Hk & Hp & Hn).
      exists pre, j, (post ++ [i]). rewrite <- app_assoc. now repeat split.
    + assert (~ In key (fst (run items))) as Hn.
      { intros Hin. apply already_added_In in Hin. congruence. }
      intros [Hin | [Hk Hp]]; [contradiction|].
      exists items, i, []. now repeat split.
Qed.

(** The (formula, ambiguity) pair of an entry *)
Definition item_pair (i : filter_item) : String * String :=
  (item_formula i, item_string i).

Lemma NoDup_map_pair {A B} (k : A) (l : list B) :
  NoDup l -> NoDup (map (pair k) l).
Proof.
  induction 1 as [|x l Hx Hl IH]; simpl; constructor; [|assumption].
  intros Hin. apply in_map_iff in Hin. destruct Hin as (y & [= ->] & Hy).
  contradiction.
Qed.

(** No (formula, ambiguity) pair is met twice in the iteration. *)
Lemma filter_items_NoDup (f2m : omap String Mass) (mc : omap String (oset String)) :
  map_sorted f2m -> mc_wf mc -> NoDup (map item_pair (filter_items f2m mc)).
Proof.
  intros Hs Hwf. unfold filter_items.
  induction f2m as [|[k m] f2m IH]; simpl; [constructor|].
  destruct Hs as [Hk Hs]. rewrite map_app, map_map. apply NoDup_app.
  - unfold item_pair, item_formula, item_string. simpl.
    apply NoDup_map_pair, set_sorted_NoDup. now apply ambiguities_sorted.
  - now apply IH.
  - intros a Ha Ha'. apply in_map_iff in Ha. destruct Ha as (s & <- & _).
    apply in_map_iff in Ha'. destruct Ha' as (i & Hi & Hin).
    apply in_flat_map in Hin. destruct Hin as ([k' m'] & He & Hin).
    apply in_map_iff in Hin. destruct Hin as (s' & <- & _).
    unfold item_pair, item_formula, item_string in Hi. simpl in Hi.
    injection Hi as -> _. rewrite Forall_forall in Hk.
    assert (cmp k k = Lt) as Hc.
    { apply Hk. change k with (fst (k, m')). now apply in_map. }
    rewrite cmp_refl in Hc. discriminate.
Qed.

(** C4: in the iteration of the filter, for a pair that rules 2 to 6 do
    not reject, the deduplication test of rule 7 is true exactly when an
    earlier pair with the same sorted composition and mass was accepted,
    that is rejected by none of the seven rules; the pair is then dropped
    from its ambiguity set, and it stays in it otherwise: of the pairs with
    one composition and mass the first seen survives. *)
Theorem deduplication_first_seen
  (f2m : omap String Mass) (mc : omap String (oset String))
  (pre post : list filter_item) (formula : String) (mass : Mass) (s : String) :
  map_sorted f2m -> mc_wf mc ->
  filter_items f2m mc = pre ++ (formula, mass, s) :: post ->
  passes_basic nt_groups can_xl max_length (nucleotide_composition s) = true ->
  containment_violated target_sequences (nucleotide_composition s) = false ->
  let filter_result :=
    restriction_filter nt_groups can_xl max_length target_sequences f2m mc in
  let unique := fst (run pre) in
  let duplicate := already_added unique (nucleotide_composition s, mass) in
  snd filter_result = run (filter_items f2m mc)
  /\ (duplicate = true <->
      exists pre1 formula' s' pre2,
        pre = pre1 ++ (formula', mass, s') :: pre2 /\
        nucleotide_composition s' = nucleotide_composition s /\
        accepted nt_groups can_xl max_length target_sequences
          (fst (run pre1)) (formula', mass, s') = true)
  /\ (In (formula, s) (snd (snd filter_result)) <-> duplicate = true)
  /\ (In s (ambiguities
              (erase_violating (snd (snd filter_result)) (fst filter_result))
              formula)
      <-> duplicate = false).
Proof.
  intros Hs Hwf Hitems Hbasic Hcont filter_result unique duplicate.
  assert (snd filter_result = run (filter_items f2m mc)) as Hflat.
  { unfold filter_result. now rewrite restriction_filter_flat. }
  assert (accepted nt_groups can_xl max_length target_sequences unique
            (formula, mass, s) = negb duplicate) as Hacc.
  { unfold accepted, item_string, item_key, item_mass. simpl.
    now rewrite Hbasic, Hcont. }
  assert (In (formula, s) (snd (snd filter_result)) <-> duplicate = true) as Hrej.
  { rewrite Hflat, filter_run_violates. split.
    - intros (pre' & i & post' & E & Hpair & Ha).
      pose proof (@filter_items_NoDup f2m mc Hs Hwf) as Hnd. rewrite Hitems in Hnd.
      rewrite Hitems in E.
      destruct (NoDup_position item_pair pre pre' post post'
                  (formula, mass, s) i Hnd E Hpair) as (<- & <- & _).
      fold unique in Ha. rewrite Hacc in Ha. now apply negb_false_iff.
    - intros Hd. exists pre, (formula, mass, s), post.
      split; [assumption|]. split; [reflexivity|].
      fold unique. rewrite Hacc, Hd. reflexivity. }
  split; [exact Hflat|]. split; [|split; [exact Hrej|]].
  - unfold duplicate. rewrite already_added_In. split.
    + intros Hin. apply first_recorded in Hin.
      destruct Hin as (pre1 & [[f' m'] s'] & pre2 & -> & Hkey & Hp & Hn).
      unfold item_key, item_string, item_mass in Hkey. simpl in Hkey.
      injection Hkey as Hcomp ->.
      exists pre1, f', s', pre2. split; [reflexivity|]. split; [assumption|].
      unfold accepted, item_key, item_mass, item_string. cbn [fst snd].
      unfold item_string in Hp. cbn [snd] in Hp. rewrite Hp, Hcomp, Hcont.
      cbn [negb andb]. apply negb_true_iff, not_true_is_false. intros Ea.
      apply already_added_In in Ea. contradiction.
    + intros (pre1 & f' & s' & pre2 & -> & Hcomp & Ha).
      apply filter_run_unique. exists (f', mass, s').
      split; [apply in_or_app; right; now left|].
      unfold item_key, item_string, item_mass. cbn [fst snd].
      split; [now rewrite Hcomp|].
      unfold accepted in Ha. apply andb_true_iff in Ha. destruct Ha as [Ha _].
      apply andb_true_iff in Ha. exact (proj1 Ha).
  - assert (fst filter_result = touch_all f2m mc) as Htouch.
    { unfold filter_result. now rewrite restriction_filter_flat. }
    destruct (touch_all_spec f2m Hwf) as (Hwf_t & Hamb_t & _).
    destruct (erase_violating_spec (snd (snd filter_result)) Hwf_t)
      as (_ & Hamb_e & _).
    rewrite Htouch, Hamb_e, Hamb_t, Hrej.
    assert (In s (ambiguities mc formula)) as Hin.
    { apply (filter_items_key f2m mc (formula, mass, s)). rewrite Hitems.
      apply in_or_app. right. now left. }
    split.
    + intros [_ Hn]. destruct duplicate; [elim Hn |]; reflexivity.
    + intros Hd. split; [assumption|]. intros Hd'. congruence.
Qed.

End Dedup.

Module DedupScenario.
Import SimpleFormulas.

(** One formula with the two anagram ambiguities ["AU"] and ["UA"] *)
Definition key : String := to_string Scenario.formula_AU.

Definition f2m : omap String Z := [(key, 653088392%Z)].

Definition mc : omap String (oset String) := [(key, [str "AU"; str "UA"])].

Lemma f2m_sorted : map_sorted f2m.
Proof. split; [constructor | exact I]. Defined.

Lemma mc_sorted : mc_wf mc.
Proof.
  split.
  - split; [constructor | exact I].
  - intros k s [[= _ <-] | []]. simpl.
    split; [|split; [constructor | exact I]].
    constructor; [reflexivity | constructor].
Defined.

End DedupScenario.

(** ["AU"] is met first and accepted; for ["UA"], with the same sorted
    composition and mass, the test of rule 7 is true and the pair is put
    on [violates_restriction]. *)
Lemma deduplication_first_seen_witness :
  already_added
    (fst (filter_run (H := SimpleFormulas.library) [] Scenario.can_xl 2 [str "AU"]
            [(DedupScenario.key, 653088392%Z, str "AU")]))
    (nucleotide_composition (str "UA"), 653088392%Z) = true
  /\ In (DedupScenario.key, str "UA")
       (snd (snd (restriction_filter (H := SimpleFormulas.library) []
                    Scenario.can_xl 2 [str "AU"]
                    DedupScenario.f2m DedupScenario.mc))).
Proof.
  destruct (@deduplication_first_seen SimpleFormulas.library [] Scenario.can_xl 2
              [str "AU"] DedupScenario.f2m DedupScenario.mc
              [(DedupScenario.key, 653088392%Z, str "AU")] []
              DedupScenario.key 653088392%Z (str "UA")
              DedupScenario.f2m_sorted DedupScenario.mc_sorted
              eq_refl eq_refl eq_refl) as (_ & _ & Hrej & _).
  split; [reflexivity|]. apply Hrej. reflexivity.
Defined.

(* ===================================================================== *)
(** ** Trivial substitution rules (lines 98-168) *)
(* ===================================================================== *)

(** The rule ["a->a"] *)
Definition trivial_rule (a : ascii) : String := a :: str "->" ++ [a].

(** Lines 101-103: the source and the target that a mapping string gives *)
Definition rule_fields (s : String) : outcome (ascii * ascii) :=
  let fields := split (str "->") s in
  f0 <- vector_at fields 0 ;;
  source <- string_at f0 0 ;;
  f1 <- vector_at fields 1 ;;
  target <- string_at f1 0 ;;
  Returns (source, target).

Lemma parse_mapping_fields (m : omap ascii (list ascii)) (s : String) :
  parse_mapping m s
  = bind (rule_fields s) (fun r => Returns (map_push_back (fst r) (snd r) m)).
Proof.
  unfold parse_mapping, rule_fields.
  destruct (vector_at _ 0) as [f0| | |]; simpl; try reflexivity.
  destruct (string_at f0 0) as [c0| | |]; simpl; try reflexivity.
  destruct (vector_at _ 1) as [f1| | |]; simpl; try reflexivity.
  destruct (string_at f1 0) as [c1| | |]; simpl; reflexivity.
Qed.

Lemma rule_fields_trivial (a : ascii) : rule_fields (trivial_rule a) = Returns (a, a).
Proof. destruct a as [[] [] [] [] [] [] [] []]; reflexivity. Qed.

(** Updates of two different keys commute. *)
Lemma map_upsert_comm {K V} `{Ordered K} (k1 k2 : K) (f g : option V -> V)
  (m : omap K V) :
  k1 <> k2 ->
  map_upsert k1 f (map_upsert k2 g m) = map_upsert k2 g (map_upsert k1 f m).
Proof.
  intros Hne.
  assert (cmp k1 k2 <> Eq) as Hc by (intros E; apply cmp_eq in E; contradiction).
  pose proof (cmp_antisym k1 k2) as Hopp.
  induction m as [|[h v] t IH].
  - simpl. destruct (cmp k1 k2); [contradiction | |]; simpl in Hopp;
      rewrite Hopp; reflexivity.
  - pose proof (cmp_antisym k1 h) as H1. pose proof (cmp_antisym k2 h) as H2.
    simpl.
    destruct (cmp k1 h) eqn:E1, (cmp k2 h) eqn:E2; simpl in H1, H2; simpl;
      rewrite ?E1, ?E2; try reflexivity.
    + apply cmp_eq in E1, E2. congruence.
    + apply cmp_eq in E1. subst h. rewrite H2. reflexivity.
    + apply cmp_eq in E2. subst h. rewrite H1. reflexivity.
    + destruct (cmp k1 k2); [contradiction | |]; simpl in Hopp;
        rewrite Hopp; reflexivity.
    + rewrite Hopp, (cmp_trans _ _ _ E1 H2). reflexivity.
    + pose proof (cmp_trans _ _ _ E2 H1) as E21. rewrite E21 in Hopp.
      destruct (cmp k1 k2); try discriminate. reflexivity.
    + now rewrite IH.
Qed.

(** The loop of lines 98-104 started with one more target for [a], over
    rules with other sources *)
Lemma foldM_parse_mapping_push (a x : ascii) (l : list String) :
  (forall s c t, In s l -> rule_fields s = Returns (c, t) -> c <> a) ->
  forall m,
    foldM parse_mapping l (map_push_back a x m)
    = bind (foldM parse_mapping l m) (fun m' => Returns (map_push_back a x m')).
Proof.
  induction l as [|s l IH]; intros Hl m; simpl; [reflexivity|].
  rewrite !parse_mapping_fields.
  destruct (rule_fields s) as [[c t]| | |] eqn:E; simpl; try reflexivity.
  unfold map_push_back at 1 2.
  rewrite map_upsert_comm by (eapply Hl; [now left | exact E]).
  apply IH. intros s' c' t' Hin. apply Hl. now right.
Qed.

Lemma parse_mappings_trivial_rule (a : ascii) (l1 l2 : list String) :
  (forall s c t, In s l2 -> rule_fields s = Returns (c, t) -> c <> a) ->
  parse_mappings (l1 ++ trivial_rule a :: l2)
  = bind (parse_mappings (l1 ++ l2)) (fun m => Returns (map_push_back a a m)).
Proof.
  intros Hl. unfold parse_mappings. rewrite !foldM_app.
  destruct (foldM parse_mapping l1 []) as [m| | |]; simpl; try reflexivity.
  rewrite parse_mapping_fields, rule_fields_trivial. simpl.
  now apply foldM_parse_mapping_push.
Qed.

(** The keys of the substitution map are the sources of the rules. *)
Lemma foldM_parse_mapping_keys (l : list String) :
  forall m m', foldM parse_mapping l m = Returns m' ->
  forall k, In k (map_keys m') ->
    In k (map_keys m) \/ exists s t, In s l /\ rule_fields s = Returns (k, t).
Proof.
  induction l as [|s l IH]; intros m m' E k Hk; simpl in E.
  - injection E as <-. now left.
  - rewrite parse_mapping_fields in E.
    destruct (rule_fields s) as [[c t]| | |] eqn:Es; simpl in E; try discriminate.
    destruct (IH _ _ E k Hk) as [Hin | (s' & t' & Hin & Es')].
    + apply map_keys_upsert in Hin. destruct Hin as [-> | Hin].
      * right. exists s, t. split; [now left | exact Es].
      * now left.
    + right. exists s', t'. split; [now right | exact Es'].
Qed.

(** Lines 150-168 skip a one-target entry whose target is its source. *)
Lemma erase_trivial_push (a : ascii) (m : omap ascii (list ascii)) (seq : String) :
  ~ In a (map_keys m) ->
  erase_trivial (map_push_back a a m) seq = erase_trivial m seq.
Proof.
  unfold map_push_back. revert seq.
  induction m as [|[h v] t IH]; intros seq Hn; simpl.
  - now rewrite Ascii.eqb_refl.
  - destruct (char_cmp a h) eqn:E.
    + apply char_cmp_eq in E. subst h. elim Hn. now left.
    + cbn [erase_trivial]. now rewrite Ascii.eqb_refl.
    + assert (~ In a (map_keys t)) as Hn' by (intros Hin; apply Hn; now right).
      cbn [erase_trivial]. destruct v as [|first_target [|second rest]].
      * now rewrite IH.
      * destruct (Ascii.eqb h first_target); now apply IH.
      * now rewrite IH.
Qed.

(** Lines 106-111 read [s[0]], which every string has. *)
Lemma extract_source_nucleotides_Returns (l : list String) :
  exists v, extract_source_nucleotides l = Returns v.
Proof.
  unfold extract_source_nucleotides.
  set (body := fun (v : list ascii) (s : String) =>
                 c <- string_at s 0 ;; Returns (v ++ [c])).
  enough (forall v0, exists v, foldM body l v0 = Returns v) as E by apply E.
  induction l as [|s l IH]; intros v; simpl; [now exists v|].
  unfold body at 1.
  assert (exists c, string_at s 0 = Returns c) as [c ->].
  { unfold string_at. destruct s as [|c s]; simpl; eauto. }
  simpl. apply IH.
Qed.

Section TrivialRule.
Context `{FormulaLibrary}.
Variables (a : ascii) (l1 l2 : list String).
Variables (sequence_restriction : String) (max_length : Z).
Hypothesis supplied : sequence_restriction <> [].
Hypothesis other_sources :
  forall s c t, In s (l1 ++ l2) -> rule_fields s = Returns (c, t) -> c <> a.

Lemma effective_restriction_trivial_rule :
  effective_restriction (l1 ++ trivial_rule a :: l2) sequence_restriction max_length
  = effective_restriction (l1 ++ l2) sequence_restriction max_length.
Proof.
  unfold effective_restriction.
  rewrite parse_mappings_trivial_rule
    by (intros s c t Hin; apply other_sources, in_or_app; now right).
  destruct (parse_mappings (l1 ++ l2)) as [m| | |] eqn:Em; simpl; try reflexivity.
  destruct (extract_source_nucleotides_Returns (l1 ++ trivial_rule a :: l2))
    as [v ->].
  destruct (extract_source_nucleotides_Returns (l1 ++ l2)) as [v' ->].
  simpl. f_equal.
  assert (forall w, restriction_or_all w sequence_restriction max_length
                    = sequence_restriction) as Hr.
  { intros w. unfold restriction_or_all.
    destruct sequence_restriction; [now elim supplied | reflexivity]. }
  rewrite !Hr. apply erase_trivial_push.
  intros Hin. unfold parse_mappings in Em.
  destruct (foldM_parse_mapping_keys _ _ Em a Hin) as [[] | (s & t & Hs & Es)].
  exact (other_sources s Hs Es eq_refl).
Qed.

(** C8, as amended: with a supplied (non-empty) restriction sequence, the
    rule ["a->a"], put anywhere among mappings none of which has the source
    [a], leaves the substitution map and the restriction sequence handed to
    the expander as they are without it, and with them the outcome of
    [initModificationMassesNA]: the returned result or the exception. *)
Theorem trivial_rule_has_no_effect (fuel : nat)
  (target_nucleotides nt_groups : list String) (can_xl : oset ascii)
  (modifications : list String) (cysteine_adduct : bool) :
  effective_restriction (l1 ++ trivial_rule a :: l2) sequence_restriction max_length
  = effective_restriction (l1 ++ l2) sequence_restriction max_length
  /\ initModificationMassesNA fuel target_nucleotides nt_groups can_xl
       (l1 ++ trivial_rule a :: l2) modifications sequence_restriction
       cysteine_adduct max_length
     = initModificationMassesNA fuel target_nucleotides nt_groups can_xl
         (l1 ++ l2) modifications sequence_restriction cysteine_adduct max_length.
Proof.
  split; [exact effective_restriction_trivial_rule|].
  unfold initModificationMassesNA.
  now rewrite effective_restriction_trivial_rule.
Qed.

End TrivialRule.

(** With the restriction sequence ["AU"], the rule ["A->A"] in front of
    ["U->G"] changes nothing. *)
Lemma trivial_rule_has_no_effect_witness :
  initModificationMassesNA (H := SimpleFormulas.library) 8
    Scenario.target_nucleotides [] Scenario.can_xl
    [str "A->A"; str "U->G"] [str "A:"; str "U:"] (str "AU") false 2
  = initModificationMassesNA (H := SimpleFormulas.library) 8
      Scenario.target_nucleotides [] Scenario.can_xl
      [str "U->G"] [str "A:"; str "U:"] (str "AU") false 2.
Proof.
  refine (proj2 (@trivial_rule_has_no_effect SimpleFormulas.library "A"%char
                   [] [str "U->G"] (str "AU") 2 _ _ 8
                   Scenario.target_nucleotides [] Scenario.can_xl
                   [str "A:"; str "U:"] false)).
  - discriminate.
  - intros s c t [<- | []] E. vm_compute in E. injection E as <- _. discriminate.
Defined.

(** Without a supplied restriction sequence the rule ["U->U"] is
    observable: it makes [U] a source nucleotide, the generated restriction
    sequence becomes ["U"] instead of the empty string, and the combination
    ["U"], rejected without the rule, is returned with it. *)
Lemma trivial_rule_changes_generated_restriction :
  effective_restriction [] [] 1 = Returns ([], [])
  /\ effective_restriction [str "U->U"] [] 1 = Returns ([], str "U")
  /\ initModificationMassesNA (H := SimpleFormulas.library) 8
       [str "U=C9H13N2O9P"] [] ["U"%char] [] [str "U:"] [] false 1
     = Returns (Scenario.result [] [])
  /\ exists formula mass,
       initModificationMassesNA (H := SimpleFormulas.library) 8
         [str "U=C9H13N2O9P"] [] ["U"%char] [str "U->U"] [str "U:"] [] false 1
       = Returns (Scenario.result [(formula, mass)] [(formula, [str "U"])]).
Proof.
  split; [reflexivity|]. split; [reflexivity|]. split; [reflexivity|].
  eexists _, _. reflexivity.
Qed.

(* ===================================================================== *)
(** ** The target sequences (lines 526-581) *)
(* ===================================================================== *)

(** What the character [c] of the restriction sequence may become: itself,
    or one of the targets listed for it *)
Definition derives (map_source2target : omap ascii (list ascii)) (c d : ascii)
  : Prop :=
  d = c \/ exists targets, map_find c map_source2target = Some targets /\ In d targets.

Lemma nth_after {A} (pre rest : list A) (c d : A) :
  nth (length pre) (pre ++ c :: rest) d = c.
Proof. induction pre as [|x pre IH]; simpl; auto. Qed.

Lemma set_char_after (pre rest : String) (c t : ascii) :
  set_char (pre ++ c :: rest) (length pre) t = pre ++ t :: rest.
Proof. induction pre as [|x pre IH]; simpl; [reflexivity | now rewrite IH]. Qed.

Lemma snoc_app {A} (pre rest : list A) (c : A) :
  pre ++ c :: rest = (pre ++ [c]) ++ rest.
Proof. now rewrite <- app_assoc. Qed.

Lemma snoc_length {A} (pre : list A) (c : A) : S (length pre) = length (pre ++ [c]).
Proof. rewrite length_app. simpl. lia. Qed.

Lemma In_push_if_valid (m : omap ascii (list ascii)) (s t : String) :
  In t (push_if_valid m s) <-> t = s /\ count_valid m t = length t.
Proof.
  unfold push_if_valid. destruct (count_valid m s =? length s) eqn:E; simpl.
  - apply Nat.eqb_eq in E. split.
    + intros [<- | []]. now split.
    + intros [-> _]. now left.
  - apply Nat.eqb_neq in E. split; [intros [] | intros [-> Hv]; contradiction].
Qed.

(** The loop from the position behind [pre], with the sequence itself *)
Lemma expand_from_spec (m : omap ascii (list ascii)) (rest : String) :
  forall (pre t : String),
    In t (expand_from (length rest) m (pre ++ rest) (length pre)
          ++ push_if_valid m (pre ++ rest))
    <-> exists rest', t = pre ++ rest' /\ Forall2 (derives m) rest rest'
                      /\ count_valid m t = length t.
Proof.
  induction rest as [|c rest IH]; intros pre t.
  - simpl. rewrite In_push_if_valid. split.
    + intros [-> Hv]. exists []. repeat split; [constructor | exact Hv].
    + intros (rest' & -> & HF & Hv). inversion HF. subst. now split.
  - assert (forall d,
              In t (expand_from (length rest) m (pre ++ d :: rest) (S (length pre))
                    ++ push_if_valid m (pre ++ d :: rest))
              <-> exists rest', t = pre ++ d :: rest' /\ Forall2 (derives m) rest rest'
                                /\ count_valid m t = length t) as Hrec.
    { intros d. rewrite (snoc_app pre rest d), (snoc_length pre d), IH.
      split; intros (r & E & HF & Hv); exists r; (split; [|now split]);
        rewrite E, <- app_assoc; reflexivity. }
    cbn [length expand_from]. rewrite nth_after.
    rewrite <- app_assoc, in_app_iff, Hrec.
    destruct (map_find c m) as [targets|] eqn:Ec.
    + rewrite in_flat_map. split.
      * intros [(d & Hd & Hin) | (rest' & -> & HF & Hv)].
        -- destruct (Ascii.eqb c d) eqn:Ecd; [destruct Hin|].
           rewrite set_char_after in Hin. apply Hrec in Hin.
           destruct Hin as (rest' & -> & HF & Hv).
           exists (d :: rest'). split; [reflexivity|]. split; [|exact Hv].
           constructor; [|exact HF]. right. now exists targets.
        -- exists (c :: rest'). split; [reflexivity|]. split; [|exact Hv].
           constructor; [now left | exact HF].
      * intros (rest'' & -> & HF & Hv).
        inversion HF as [|c' d r1 rest' Hd HF']. subst.
        destruct (Ascii.eqb c d) eqn:Ecd.
        -- apply Ascii.eqb_eq in Ecd. subst d. right. exists rest'.
           now repeat split.
        -- left. destruct Hd as [-> | (targets' & Et & Hin)];
             [now rewrite Ascii.eqb_refl in Ecd|].
           assert (targets' = targets) as -> by congruence.
           exists d. split; [exact Hin|]. rewrite Ecd, set_char_after.
           apply Hrec. exists rest'. now repeat split.
    + simpl. split.
      * intros [[] | (rest' & -> & HF & Hv)].
        exists (c :: rest'). split; [reflexivity|]. split; [|exact Hv].
        constructor; [now left | exact HF].
      * intros (rest'' & -> & HF & Hv).
        inversion HF as [|c' d r1 rest' Hd HF']. subst.
        right. destruct Hd as [-> | (targets' & Et & _)]; [|congruence].
        exists rest'. now repeat split.
Qed.

(** X1: [generateTargetSequences] on a sequence, from the position behind
    [pre]: the appended sequences are exactly the sequences that keep
    [pre], replace characters behind it by targets of theirs (or keep
    them), and pass the validity count of lines 557-580. They have the
    length of the sequence. *)
Theorem generateTargetSequences_characterised
  (map_source2target : omap ascii (list ascii)) (pre rest t : String) :
  (In t (generateTargetSequences (pre ++ rest) (length pre) map_source2target)
   <-> exists rest', t = pre ++ rest'
                     /\ Forall2 (derives map_source2target) rest rest'
                     /\ count_valid map_source2target t = length t)
  /\ (In t (generateTargetSequences (pre ++ rest) (length pre) map_source2target)
      -> length t = length (pre ++ rest)).
Proof.
  assert (length (pre ++ rest) - length pre = length rest) as E
    by (rewrite length_app; lia).
  unfold generateTargetSequences. rewrite E. split.
  - apply expand_from_spec.
  - intros Hin. apply expand_from_spec in Hin.
    destruct Hin as (rest' & -> & HF & _).
    rewrite !length_app. f_equal. symmetry. eapply Forall2_length, HF.
Qed.

(** What one position adds to the count of lines 557-575 *)
Definition counted (m : omap ascii (list ascii)) (c : ascii) : nat :=
  match map_find c m with
  | None => 1
  | Some targets => length (filter (Ascii.eqb c) targets)
  end.

Lemma count_valid_cons (m : omap ascii (list ascii)) (c : ascii) (s : String) :
  count_valid m (c :: s) = counted m c + count_valid m s.
Proof.
  unfold count_valid. simpl.
  set (step := fun (count : nat) (c : ascii) =>
                 match map_find c m with
                 | Some targets => count + length (filter (Ascii.eqb c) targets)
                 | None => S count
                 end).
  assert (forall l n, fold_left step l n = n + fold_left step l 0) as Hshift.
  { induction l as [|x l IH]; intros n; simpl; [lia|].
    rewrite (IH (step n x)), (IH (step 0 x)). unfold step.
    destruct (map_find x m); lia. }
  rewrite Hshift. reflexivity.
Qed.

Lemma occurrences_In (c : ascii) (l : list ascii) :
  1 <= length (filter (Ascii.eqb c) l) <-> In c l.
Proof.
  induction l as [|x l IH]; simpl; [split; [lia | tauto]|].
  destruct (Ascii.eqb c x) eqn:E; simpl.
  - apply Ascii.eqb_eq in E. subst x. split; [now left | lia].
  - apply Ascii.eqb_neq in E. rewrite IH. split; [tauto|].
    intros [-> | Hin]; [contradiction | exact Hin].
Qed.

Lemma occurrences_NoDup (c : ascii) (l : list ascii) :
  NoDup l -> length (filter (Ascii.eqb c) l) <= 1.
Proof.
  induction 1 as [|x l Hnin Hnd IH]; simpl; [lia|].
  destruct (Ascii.eqb c x) eqn:E; simpl; [|exact IH].
  apply Ascii.eqb_eq in E. subst x.
  pose proof (occurrences_In c l). destruct (length (filter (Ascii.eqb c) l)); [lia|].
  elim Hnin. apply H. lia.
Qed.

(** X2: The validity test of lines 557-580 when no source nucleotide of the
    sequence lists a target twice: the sequence is appended exactly when
    each of its characters is no source nucleotide or is among its own
    targets, and nothing is appended otherwise. *)
Theorem valid_sequence_duplicate_free_targets
  (map_source2target : omap ascii (list ascii)) (res_seq : String) :
  (forall c targets, In c res_seq ->
     map_find c map_source2target = Some targets -> NoDup targets) ->
  (push_if_valid map_source2target res_seq = [res_seq]
   <-> forall c targets, In c res_seq ->
         map_find c map_source2target = Some targets -> In c targets)
  /\ (push_if_valid map_source2target res_seq = [res_seq]
      \/ push_if_valid map_source2target res_seq = []).
Proof.
  intros Hnd. split.
  - assert (count_valid map_source2target res_seq <= length res_seq
            /\ (count_valid map_source2target res_seq = length res_seq
                <-> forall c targets, In c res_seq ->
                      map_find c map_source2target = Some targets -> In c targets))
      as [_ Hiff].
    { induction res_seq as [|c s IH].
      { unfold count_valid. simpl. split; [lia|].
        split; [intros _ c t [] | reflexivity]. }
      rewrite count_valid_cons.
      destruct IH as [Hle Hiff]; [intros c' t' Hin; apply Hnd; now right|].
      assert (counted map_source2target c <= 1
              /\ (counted map_source2target c = 1
                  <-> forall targets, map_find c map_source2target = Some targets
                                      -> In c targets)) as [Hc Hc1].
      { unfold counted. destruct (map_find c map_source2target) as [targets|] eqn:Ec.
        - pose proof (occurrences_NoDup c (Hnd c targets (or_introl eq_refl) Ec)).
          pose proof (occurrences_In c targets) as HIn.
          split; [assumption|]. split.
          + intros E1 t' [= <-]. apply HIn. lia.
          + intros Hin. specialize (Hin targets eq_refl). apply HIn in Hin. lia.
        - split; [lia|]. split; [discriminate | reflexivity]. }
      cbn [length]. split; [lia|]. split.
      - intros E c' targets [<- | Hin] Ef.
        + apply Hc1; [lia | exact Ef].
        + assert (count_valid map_source2target s = length s) as Es by lia.
          exact (proj1 Hiff Es c' targets Hin Ef).
      - intros Hall.
        assert (counted map_source2target c = 1) as ->
          by (apply Hc1; intros t' Ef; exact (Hall c t' (or_introl eq_refl) Ef)).
        simpl. f_equal. apply Hiff. intros c' t' Hin. apply Hall. now right. }
    rewrite <- Hiff. unfold push_if_valid.
    destruct (count_valid map_source2target res_seq =? length res_seq) eqn:E.
    + apply Nat.eqb_eq in E. tauto.
    + apply Nat.eqb_neq in E. split; [discriminate | contradiction].
  - unfold push_if_valid. destruct (_ =? _); [now left | now right].
Qed.

(** [G] is a target of [A] and [A] is a target of itself: ["AC"] is
    appended. *)
Lemma valid_sequence_duplicate_free_targets_witness :
  push_if_valid [("A"%char, ["A"%char; "G"%char])] (str "AC") = [str "AC"].
Proof.
  apply (proj1 (@valid_sequence_duplicate_free_targets
                  [("A"%char, ["A"%char; "G"%char])] (str "AC")
                  ltac:(intros c targets [<- | [<- | []]] [= <-];
                        repeat constructor; simpl; intuition discriminate))).
  intros c targets [<- | [<- | []]] [= <-]. now left.
Defined.

(* ===================================================================== *)
(** ** The substitution map (lines 98-168) *)
(* ===================================================================== *)

(** The targets of the rules with source [c], in the order of the rules *)
Definition targets_of (rules : list (ascii * ascii)) (c : ascii) : list ascii :=
  map snd (filter (fun r => Ascii.eqb (fst r) c) rules).

Lemma foldM_parse_mapping_collects (l : list String) :
  forall m0 m, map_sorted m0 -> foldM parse_mapping l m0 = Returns m ->
  exists rules,
    Forall2 (fun s r => rule_fields s = Returns r) l rules /\
    map_sorted m /\
    (forall c, In c (map_keys m) <-> In c (map_keys m0) \/ In c (map fst rules)) /\
    (forall c, map_get [] c m = map_get [] c m0 ++ targets_of rules c).
Proof.
  induction l as [|s l IH]; intros m0 m Hs E; simpl in E.
  - injection E as <-. exists []. split; [constructor|]. split; [exact Hs|].
    split; [simpl; tauto|]. intros c. simpl. now rewrite app_nil_r.
  - rewrite parse_mapping_fields in E.
    destruct (rule_fields s) as [[c0 t0]| | |] eqn:Es; simpl in E; try discriminate.
    apply IH in E; [|now apply map_upsert_sorted].
    destruct E as (rules & HF & Hsorted & Hkeys & Hget).
    exists ((c0, t0) :: rules). split; [now constructor|]. split; [exact Hsorted|].
    split.
    + intros c. rewrite Hkeys. unfold map_push_back. rewrite map_keys_upsert.
      simpl. intuition.
    + intros c. rewrite Hget. unfold targets_of, map_push_back. simpl.
      destruct (Ascii.eqb c0 c) eqn:Ec.
      * apply Ascii.eqb_eq in Ec. subst c0.
        rewrite map_get_upsert_same by exact Hs. unfold map_get.
        destruct (map_find c m0); simpl; [now rewrite <- app_assoc | reflexivity].
      * apply Ascii.eqb_neq in Ec.
        rewrite map_get_upsert_other by congruence. reflexivity.
Qed.

(** X3: Lines 98-104: when the substitution rules are read without an error,
    the sources of the map are the sources of the rules, and the vector of
    a source holds the targets of its rules in the order of the rules, a
    target listed twice included. *)
Theorem parse_mappings_collects (mappings : list String)
  (map_source_to_targets : omap ascii (list ascii)) :
  parse_mappings mappings = Returns map_source_to_targets ->
  exists rules,
    Forall2 (fun s r => rule_fields s = Returns r) mappings rules /\
    map_sorted map_source_to_targets /\
    (forall c, In c (map_keys map_source_to_targets) <-> In c (map fst rules)) /\
    (forall c, map_get [] c map_source_to_targets = targets_of rules c).
Proof.
  intros E. apply foldM_parse_mapping_collects in E; [|exact I].
  destruct E as (rules & HF & Hs & Hkeys & Hget).
  exists rules. split; [exact HF|]. split; [exact Hs|]. split.
  - intros c. rewrite Hkeys. simpl. tauto.
  - intros c. now rewrite Hget.
Qed.

(** Two rules for [A] around one for [U] *)
Lemma parse_mappings_collects_witness :
  exists rules,
    Forall2 (fun s r => rule_fields s = Returns r)
      [str "A->G"; str "U->X"; str "A->C"] rules /\
    map_sorted [("A"%char, ["G"%char; "C"%char]); ("U"%char, ["X"%char])] /\
    (forall c, In c (map_keys [("A"%char, ["G"%char; "C"%char]); ("U"%char, ["X"%char])])
               <-> In c (map fst rules)) /\
    (forall c, map_get [] c [("A"%char, ["G"%char; "C"%char]); ("U"%char, ["X"%char])]
               = targets_of rules c).
Proof.
  apply (@parse_mappings_collects [str "A->G"; str "U->X"; str "A->C"]).
  reflexivity.
Defined.

Lemma erase_trivial_spec (m : omap ascii (list ascii)) :
  forall seq,
    fst (erase_trivial m seq) = filter (fun e => negb (length (snd e) =? 1)) m
    /\ length (snd (erase_trivial m seq)) = length seq.
Proof.
  induction m as [|[source targets] m IH]; intros seq; [now split|].
  cbn [erase_trivial filter snd].
  destruct targets as [|first_target [|second rest]]; cbn [length Nat.eqb negb].
  - destruct (IH seq) as [E1 E2]. destruct (erase_trivial m seq). simpl in *.
    split; [now f_equal | exact E2].
  - destruct (Ascii.eqb source first_target); [apply IH|].
    destruct (IH (substitute_char source first_target seq)) as [E1 E2].
    split; [exact E1|]. rewrite E2. apply length_map.
  - destruct (IH seq) as [E1 E2]. destruct (erase_trivial m seq). simpl in *.
    split; [now f_equal | exact E2].
Qed.

Lemma parse_mappings_not_empty (mappings : list String)
  (m : omap ascii (list ascii)) :
  parse_mappings mappings = Returns m ->
  map_sorted m /\ forall e, In e m -> snd e <> [].
Proof.
  unfold parse_mappings.
  apply (foldM_invariant
           (fun m : omap ascii (list ascii) =>
              map_sorted m /\ forall e, In e m -> snd e <> [])).
  - intros m0 s m1 _ [Hs Hne] E. rewrite parse_mapping_fields in E.
    destruct (rule_fields s) as [[c0 t0]| | |]; simpl in E; try discriminate.
    injection E as <-. split; [now apply map_upsert_sorted|].
    intros e He. apply In_map_upsert in He; [|exact Hs].
    destruct He as [-> | He]; [|now apply Hne]. simpl.
    destruct (map_find c0 m0) as [v|]; [|discriminate].
    intros E. now apply app_eq_nil in E.
  - split; [exact I | intros e []].
Qed.

(** X4: Lines 98-168: the map handed to the expander holds exactly the sources
    with two or more targets, in key order, with the vectors as read; the
    sources with one target are erased from it. The renames of lines
    150-168 keep the length of the restriction sequence. *)
Theorem only_multi_target_rules_are_kept (mappings : list String)
  (sequence_restriction : String) (max_length : Z)
  (map_source_to_targets : omap ascii (list ascii)) (restriction : String) :
  effective_restriction mappings sequence_restriction max_length
  = Returns (map_source_to_targets, restriction) ->
  (exists parsed,
     parse_mappings mappings = Returns parsed /\
     map_source_to_targets = filter (fun e => 2 <=? length (snd e)) parsed)
  /\ map_sorted map_source_to_targets
  /\ (forall c targets, In (c, targets) map_source_to_targets -> 2 <= length targets)
  /\ (sequence_restriction <> [] -> length restriction = length sequence_restriction).
Proof.
  unfold effective_restriction. intros E.
  destruct (parse_mappings mappings) as [parsed| | |] eqn:Ep; simpl in E;
    try discriminate.
  destruct (extract_source_nucleotides mappings) as [sources| | |]; simpl in E;
    try discriminate.
  injection E as E. apply parse_mappings_not_empty in Ep. destruct Ep as [Hs Hne].
  destruct (erase_trivial_spec parsed
              (restriction_or_all sources sequence_restriction max_length))
    as [E1 E2].
  rewrite E in E1, E2. simpl in E1, E2.
  assert (map_source_to_targets = filter (fun e => 2 <=? length (snd e)) parsed)
    as Hfilter.
  { rewrite E1. apply filter_ext_in. intros e He. specialize (Hne e He).
    destruct (snd e) as [|x [|y l]]; [contradiction | reflexivity | reflexivity]. }
  split; [exists parsed; now split|]. split; [|split].
  - rewrite Hfilter. now apply map_sorted_filter.
  - intros c targets Hin. rewrite Hfilter in Hin. apply filter_In in Hin.
    destruct Hin as [_ Hl]. now apply Nat.leb_le in Hl.
  - intros Hne'. rewrite E2. unfold restriction_or_all.
    destruct sequence_restriction; [contradiction | reflexivity].
Qed.

(** [A] has two targets and stays; [U->X] is a rename of the sequence. *)
Lemma only_multi_target_rules_are_kept_witness :
  (exists parsed,
     parse_mappings [str "A->G"; str "U->X"; str "A->C"] = Returns parsed /\
     [("A"%char, ["G"%char; "C"%char])]
     = filter (fun e => 2 <=? length (snd e)) parsed)
  /\ map_sorted [("A"%char, ["G"%char; "C"%char])]
  /\ (forall c targets, In (c, targets) [("A"%char, ["G"%char; "C"%char])]
                        -> 2 <= length targets)
  /\ (str "AUA" <> [] -> length (str "AXA") = length (str "AUA")).
Proof.
  apply (@only_multi_target_rules_are_kept
           [str "A->G"; str "U->X"; str "A->C"] (str "AUA") 2).
  reflexivity.
Defined.

(* ===================================================================== *)
(** ** The entries of the returned maps (lines 331-471) *)
(* ===================================================================== *)

Lemma In_map_erase {K V} `{Ordered K} (k : K) (m : omap K V) (e : K * V) :
  In e (map_erase k m) -> In e m.
Proof.
  induction m as [|[h v] t IH]; simpl; [tauto|].
  destruct (keq k h); [now right|]. intros [<- | He]; [now left | right; auto].
Qed.

Section ResultEntries.
Context `{FormulaLibrary}.

Lemma fill_formula2mass_entries (all : list EmpiricalFormula) (e : String * Mass) :
  In e (fill_formula2mass all) ->
  exists c, In c all /\ toString c = fst e /\ getMonoWeight c = snd e.
Proof.
  unfold fill_formula2mass.
  enough (map_sorted
            (fold_left (fun f2m c => map_set (toString c) (getMonoWeight c) f2m)
               all [])
          /\ forall e,
               In e (fold_left
                       (fun f2m c => map_set (toString c) (getMonoWeight c) f2m)
                       all [])
               -> exists c, In c all /\ toString c = fst e /\ getMonoWeight c = snd e)
    as [_ Hall] by (apply Hall).
  apply (fold_left_invariant
           (fun f2m : omap String Mass =>
              map_sorted f2m /\
              forall e, In e f2m ->
                exists c, In c all /\ toString c = fst e /\ getMonoWeight c = snd e)).
  - intros f2m c Hc [Hs Hall]. split; [now apply map_upsert_sorted|].
    intros e' He. apply In_map_upsert in He; [|exact Hs].
    destruct He as [-> | He]; [|now apply Hall].
    exists c. now repeat split.
  - split; [exact I | intros e' []].
Qed.

Lemma erase_empty_entries (f2m : omap String Mass) (mc : omap String (oset String))
  (e : String * Mass) :
  In e (fst (erase_empty f2m mc)) -> In e f2m.
Proof.
  unfold erase_empty. cbn [fst]. revert f2m.
  induction mc as [|[k s] mc IH]; intros f2m; simpl; [tauto|].
  intros He. apply IH in He. destruct (is_empty s); [|exact He].
  now apply In_map_erase in He.
Qed.

Lemma erase_empty_sorted (f2m : omap String Mass) (mc : omap String (oset String)) :
  map_sorted f2m -> map_sorted (fst (erase_empty f2m mc)).
Proof.
  unfold erase_empty. cbn [fst]. revert f2m.
  induction mc as [|[k s] mc IH]; intros f2m Hs; simpl; [exact Hs|].
  apply IH. destruct (is_empty s); [now apply map_erase_sorted | exact Hs].
Qed.

(** X12: Lines 331-334 and 453-471: a mass in the returned [formula2mass] is the
    monoisotopic weight of a formula whose string is the key, and that
    formula is a combination of the generation or, with the flag set, the
    formula of the cysteine adduct. *)
Theorem returned_masses_are_monoisotopic (fuel : nat)
  (target_nucleotides nt_groups : list String) (can_xl : oset ascii)
  (mappings modifications : list String) (sequence_restriction : String)
  (cysteine_adduct : bool) (max_length : Z) (r : NuXLModificationMassesResult) :
  initModificationMassesNA fuel target_nucleotides nt_groups can_xl mappings
    modifications sequence_restriction cysteine_adduct max_length = Returns r ->
  exists cysteine_adduct_formula targets mods all mc,
    newFormula cysteine_adduct_string = Returns cysteine_adduct_formula /\
    parse_target_nucleotides target_nucleotides = Returns targets /\
    parse_modifications modifications = Returns mods /\
    chain_extension fuel max_length targets
      (fst (single_nucleotides targets mods)) (snd (single_nucleotides targets mods))
    = Returns (all, mc) /\
    forall formula mass, In (formula, mass) (formula2mass r) ->
      exists f, toString f = formula /\ getMonoWeight f = mass /\
                (In f all \/ (cysteine_adduct = true /\ f = cysteine_adduct_formula)).
Proof.
  intros Hrun. apply initModificationMassesNA_Returns in Hrun.
  destruct Hrun as (cys & targets & mst & restriction & mods & all & mc
                    & Hcys & Htargets & _ & Hmods & Hchain & Hr).
  exists cys, targets, mods, all, mc. repeat (split; [assumption|]).
  intros formula mass Hin.
  assert (forall e,
             In e (fst (filtered nt_groups can_xl max_length
                          (generateTargetSequences restriction 0 mst) all mc)) ->
             exists c, In c all /\ toString c = fst e /\ getMonoWeight c = snd e)
    as Hfiltered.
  { intros e He. unfold filtered in He. cbv zeta in He.
    apply erase_empty_entries in He. now apply fill_formula2mass_entries. }
  unfold add_cysteine_adduct in Hr. destruct cysteine_adduct.
  - injection Hr as Hf _. rewrite Hf in Hin. unfold map_set in Hin.
    apply In_map_upsert in Hin.
    + destruct Hin as [[= -> ->] | Hin].
      * exists cys. split; [reflexivity|]. split; [reflexivity|]. right. now split.
      * destruct (Hfiltered _ Hin) as (c & Hc & E1 & E2). exists c.
        split; [exact E1|]. split; [exact E2 | now left].
    + unfold filtered. cbv zeta. apply erase_empty_sorted.
      apply fill_formula2mass_keys.
  - injection Hr as Hf _. rewrite Hf in Hin.
    destruct (Hfiltered _ Hin) as (c & Hc & E1 & E2). exists c.
    split; [exact E1|]. split; [exact E2 | now left].
Qed.

(** When no composition can pass the rules of the filter, the filter
    leaves nothing. *)
Lemma filtered_nothing (nt_groups : list String) (can_xl : oset ascii)
  (max_length : Z) (target_sequences : list String)
  (all : list EmpiricalFormula) (mc : omap String (oset String)) :
  mc_wf mc -> keys_generated all mc ->
  (forall composition,
     passes_basic nt_groups can_xl max_length composition = true ->
     containment_violated target_sequences composition = false -> False) ->
  fst (filtered nt_groups can_xl max_length target_sequences all mc) = []
  /\ snd (filtered nt_groups can_xl max_length target_sequences all mc) = [].
Proof.
  intros Hwf Hgen Hnone.
  destruct (filtered_spec nt_groups can_xl max_length target_sequences Hwf Hgen)
    as (Hwf' & Hkeys & Hne & Hpass).
  set (fm := filtered nt_groups can_xl max_length target_sequences all mc) in *.
  assert (snd fm = []) as Hmc.
  { destruct (snd fm) as [|[k s] rest] eqn:E; [reflexivity|]. exfalso.
    destruct s as [|y s]; [now apply (Hne k []); [left|]|].
    assert (In y (ambiguities ((k, y :: s) :: rest) k)) as Hy.
    { unfold ambiguities, map_get. simpl. rewrite keq_refl. now left. }
    apply Hpass in Hy. destruct Hy as [Hbasic Hcont].
    exact (Hnone _ Hbasic Hcont). }
  split; [|exact Hmc].
  destruct (fst fm) as [|[k m] rest] eqn:E; [reflexivity|]. exfalso.
  rewrite Hmc in Hkeys. apply (Hkeys k). now left.
Qed.

(** X13: Lines 383-398: a retained ambiguity has a cross-linkable nucleotide and
    at most [max_length] nucleotides, so with an empty cross-linkable set
    or [max_length < 1] the filter leaves nothing: both maps are empty,
    or hold the cysteine adduct alone when its flag is set. *)
Theorem nothing_passes_without_cross_linker (fuel : nat)
  (target_nucleotides nt_groups : list String) (can_xl : oset ascii)
  (mappings modifications : list String) (sequence_restriction : String)
  (cysteine_adduct : bool) (max_length : Z) (r : NuXLModificationMassesResult) :
  initModificationMassesNA fuel target_nucleotides nt_groups can_xl mappings
    modifications sequence_restriction cysteine_adduct max_length = Returns r ->
  can_xl = [] \/ (max_length < 1)%Z ->
  exists cysteine_adduct_formula,
    newFormula cysteine_adduct_string = Returns cysteine_adduct_formula /\
    formula2mass r
    = (if cysteine_adduct
       then [(toString cysteine_adduct_formula,
              getMonoWeight cysteine_adduct_formula)]
       else []) /\
    mod_combinations r
    = (if cysteine_adduct
       then [(toString cysteine_adduct_formula, [cysteine_adduct_string])]
       else []).
Proof.
  intros Hrun Hnone. apply initModificationMassesNA_Returns in Hrun.
  destruct Hrun as (cys & targets & mst & restriction & mods & all & mc
                    & Hcys & _ & _ & _ & Hchain & Hr).
  exists cys. split; [exact Hcys|].
  apply chain_extension_inv in Hchain. destruct Hchain as [Hwf Hgen].
  destruct (@filtered_nothing nt_groups can_xl max_length
              (generateTargetSequences restriction 0 mst) all mc Hwf Hgen)
    as [Hf2m Hmc].
  { intros composition Hbasic _. apply passes_basic_true in Hbasic.
    destruct Hbasic as (_ & (c & Hc & Hxl) & Hlen & _).
    destruct Hnone as [-> | Hlt]; [destruct Hxl|].
    destruct composition; [destruct Hc | simpl in Hlen; lia]. }
  rewrite Hmc, Hf2m in Hr. unfold add_cysteine_adduct in Hr.
  destruct cysteine_adduct; injection Hr as -> ->; split; reflexivity.
Qed.

(** X14: Lines 466-471: with the flag set, the result maps the string of the
    formula [C4H8S2O2] to its monoisotopic weight, replacing the mass of a
    generated combination with that string, and the ambiguities of that
    key hold the label ["C4H8S2O2"] and, beside it, exactly the
    ambiguities the filter left for the key. *)
Theorem cysteine_adduct_is_added (fuel : nat)
  (target_nucleotides nt_groups : list String) (can_xl : oset ascii)
  (mappings modifications : list String) (sequence_restriction : String)
  (max_length : Z) (r : NuXLModificationMassesResult) :
  initModificationMassesNA fuel target_nucleotides nt_groups can_xl mappings
    modifications sequence_restriction true max_length = Returns r ->
  exists cysteine_adduct_formula r',
    newFormula cysteine_adduct_string = Returns cysteine_adduct_formula /\
    initModificationMassesNA fuel target_nucleotides nt_groups can_xl mappings
      modifications sequence_restriction false max_length = Returns r' /\
    map_find (toString cysteine_adduct_formula) (formula2mass r)
    = Some (getMonoWeight cysteine_adduct_formula) /\
    (forall formula, formula <> toString cysteine_adduct_formula ->
       map_find formula (formula2mass r) = map_find formula (formula2mass r')) /\
    (forall formula s,
       In s (ambiguities (mod_combinations r) formula) <->
       (formula = toString cysteine_adduct_formula /\ s = cysteine_adduct_string)
       \/ In s (ambiguities (mod_combinations r') formula)).
Proof.
  intros Hrun. unfold initModificationMassesNA in *.
  destruct (newFormula cysteine_adduct_string) as [cys| | |]; simpl in *;
    try discriminate.
  destruct (parse_target_nucleotides target_nucleotides) as [targets| | |];
    simpl in *; try discriminate.
  destruct (effective_restriction mappings sequence_restriction max_length)
    as [[mst restriction]| | |]; simpl in *; try discriminate.
  destruct (parse_modifications modifications) as [mods| | |]; simpl in *;
    try discriminate.
  apply generate_and_filter_Returns in Hrun.
  destruct Hrun as (all & mc & Hchain & Hr).
  set (fm := filtered nt_groups can_xl max_length
               (generateTargetSequences restriction 0 mst) all mc) in *.
  exists cys, {| formula2mass := fst fm; mod_combinations := snd fm |}.
  split; [reflexivity|].
  assert (generate_and_filter fuel targets mods
            (generateTargetSequences restriction 0 mst) nt_groups can_xl false cys
            max_length
          = Returns {| formula2mass := fst fm; mod_combinations := snd fm |})
    as Hfalse.
  { unfold generate_and_filter.
    destruct (single_nucleotides targets mods) as [actual mc0]. cbn [fst snd] in *.
    rewrite Hchain. simpl. subst fm. unfold filtered. cbv zeta.
    destruct (restriction_filter _ _ _ _ _ _) as [mc_t [unique violates]].
    cbn [fst snd]. reflexivity. }
  split; [exact Hfalse|].
  pose proof Hchain as Hinv. apply chain_extension_inv in Hinv.
  destruct Hinv as [Hwf Hgen].
  destruct (filtered_spec nt_groups can_xl max_length
              (generateTargetSequences restriction 0 mst) Hwf Hgen)
    as (Hwf' & _).
  fold fm in Hwf'.
  assert (map_sorted (fst fm)) as Hs.
  { subst fm. unfold filtered. cbv zeta. apply erase_empty_sorted.
    apply fill_formula2mass_keys. }
  unfold add_cysteine_adduct in Hr. injection Hr as -> ->. cbn [formula2mass mod_combinations].
  split; [|split].
  - unfold map_set. now rewrite map_find_upsert_same.
  - intros formula Hne. unfold map_set. now rewrite map_find_upsert_other.
  - intros formula s. now apply ambiguities_insert.
Qed.

End ResultEntries.

Lemma scenario_result_with_cysteine_adduct :
  Scenario.run [str "A:"; str "U:"] true
  = Returns
      (Scenario.result
         [(SimpleFormulas.to_string Scenario.formula_AU, 653088392%Z);
          (str "C4H8O2S2", 151996572%Z);
          (SimpleFormulas.to_string Scenario.formula_U, 324035870%Z)]
         [(SimpleFormulas.to_string Scenario.formula_AU, [str "AU"]);
          (str "C4H8O2S2", [str "C4H8S2O2"]);
          (SimpleFormulas.to_string Scenario.formula_U, [str "U"])]).
Proof. reflexivity. Qed.

Lemma scenario_result_without_cross_linker :
  initModificationMassesNA (H := SimpleFormulas.library) 8
    Scenario.target_nucleotides [] [] [] [str "A:"; str "U:"] (str "AU") true 2
  = Returns
      (Scenario.result [(str "C4H8O2S2", 151996572%Z)]
         [(str "C4H8O2S2", [str "C4H8S2O2"])]).
Proof. reflexivity. Qed.

(** The mass of the key of [AU] in the scenario *)
Lemma returned_masses_are_monoisotopic_witness :
  exists f : SimpleFormulas.formula,
    SimpleFormulas.to_string f = SimpleFormulas.to_string Scenario.formula_AU /\
    SimpleFormulas.mono_weight f = 653088392%Z.
Proof.
  destruct (@returned_masses_are_monoisotopic SimpleFormulas.library 8
              Scenario.target_nucleotides [] Scenario.can_xl []
              [str "A:"; str "U:"] (str "AU") false 2 _ scenario_result)
    as (cys & targets & mods & all & mc & _ & _ & _ & _ & Hall).
  destruct (Hall (SimpleFormulas.to_string Scenario.formula_AU) 653088392%Z
              (or_introl eq_refl)) as (f & E1 & E2 & _).
  exists f. split; assumption.
Defined.

(** The scenario with an empty cross-linkable set and the cysteine adduct *)
Lemma nothing_passes_without_cross_linker_witness :
  exists cysteine_adduct_formula : SimpleFormulas.formula,
    newFormula (H := SimpleFormulas.library) cysteine_adduct_string
    = Returns cysteine_adduct_formula /\
    [(str "C4H8O2S2", 151996572%Z)]
    = [(SimpleFormulas.to_string cysteine_adduct_formula,
        SimpleFormulas.mono_weight cysteine_adduct_formula)] /\
    [(str "C4H8O2S2", [str "C4H8S2O2"])]
    = [(SimpleFormulas.to_string cysteine_adduct_formula, [cysteine_adduct_string])].
Proof.
  apply (@nothing_passes_without_cross_linker SimpleFormulas.library 8
           Scenario.target_nucleotides [] [] [] [str "A:"; str "U:"] (str "AU")
           true 2 _ scenario_result_without_cross_linker).
  now left.
Defined.

(** The scenario with the cysteine adduct *)
Lemma cysteine_adduct_is_added_witness :
  exists (cysteine_adduct_formula : SimpleFormulas.formula) r',
    newFormula (H := SimpleFormulas.library) cysteine_adduct_string
    = Returns cysteine_adduct_formula /\
    Scenario.run [str "A:"; str "U:"] false = Returns r' /\
    map_find (SimpleFormulas.to_string cysteine_adduct_formula)
      [(SimpleFormulas.to_string Scenario.formula_AU, 653088392%Z);
       (str "C4H8O2S2", 151996572%Z);
       (SimpleFormulas.to_string Scenario.formula_U, 324035870%Z)]
    = Some (SimpleFormulas.mono_weight cysteine_adduct_formula).
Proof.
  destruct (@cysteine_adduct_is_added SimpleFormulas.library 8
              Scenario.target_nucleotides [] Scenario.can_xl []
              [str "A:"; str "U:"] (str "AU") 2 _
              scenario_result_with_cysteine_adduct)
    as (cys & r' & Hcys & Hrun & Hmass & _).
  exists cys, r'. split; [exact Hcys|]. split; [exact Hrun | exact Hmass].
Defined.

(* ===================================================================== *)
(** ** No restriction sequence and no substitution rule *)
(* ===================================================================== *)

Lemma grow_rounds_no_source (rounds : nat) :
  grow_rounds rounds [] [] [] = [].
Proof. induction rounds as [|n IH]; simpl; [reflexivity | exact IH]. Qed.

Lemma effective_restriction_nothing_given (max_length : Z) :
  effective_restriction [] [] max_length = Returns ([], []).
Proof.
  unfold effective_restriction, parse_mappings, extract_source_nucleotides.
  simpl. unfold all_source_combinations. simpl.
  now rewrite grow_rounds_no_source.
Qed.

Section NothingGiven.
Context `{FormulaLibrary}.

(** X6: Lines 113-144 and 413-420: an empty restriction sequence is no absence
    of a restriction. Without substitution rules there are no source
    nucleotides, the generated restriction sequence is empty, the only
    target sequence is the empty string, and every ambiguity is rejected:
    both maps are empty, or hold the cysteine adduct alone when its flag
    is set. *)
Theorem empty_restriction_without_rules_rejects_all (fuel : nat)
  (target_nucleotides nt_groups : list String) (can_xl : oset ascii)
  (modifications : list String) (cysteine_adduct : bool) (max_length : Z)
  (r : NuXLModificationMassesResult) :
  initModificationMassesNA fuel target_nucleotides nt_groups can_xl []
    modifications [] cysteine_adduct max_length = Returns r ->
  generateTargetSequences [] 0 [] = [[]]
  /\ exists cysteine_adduct_formula,
       newFormula cysteine_adduct_string = Returns cysteine_adduct_formula /\
       formula2mass r
       = (if cysteine_adduct
          then [(toString cysteine_adduct_formula,
                 getMonoWeight cysteine_adduct_formula)]
          else []) /\
       mod_combinations r
       = (if cysteine_adduct
          then [(toString cysteine_adduct_formula, [cysteine_adduct_string])]
          else []).
Proof.
  intros Hrun. split; [reflexivity|].
  apply initModificationMassesNA_Returns in Hrun.
  destruct Hrun as (cys & targets & mst & restriction & mods & all & mc
                    & Hcys & _ & Heff & _ & Hchain & Hr).
  rewrite effective_restriction_nothing_given in Heff.
  injection Heff as <- <-.
  exists cys. split; [exact Hcys|].
  apply chain_extension_inv in Hchain. destruct Hchain as [Hwf Hgen].
  destruct (@filtered_nothing _ nt_groups can_xl max_length
              (generateTargetSequences [] 0 []) all mc Hwf Hgen)
    as [Hf2m Hmc].
  { intros composition Hbasic Hcont. apply passes_basic_true in Hbasic.
    destruct Hbasic as (_ & (c & Hc & _) & _).
    apply containment_violated_false in Hcont.
    destruct Hcont as (t & [<- | []] & Hnot).
    apply notInSeq_false_iff in Hnot.
    destruct Hnot as [-> | (l & Hw & _)]; [destruct Hc|].
    unfold window in Hw. destruct composition; [destruct Hc | simpl in Hw; lia]. }
  rewrite Hmc, Hf2m in Hr. unfold add_cysteine_adduct in Hr.
  destruct cysteine_adduct; injection Hr as -> ->; split; reflexivity.
Qed.

End NothingGiven.

Lemma scenario_result_nothing_given :
  initModificationMassesNA (H := SimpleFormulas.library) 8
    Scenario.target_nucleotides [] Scenario.can_xl [] [str "A:"; str "U:"] []
    false 2
  = Returns (Scenario.result [] []).
Proof. reflexivity. Qed.

(** The scenario without its restriction sequence *)
Lemma empty_restriction_without_rules_rejects_all_witness :
  generateTargetSequences [] 0 [] = [[]]
  /\ exists cysteine_adduct_formula : SimpleFormulas.formula,
       newFormula (H := SimpleFormulas.library) cysteine_adduct_string
       = Returns cysteine_adduct_formula /\
       @nil (String * Z) = [] /\ @nil (String * oset String) = [].
Proof.
  apply (@empty_restriction_without_rules_rejects_all SimpleFormulas.library 8
           Scenario.target_nucleotides [] Scenario.can_xl [str "A:"; str "U:"]
           false 2 _ scenario_result_nothing_given).
Defined.

(* ===================================================================== *)
(** ** Windows of a longer sequence (lines 50-67) *)
(* ===================================================================== *)

Lemma substr_embedded (pre res post : String) (l k : nat) :
  l + k <= length res ->
  substr (pre ++ res ++ post) (length pre + l) k = substr res l k.
Proof.
  intros Hw. unfold substr.
  rewrite skipn_app, skipn_all2 by lia.
  replace (length pre + l - length pre) with l by lia. simpl.
  rewrite skipn_app. replace (l - length res) with 0 by lia. simpl.
  rewrite firstn_app, length_skipn.
  replace (k - (length res - l)) with 0 by lia. simpl. apply app_nil_r.
Qed.

(** X7: [notInSeq] on a sequence that holds [res_seq] between two other
    strings: a query found in [res_seq] is found there too, and so is
    every query that is a substring of [res_seq] as it stands. *)
Theorem notInSeq_found_in_longer_sequence (pre res_seq post query : String) :
  (ordered_substring res_seq query -> notInSeq res_seq query = false)
  /\ (notInSeq res_seq query = false ->
      notInSeq (pre ++ res_seq ++ post) query = false).
Proof.
  split.
  - intros (l & Hw & E). apply notInSeq_false_iff. right. exists l.
    split; [exact Hw | now rewrite E].
  - rewrite !notInSeq_false_iff. intros [-> | (l & Hw & P)]; [now left|].
    right. exists (length pre + l). unfold window in *. split.
    + rewrite !length_app. lia.
    + now rewrite substr_embedded.
Qed.

(** ["UA"] is found in ["AU"], and in ["GAUC"] *)
Lemma notInSeq_found_in_longer_sequence_witness :
  notInSeq (str "G" ++ str "AU" ++ str "C") (str "UA") = false.
Proof.
  apply (proj2 (notInSeq_found_in_longer_sequence
                  (str "G") (str "AU") (str "C") (str "UA"))).
  reflexivity.
Defined.

(* ===================================================================== *)
(** ** The target nucleotides (lines 86-96) *)
(* ===================================================================== *)

Lemma find_app {A} (p : A -> bool) (l1 l2 : list A) :
  find p (l1 ++ l2)
  = match find p l1 with Some x => Some x | None => find p l2 end.
Proof.
  induction l1 as [|x l1 IH]; simpl; [reflexivity|]. now destruct (p x).
Qed.

Section TargetNucleotides.
Context `{FormulaLibrary}.

(** Lines 90-95: the symbol and the formula that one string gives; the
    formula is constructed first. *)
Definition target_fields (s : String) : outcome (String * EmpiricalFormula) :=
  let fields := split (str "=") s in
  f1 <- vector_at fields 1 ;;
  formula <- newFormula f1 ;;
  f0 <- vector_at fields 0 ;;
  Returns (f0, formula).

(** The formula of the last of the entries with the symbol [k] *)
Definition last_definition (entries : list (String * EmpiricalFormula))
  (k : String) : option EmpiricalFormula :=
  option_map snd (find (fun e => String_eqb (fst e) k) (rev entries)).

Lemma parse_target_nucleotide_fields (m : omap String EmpiricalFormula)
  (s : String) :
  parse_target_nucleotide m s
  = bind (target_fields s) (fun e => Returns (map_set (fst e) (snd e) m)).
Proof.
  unfold parse_target_nucleotide, target_fields.
  destruct (vector_at _ 1) as [f1| | |]; simpl; try reflexivity.
  destruct (newFormula f1) as [formula| | |]; simpl; try reflexivity.
  destruct (vector_at _ 0) as [f0| | |]; simpl; reflexivity.
Qed.

Lemma foldM_parse_target_nucleotide (l : list String) :
  forall m0 m, map_sorted m0 -> foldM parse_target_nucleotide l m0 = Returns m ->
  exists entries,
    Forall2 (fun s e => target_fields s = Returns e) l entries /\
    map_sorted m /\
    forall k, map_find k m
              = match last_definition entries k with
                | Some f => Some f
                | None => map_find k m0
                end.
Proof.
  induction l as [|s l IH]; intros m0 m Hs E; simpl in E.
  - injection E as <-. exists []. split; [constructor|]. now split.
  - rewrite parse_target_nucleotide_fields in E.
    destruct (target_fields s) as [[k0 f0]| | |] eqn:Es; simpl in E;
      try discriminate.
    apply IH in E; [|now apply map_upsert_sorted].
    destruct E as (entries & HF & Hsorted & Hfind).
    exists ((k0, f0) :: entries). split; [now constructor|].
    split; [exact Hsorted|].
    intros k. rewrite Hfind. unfold last_definition. simpl.
    rewrite find_app. destruct (find _ (rev entries)) as [e|]; [reflexivity|].
    simpl. unfold map_set. destruct (String_eqb k0 k) eqn:Ek.
    + apply String_eqb_eq in Ek. subst k0. simpl.
      now rewrite map_find_upsert_same.
    + assert (k <> k0) as Hne.
      { intros ->. unfold String_eqb in Ek. now rewrite keq_refl in Ek. }
      simpl. now rewrite map_find_upsert_other.
Qed.

(** X8: Lines 86-96: when the target nucleotides are read without an error,
    a symbol has the formula of the last string that defines it, and a
    symbol that no string defines has none. *)
Theorem last_target_nucleotide_definition_wins (target_nucleotides : list String)
  (map_target_to_formula : omap String EmpiricalFormula) :
  parse_target_nucleotides target_nucleotides = Returns map_target_to_formula ->
  exists entries,
    Forall2 (fun s e => target_fields s = Returns e) target_nucleotides entries /\
    map_sorted map_target_to_formula /\
    forall k, map_find k map_target_to_formula = last_definition entries k.
Proof.
  intros E. apply foldM_parse_target_nucleotide in E; [|exact I].
  destruct E as (entries & HF & Hs & Hfind).
  exists entries. split; [exact HF|]. split; [exact Hs|].
  intros k. rewrite Hfind. now destruct (last_definition entries k).
Qed.

End TargetNucleotides.

(** [U] defined twice: the second formula is kept. *)
Lemma last_target_nucleotide_definition_wins_witness :
  exists entries,
    Forall2 (fun s e => target_fields (H := SimpleFormulas.library) s = Returns e)
      [str "U=C10H14N5O7P"; str "U=C9H13N2O9P"] entries /\
    map_sorted [(str "U", Scenario.formula_U)] /\
    forall k, map_find k [(str "U", Scenario.formula_U)]
              = last_definition (H := SimpleFormulas.library) entries k.
Proof.
  apply (@last_target_nucleotide_definition_wins SimpleFormulas.library
           [str "U=C10H14N5O7P"; str "U=C9H13N2O9P"]).
  reflexivity.
Defined.

(* ===================================================================== *)
(** ** The strings of the ambiguities (lines 270-287, 321-325, 357-369) *)
(* ===================================================================== *)

Lemma find_char_app_absent (c : ascii) (n s : String) :
  ~ In c n ->
  find_char c (n ++ s) = option_map (Nat.add (length n)) (find_char c s).
Proof.
  induction n as [|x n IH]; intros Hn; simpl.
  - now destruct (find_char c s).
  - destruct (Ascii.eqb x c) eqn:E.
    + apply Ascii.eqb_eq in E. subst x. elim Hn. now left.
    + rewrite IH by (intros Hin; apply Hn; now right).
      now destruct (find_char c s).
Qed.

(** Lines 357-366 on a string that starts with nucleotides without a sign *)
Lemma strip_modifications_app (n s : String) :
  ~ In "+"%char n -> ~ In "-"%char n ->
  strip_modifications (n ++ s) = n ++ strip_modifications s.
Proof.
  intros Hp Hm. unfold strip_modifications, prefix.
  rewrite !find_char_app_absent by assumption.
  destruct (find_char "-" s) as [a|], (find_char "+" s) as [b|]; simpl;
    try reflexivity.
  - rewrite Nat.add_min_distr_l. now rewrite firstn_app_2.
  - now rewrite firstn_app_2.
  - now rewrite firstn_app_2.
Qed.

Section AmbiguityStrings.
Context `{FormulaLibrary}.

(** Lines 276-286: what one subformula appends to the nucleotide string *)
Definition subformula_string (sf : NucleotideModificationSubFormula) : String :=
  (if snd sf then str "-" else str "+") ++ toString (fst sf).

Lemma modified_nucleotide_string (N : String) (F : EmpiricalFormula)
  (nt_mod : NucleotideModification) :
  snd (modified_nucleotide N F nt_mod) = N ++ concat (map subformula_string nt_mod).
Proof.
  unfold modified_nucleotide. revert N F.
  induction nt_mod as [|sf l IH]; intros N F; simpl.
  - now rewrite app_nil_r.
  - unfold subformula_string at 1.
    destruct (snd sf); rewrite IH, <- !app_assoc; reflexivity.
Qed.

Lemma strip_modifications_signs (l : NucleotideModification) :
  strip_modifications (concat (map subformula_string l)) = [].
Proof.
  destruct l as [|sf l]; [reflexivity|]. simpl.
  unfold subformula_string at 1, strip_modifications.
  destruct (snd sf); simpl.
  - now destruct (option_map S _).
  - destruct (option_map S _) as [a|]; [|reflexivity].
    unfold min_pos. now rewrite Nat.min_0_r.
Qed.

(** X10: The string of an ambiguity is a chain of unmodified nucleotides put in
    front of the string of one modified nucleotide, which is the nucleotide
    followed by its subformulas with their signs. When no symbol holds a
    ['+'] or ['-'], lines 357-369 recover the nucleotides of the chain and
    the modified nucleotide, and the composition is a rearrangement of
    them. *)
Theorem ambiguity_string_nucleotides (chain : list String) (N : String)
  (F : EmpiricalFormula) (nt_mod : NucleotideModification) :
  (forall n, In n (N :: chain) -> ~ In "+"%char n /\ ~ In "-"%char n) ->
  strip_modifications (concat chain ++ snd (modified_nucleotide N F nt_mod))
  = concat chain ++ N
  /\ Permutation
       (nucleotide_composition (concat chain ++ snd (modified_nucleotide N F nt_mod)))
       (concat chain ++ N).
Proof.
  intros Hfree.
  assert (strip_modifications (concat chain ++ snd (modified_nucleotide N F nt_mod))
          = concat chain ++ N) as E.
  { rewrite modified_nucleotide_string.
    assert (~ In "+"%char (concat chain) /\ ~ In "-"%char (concat chain)) as [Hp Hm].
    { split; intros Hin; apply in_concat in Hin; destruct Hin as (n & Hn & Hc);
        destruct (Hfree n (or_intror Hn)); contradiction. }
    rewrite strip_modifications_app by assumption.
    destruct (Hfree N (or_introl eq_refl)) as [HpN HmN].
    rewrite strip_modifications_app by assumption.
    now rewrite strip_modifications_signs, app_nil_r. }
  split; [exact E|]. unfold nucleotide_composition. rewrite E.
  apply sort_chars_perm.
Qed.

(** X9: Lines 268-300: the set of line 267 is looked up and never filled, so
    no modification is skipped. After the loop the list of combinations
    holds one formula for every modification listed for every target
    nucleotide, in the order of the map and of the listing, a modification
    listed twice included. *)
Theorem listed_modifications_are_never_skipped
  (map_target_to_formula : omap String EmpiricalFormula)
  (map_to_nucleotide_modifications : omap String NucleotideModifications) :
  fst (single_nucleotides map_target_to_formula map_to_nucleotide_modifications)
  = flat_map
      (fun entry =>
         map (fun nt_mod => fst (modified_nucleotide (fst entry) (snd entry) nt_mod))
           (map_get [] (fst entry) map_to_nucleotide_modifications))
      map_target_to_formula.
Proof.
  unfold single_nucleotides.
  assert (forall N F nt_mods st,
             fst (fold_left (add_modified_nucleotide N F) nt_mods st)
             = fst st ++ map (fun nt_mod => fst (modified_nucleotide N F nt_mod)) nt_mods)
    as Hinner.
  { intros N F nt_mods. induction nt_mods as [|nt_mod l IH]; intros st; simpl.
    - now rewrite app_nil_r.
    - rewrite IH, add_modified_nucleotide_eq. simpl. now rewrite <- app_assoc. }
  assert (forall targets st,
             fst (fold_left (add_target_nucleotide map_to_nucleotide_modifications)
                    targets st)
             = fst st
               ++ flat_map
                    (fun entry =>
                       map (fun nt_mod =>
                              fst (modified_nucleotide (fst entry) (snd entry) nt_mod))
                         (map_get [] (fst entry) map_to_nucleotide_modifications))
                    targets) as Houter.
  { induction targets as [|e targets IH]; intros st; simpl.
    - now rewrite app_nil_r.
    - rewrite IH. unfold add_target_nucleotide at 1. rewrite Hinner.
      now rewrite <- app_assoc. }
  now rewrite Houter.
Qed.

End AmbiguityStrings.

(** ["A"] in front of the string of [U] less water *)
Lemma ambiguity_string_nucleotides_witness :
  strip_modifications
    (concat [str "A"]
     ++ snd (modified_nucleotide (H := SimpleFormulas.library) (str "U")
               Scenario.formula_U [(Scenario.water, true)]))
  = concat [str "A"] ++ str "U"
  /\ Permutation
       (nucleotide_composition
          (concat [str "A"]
           ++ snd (modified_nucleotide (H := SimpleFormulas.library) (str "U")
                     Scenario.formula_U [(Scenario.water, true)])))
       (concat [str "A"] ++ str "U").
Proof.
  apply (@ambiguity_string_nucleotides SimpleFormulas.library [str "A"] (str "U")
           Scenario.formula_U [(Scenario.water, true)]).
  intros n [<- | [<- | []]]; split; simpl; intuition discriminate.
Defined.

(* ===================================================================== *)
(** ** At most one modified nucleotide in a chain (lines 256-329) *)
(* ===================================================================== *)

Section ChainShape.
Context `{FormulaLibrary}.
Variable targets : omap String EmpiricalFormula.
Variable mods : omap String NucleotideModifications.

(** The string of a modification listed for a target nucleotide *)
Definition modified_nucleotide_string_of (x : String) : Prop :=
  exists N F nt_mod,
    In (N, F) targets /\ In nt_mod (map_get [] N mods) /\
    x = snd (modified_nucleotide N F nt_mod).

(** Target nucleotides in front of the string of one modified nucleotide *)
Definition chained (x : String) : Prop :=
  exists chain s0,
    (forall n, In n chain -> In n (map_keys targets)) /\
    modified_nucleotide_string_of s0 /\ x = concat chain ++ s0.

Definition all_chained (mc : omap String (oset String)) : Prop :=
  mc_wf mc /\ forall k x, In x (ambiguities mc k) -> chained x.

Lemma chained_cons (N x : String) :
  In N (map_keys targets) -> chained x -> chained (N ++ x).
Proof.
  intros HN (chain & s0 & Hchain & Hs0 & ->). exists (N :: chain), s0.
  split; [|split; [exact Hs0 | simpl; now rewrite app_assoc]].
  intros n [<- | Hn]; [exact HN | now apply Hchain].
Qed.

Lemma single_nucleotides_chained : all_chained (snd (single_nucleotides targets mods)).
Proof.
  unfold single_nucleotides.
  enough (forall l st, incl l targets -> all_chained (snd st) ->
            all_chained (snd (fold_left (add_target_nucleotide mods) l st))) as Hgen.
  { apply Hgen; [apply incl_refl|]. split; [exact mc_wf_nil | intros k x []]. }
  induction l as [|[N F] l IH]; intros st Hincl Hst; simpl; [exact Hst|].
  apply IH; [intros e He; apply Hincl; now right|].
  unfold add_target_nucleotide. cbn [fst snd].
  assert (In (N, F) targets) as HN by (apply Hincl; now left).
  enough (forall nt_mods st0, incl nt_mods (map_get [] N mods) ->
            all_chained (snd st0) ->
            all_chained (snd (fold_left (add_modified_nucleotide N F) nt_mods st0)))
    as Hinner by (apply Hinner; [apply incl_refl | exact Hst]).
  induction nt_mods as [|nt_mod nt_mods IHm]; intros st0 Hincl0 [Hwf Hall]; simpl;
    [now split|].
  apply IHm; [intros e He; apply Hincl0; now right|].
  rewrite add_modified_nucleotide_eq. cbn [snd]. split; [now apply mc_wf_insert|].
  intros k x Hx. apply ambiguities_insert in Hx; [|exact Hwf].
  destruct Hx as [[_ ->] | Hx]; [|now apply (Hall k)].
  exists [], (snd (modified_nucleotide N F nt_mod)).
  split; [intros n []|]. split; [|reflexivity].
  exists N, F, nt_mod. split; [exact HN|]. split; [|reflexivity].
  apply Hincl0. now left.
Qed.

Lemma extend_ambiguities_chained (fuel : nat) (N src dst : String) :
  In N (map_keys targets) ->
  forall it mc mc',
    all_chained mc ->
    (forall s, it = Some s -> In s (ambiguities mc src)) ->
    extend_ambiguities fuel N src dst it mc = Returns mc' ->
    all_chained mc'.
Proof.
  intros HN. induction fuel as [|fuel IH]; intros [y|] mc mc' [Hwf Hall] Hit Hrun;
    simpl in Hrun; try discriminate.
  - injection Hrun as <-. now split.
  - pose proof (mc_wf_insert dst (N ++ y) Hwf) as Hwf1.
    apply IH in Hrun; [exact Hrun | |].
    + split; [exact Hwf1|]. intros k x Hx.
      apply ambiguities_insert in Hx; [|exact Hwf].
      destruct Hx as [[_ ->] | Hx]; [|now apply (Hall k)].
      apply chained_cons; [exact HN|]. apply (Hall src). now apply Hit.
    + intros s Hs. pose proof (ambiguities_sorted src Hwf1) as Hsorted.
      unfold ambiguities in *.
      now destruct (set_next_Some _ _ Hsorted Hs) as (Hin & _).
  - injection Hrun as <-. now split.
Qed.

Lemma extend_combination_chained (fuel : nat) (N : String) (F_N : EmpiricalFormula)
  (st st' : chain_state) (ac : EmpiricalFormula) :
  In N (map_keys targets) -> all_chained (cs_mc st) ->
  extend_combination fuel N F_N st ac = Returns st' -> all_chained (cs_mc st').
Proof.
  intros HN [Hwf Hall] Hrun. unfold extend_combination in Hrun.
  destruct st as [[new all] mc]. unfold cs_mc in *. cbn [snd] in *.
  inv_bind_as Hrun water Hw. inv_bind_as Hrun mc1 Hloop.
  injection Hrun as <-. cbn [snd].
  eapply extend_ambiguities_chained; [exact HN | | | exact Hloop].
  - split; [now apply mc_wf_touch|]. intros k x Hx.
    rewrite (ambiguities_touch _ _ Hwf) in Hx. now apply (Hall k).
  - intros s Hs. unfold ambiguities.
    destruct (map_get [] (toString ac) (map_touch [] (toString ac) mc));
      simpl in Hs; [discriminate|]. injection Hs as ->. now left.
Qed.

Lemma extension_round_chained (fuel : nat) (actual all : list EmpiricalFormula)
  (mc : omap String (oset String)) (st' : chain_state) :
  all_chained mc -> extension_round fuel targets actual all mc = Returns st' ->
  all_chained (cs_mc st').
Proof.
  intros Hmc Hrun. unfold extension_round in Hrun.
  enough (forall l st, incl l targets -> all_chained (cs_mc st) ->
            foldM (extend_by_nucleotide fuel actual) l st = Returns st' ->
            all_chained (cs_mc st')) as Hgen
    by (apply (Hgen targets ([], all, mc)); [apply incl_refl | exact Hmc | exact Hrun]).
  induction l as [|[N F] l IH]; intros st Hincl Hst E; simpl in E.
  - now injection E as <-.
  - inv_bind_as E st1 E1. apply (IH st1); [intros e He; apply Hincl; now right | | exact E].
    unfold extend_by_nucleotide in E1. cbn [fst snd] in E1.
    apply (foldM_invariant (fun s => all_chained (cs_mc s))
             (extend_combination fuel N F) actual st); [|exact Hst|exact E1].
    intros s ac s' _ Hs. apply extend_combination_chained; [|exact Hs].
    change N with (fst (N, F)). apply in_map. apply Hincl. now left.
Qed.

Lemma extension_rounds_chained (fuel rounds : nat) :
  forall actual all mc st',
    all_chained mc -> extension_rounds fuel rounds targets actual all mc = Returns st' ->
    all_chained (cs_mc st').
Proof.
  induction rounds as [|rounds IH]; intros actual all mc st' Hmc Hrun;
    simpl in Hrun.
  - now injection Hrun as <-.
  - inv_bind_as Hrun st1 E1. destruct st1 as [[new all1] mc1].
    apply extension_round_chained in E1; [|exact Hmc].
    exact (IH _ _ _ _ E1 Hrun).
Qed.

End ChainShape.

Section ReturnedShape.
Context `{FormulaLibrary}.

(** Lines 348-464 take ambiguities away and add none. *)
Lemma filtered_only_removes (nt_groups : list String) (can_xl : oset ascii)
  (max_length : Z) (target_sequences : list String)
  (all : list EmpiricalFormula) (mc : omap String (oset String))
  (k x : String) :
  mc_wf mc ->
  In x (ambiguities
          (snd (filtered nt_groups can_xl max_length target_sequences all mc)) k) ->
  In x (ambiguities mc k).
Proof.
  intros Hwf Hx. unfold filtered in Hx. cbv zeta in Hx.
  set (f2m := fill_formula2mass all) in *.
  rewrite (restriction_filter_flat nt_groups can_xl max_length target_sequences
             f2m Hwf) in Hx. cbn [fst snd] in Hx.
  destruct (touch_all_spec f2m Hwf) as (Hwf_t & Hamb_t & _).
  set (violates :=
         snd (filter_run nt_groups can_xl max_length target_sequences
                (filter_items f2m mc))) in *.
  destruct (erase_violating_spec violates Hwf_t) as (Hwf_e & Hamb_e & _).
  set (mc_e := erase_violating violates (touch_all f2m mc)) in *.
  apply map_get_In in Hx. destruct Hx as (s & Hin & Hs & _).
  unfold erase_empty in Hin. cbn [snd] in Hin. apply filter_In in Hin.
  destruct Hin as [Hin _].
  pose proof (In_map_find _ _ _ (proj1 Hwf_e) Hin) as Ef.
  assert (In x (ambiguities mc_e k)) as Hx_e
    by (now rewrite (ambiguities_find _ _ Ef)).
  apply Hamb_e in Hx_e. destruct Hx_e as [Hx_t _]. now rewrite Hamb_t in Hx_t.
Qed.

(** X11: Lines 256-329 and 348-471: every ambiguity of the returned result, the
    label of the cysteine adduct apart, is a chain of symbols of target
    nucleotides put in front of the string of one modification listed for
    a target nucleotide: at most one modified nucleotide is part of a
    chain, and it is the last one. *)
Theorem at_most_one_modified_nucleotide (fuel : nat)
  (target_nucleotides nt_groups : list String) (can_xl : oset ascii)
  (mappings modifications : list String) (sequence_restriction : String)
  (cysteine_adduct : bool) (max_length : Z) (r : NuXLModificationMassesResult)
  (formula s : String) :
  initModificationMassesNA fuel target_nucleotides nt_groups can_xl mappings
    modifications sequence_restriction cysteine_adduct max_length = Returns r ->
  In s (ambiguities (mod_combinations r) formula) ->
  cysteine_adduct = false \/ s <> cysteine_adduct_string ->
  exists targets mods chain N F nt_mod,
    parse_target_nucleotides target_nucleotides = Returns targets /\
    parse_modifications modifications = Returns mods /\
    (forall n, In n chain -> In n (map_keys targets)) /\
    In (N, F) targets /\ In nt_mod (map_get [] N mods) /\
    s = concat chain ++ snd (modified_nucleotide N F nt_mod).
Proof.
  intros Hrun Hs Hcys. apply initModificationMassesNA_Returns in Hrun.
  destruct Hrun as (cys & targets & mst & restriction & mods & all & mc
                    & _ & Htargets & _ & Hmods & Hchain & Hr).
  pose proof Hchain as Hinv. apply chain_extension_inv in Hinv.
  destruct Hinv as [Hwf Hgen].
  destruct (filtered_spec nt_groups can_xl max_length
              (generateTargetSequences restriction 0 mst) Hwf Hgen)
    as (Hwf' & _).
  set (fm := filtered nt_groups can_xl max_length
               (generateTargetSequences restriction 0 mst) all mc) in *.
  assert (In s (ambiguities (snd fm) formula)) as Hin.
  { unfold add_cysteine_adduct in Hr. destruct cysteine_adduct.
    - injection Hr as _ Hmc. rewrite Hmc in Hs.
      apply (ambiguities_insert _ _ _ _ Hwf') in Hs.
      destruct Hs as [[_ ->] | Hs]; [|exact Hs].
      destruct Hcys as [Hc | Hc]; [discriminate | congruence].
    - injection Hr as _ Hmc. now rewrite Hmc in Hs. }
  apply filtered_only_removes in Hin; [|exact Hwf].
  apply chain_extension_Returns in Hchain. destruct Hchain as (new_f & Hrounds).
  apply (@extension_rounds_chained _ targets mods) in Hrounds;
    [|apply single_nucleotides_chained].
  destruct Hrounds as [_ Hall]. unfold cs_mc in Hall. cbn [snd] in Hall.
  destruct (Hall formula s Hin)
    as (chain & s0 & Hnames & (N & F & nt_mod & HN & Hmod & ->) & ->).
  exists targets, mods, chain, N, F, nt_mod. now repeat split.
Qed.

End ReturnedShape.

(** The ambiguity ["AU"] of the scenario: [A] in front of the unmodified
    [U] *)
Lemma at_most_one_modified_nucleotide_witness :
  exists targets mods chain N F nt_mod,
    parse_target_nucleotides (H := SimpleFormulas.library)
      Scenario.target_nucleotides = Returns targets /\
    parse_modifications (H := SimpleFormulas.library) [str "A:"; str "U:"]
    = Returns mods /\
    (forall n, In n chain -> In n (map_keys targets)) /\
    In (N, F) targets /\ In nt_mod (map_get [] N mods) /\
    str "AU" = concat chain ++ snd (modified_nucleotide N F nt_mod).
Proof.
  apply (@at_most_one_modified_nucleotide SimpleFormulas.library 8
           Scenario.target_nucleotides [] Scenario.can_xl [] [str "A:"; str "U:"]
           (str "AU") false 2 _
           (SimpleFormulas.to_string Scenario.formula_AU) (str "AU")
           scenario_result).
  - now left.
  - now left.
Defined.

(* ===================================================================== *)
(** ** Rename rules only (lines 150-168, 526-581) *)
(* ===================================================================== *)

(** What the renames of lines 150-168 make of one character of the
    restriction sequence: the one-target rules are applied in key order,
    each to the outcome of the rules before it. *)
Definition rename_char (parsed : omap ascii (list ascii)) (c : ascii) : ascii :=
  fold_left
    (fun c e =>
       match snd e with
       | [first_target] => if Ascii.eqb c (fst e) then first_target else c
       | _ => c
       end)
    parsed c.

Lemma erase_trivial_renames (parsed : omap ascii (list ascii)) :
  (forall c targets, In (c, targets) parsed -> length targets = 1) ->
  forall seq, erase_trivial parsed seq = ([], map (rename_char parsed) seq).
Proof.
  induction parsed as [|[source targets] parsed IH]; intros Hone seq.
  - simpl. now rewrite map_id.
  - pose proof (Hone source targets (or_introl eq_refl)) as Hl.
    destruct targets as [|first_target [|second rest]]; try discriminate.
    assert (forall c targets, In (c, targets) parsed -> length targets = 1) as Hone'
      by (intros c t Hin; apply (Hone c); now right).
    cbn [erase_trivial]. unfold rename_char. cbn [fold_left fst snd].
    fold (rename_char parsed).
    destruct (Ascii.eqb source first_target) eqn:E.
    + apply Ascii.eqb_eq in E. subst first_target. rewrite (IH Hone').
      f_equal. apply map_ext. intros c.
      destruct (Ascii.eqb c source) eqn:Ec; [|reflexivity].
      apply Ascii.eqb_eq in Ec. now subst c.
    + rewrite (IH Hone'). unfold substitute_char. now rewrite map_map.
Qed.

(** X5: When every source nucleotide of the substitution rules has one target,
    all rules are renames or identities: the map handed to the expander is
    empty, and the expander returns one target sequence, which is the
    restriction sequence (the supplied one when it is not empty) with
    every character renamed by the rules in key order. *)
Theorem rename_rules_give_one_target_sequence (mappings : list String)
  (sequence_restriction : String) (max_length : Z)
  (parsed : omap ascii (list ascii)) :
  parse_mappings mappings = Returns parsed ->
  (forall c targets, In (c, targets) parsed -> length targets = 1) ->
  exists sources,
    extract_source_nucleotides mappings = Returns sources /\
    let given := restriction_or_all sources sequence_restriction max_length in
    let restriction := map (rename_char parsed) given in
    effective_restriction mappings sequence_restriction max_length
    = Returns ([], restriction) /\
    generateTargetSequences restriction 0 [] = [restriction] /\
    (sequence_restriction <> [] -> given = sequence_restriction).
Proof.
  intros Ep Hone.
  destruct (extract_source_nucleotides_Returns mappings) as [sources Es].
  exists sources. split; [exact Es|]. cbv zeta. split; [|split].
  - unfold effective_restriction. rewrite Ep, Es. cbn [bind].
    now rewrite (@erase_trivial_renames parsed Hone).
  - apply generateTargetSequences_nil.
  - intros Hne. unfold restriction_or_all.
    destruct sequence_restriction; [contradiction | reflexivity].
Qed.

(** The renames [U->X] and [A->U] on ["AUA"]: [A] becomes [U] first, and
    every [U] becomes [X] then. *)
Lemma rename_rules_give_one_target_sequence_witness :
  effective_restriction [str "U->X"; str "A->U"] (str "AUA") 2
  = Returns ([], str "XXX")
  /\ generateTargetSequences (str "XXX") 0 [] = [str "XXX"].
Proof.
  destruct (@rename_rules_give_one_target_sequence [str "U->X"; str "A->U"]
              (str "AUA") 2 [("A"%char, ["U"%char]); ("U"%char, ["X"%char])]
              eq_refl) as (sources & _ & Heff & Hgen & _).
  - intros c targets [[= <- <-] | [[= <- <-] | []]]; reflexivity.
  - split; [exact Heff | exact Hgen].
Defined.

(* ===================================================================== *)
(** ** The output loop (lines 473-520) *)
(* ===================================================================== *)

(** [m[k]] on a key that the map holds leaves the map as it is. *)
Lemma map_touch_present {K V} `{Ordered K} (d : V) (k : K) (m : omap K V) :
  map_sorted m -> In k (map_keys m) -> map_touch d k m = m.
Proof.
  unfold map_touch, map_sorted.
  induction m as [|[h v] t IH]; simpl; [tauto|].
  intros [Hh Ht] Hin. destruct (cmp k h) eqn:E.
  - reflexivity.
  - exfalso. destruct Hin as [-> | Hin].
    + rewrite cmp_refl in E. discriminate.
    + rewrite Forall_forall in Hh. apply Hh in Hin.
      exact (cmp_Lt_asym _ _ E Hin).
  - destruct Hin as [-> | Hin]; [rewrite cmp_refl in E; discriminate|].
    f_equal. now apply IH.
Qed.

Section OutputLoop.
Context `{FormulaLibrary}.

(** Lines 476-520 write the result to the log. What the loop does to the
    result is [result.mod_combinations[m.first]] of line 487, for every
    entry of [result.formula2mass] that line 479 does not skip. *)
Definition log_precursor_adducts (cysteine_adduct : bool)
  (cysteine_adduct_formula : EmpiricalFormula) (r : NuXLModificationMassesResult)
  : NuXLModificationMassesResult :=
  {| formula2mass := formula2mass r;
     mod_combinations :=
       fold_left
         (fun mc m =>
            if cysteine_adduct && String_eqb (fst m) (toString cysteine_adduct_formula)
            then mc
            else map_touch [] (fst m) mc)
         (formula2mass r) (mod_combinations r) |}.

(** The maps at line 472: same keys, [mod_combinations] in key order *)
Lemma returned_keys (fuel : nat)
  (target_nucleotides nt_groups : list String) (can_xl : oset ascii)
  (mappings modifications : list String) (sequence_restriction : String)
  (cysteine_adduct : bool) (max_length : Z) (r : NuXLModificationMassesResult) :
  initModificationMassesNA fuel target_nucleotides nt_groups can_xl mappings
    modifications sequence_restriction cysteine_adduct max_length = Returns r ->
  map_sorted (mod_combinations r) /\
  forall k, In k (map_keys (formula2mass r)) -> In k (map_keys (mod_combinations r)).
Proof.
  intros Hrun. apply initModificationMassesNA_Returns in Hrun.
  destruct Hrun as (cys & targets & mst & restriction & mods & all & mc
                    & _ & _ & _ & _ & Hchain & Hr).
  apply chain_extension_inv in Hchain. destruct Hchain as [Hwf Hgen].
  destruct (filtered_spec nt_groups can_xl max_length
              (generateTargetSequences restriction 0 mst) Hwf Hgen)
    as (Hwf' & Hkeys & _).
  unfold add_cysteine_adduct in Hr. destruct cysteine_adduct.
  - injection Hr as -> ->. split.
    + apply map_upsert_sorted. exact (proj1 Hwf').
    + intros k. unfold map_set, map_set_insert. rewrite !map_keys_upsert.
      pose proof (Hkeys k). tauto.
  - injection Hr as -> ->. split; [exact (proj1 Hwf')|].
    intros k. apply Hkeys.
Qed.

(** X15: Lines 473-520: the output loop looks every key of [formula2mass]
    up in [mod_combinations] with [operator[]], which would create a
    missing entry with an empty set. The two maps have the same keys when
    the loop starts, so it creates none: the result returned at line 522
    is the result of line 472. *)
Theorem output_loop_leaves_result (fuel : nat)
  (target_nucleotides nt_groups : list String) (can_xl : oset ascii)
  (mappings modifications : list String) (sequence_restriction : String)
  (cysteine_adduct : bool) (max_length : Z) (r : NuXLModificationMassesResult)
  (cysteine_adduct_formula : EmpiricalFormula) :
  initModificationMassesNA fuel target_nucleotides nt_groups can_xl mappings
    modifications sequence_restriction cysteine_adduct max_length = Returns r ->
  log_precursor_adducts cysteine_adduct cysteine_adduct_formula r = r.
Proof.
  intros Hrun. apply returned_keys in Hrun. destruct Hrun as [Hs Hkeys].
  destruct r as [f2m mc]. unfold log_precursor_adducts. cbn [formula2mass mod_combinations] in *.
  f_equal.
  enough (forall l, incl l f2m ->
            fold_left
              (fun mc m =>
                 if cysteine_adduct
                    && String_eqb (fst m) (toString cysteine_adduct_formula)
                 then mc
                 else map_touch [] (fst m) mc) l mc = mc) as Hgen
    by (apply Hgen, incl_refl).
  induction l as [|m l IH]; intros Hincl; simpl; [reflexivity|].
  assert (map_touch [] (fst m) mc = mc) as ->.
  { apply map_touch_present; [exact Hs|]. apply Hkeys.
    apply in_map. apply Hincl. now left. }
  destruct (cysteine_adduct && String_eqb _ _);
    apply IH; intros e He; apply Hincl; now right.
Qed.

End OutputLoop.

(** The scenario with the cysteine adduct *)
Lemma output_loop_leaves_result_witness :
  log_precursor_adducts (H := SimpleFormulas.library) true
    (Scenario.formula_of "C4H8S2O2")
    (Scenario.result
       [(SimpleFormulas.to_string Scenario.formula_AU, 653088392%Z);
        (str "C4H8O2S2", 151996572%Z);
        (SimpleFormulas.to_string Scenario.formula_U, 324035870%Z)]
       [(SimpleFormulas.to_string Scenario.formula_AU, [str "AU"]);
        (str "C4H8O2S2", [str "C4H8S2O2"]);
        (SimpleFormulas.to_string Scenario.formula_U, [str "U"])])
  = Scenario.result
      [(SimpleFormulas.to_string Scenario.formula_AU, 653088392%Z);
       (str "C4H8O2S2", 151996572%Z);
       (SimpleFormulas.to_string Scenario.formula_U, 324035870%Z)]
      [(SimpleFormulas.to_string Scenario.formula_AU, [str "AU"]);
       (str "C4H8O2S2", [str "C4H8S2O2"]);
       (SimpleFormulas.to_string Scenario.formula_U, [str "U"])].
Proof.
  exact (@output_loop_leaves_result SimpleFormulas.library 8
           Scenario.target_nucleotides [] Scenario.can_xl [] [str "A:"; str "U:"]
           (str "AU") true 2 _ (Scenario.formula_of "C4H8S2O2")
           scenario_result_with_cysteine_adduct).
Defined.

(* ===================================================================== *)
(** ** A target nucleotide with the formula of water (lines 316-326) *)
(* ===================================================================== *)

Lemma str_cmp_app (n a b : String) : str_cmp (n ++ a) (n ++ b) = str_cmp a b.
Proof.
  induction n as [|x n IH]; simpl; [reflexivity|].
  unfold char_cmp. now rewrite N.compare_refl.
Qed.

(** Lines 320-325 when the extended formula has the string of the formula
    it extends: the strings are inserted into the set that the loop runs
    over. When every string of the set sorts before itself with the
    nucleotide in front, each insertion lands behind the iterator, and the
    loop finds a next element after every step. *)
Lemma extend_ambiguities_same_key (N k : String) :
  forall (fuel : nat) (s : String) (mc : omap String (oset String)),
    mc_wf mc ->
    (forall y, In y (ambiguities mc k) -> cmp y (N ++ y) = Lt) ->
    In s (ambiguities mc k) ->
    extend_ambiguities fuel N k k (Some s) mc = OutOfFuel.
Proof.
  induction fuel as [|fuel IH]; intros s mc Hwf Hall Hs; simpl; [reflexivity|].
  pose proof (mc_wf_insert k (N ++ s) Hwf) as Hwf1.
  pose proof (ambiguities_sorted k Hwf1) as Hsorted.
  assert (forall y, In y (ambiguities (map_set_insert k (N ++ s) mc) k) ->
                    cmp y (N ++ y) = Lt) as Hall1.
  { intros y Hy. apply ambiguities_insert in Hy; [|exact Hwf].
    destruct Hy as [[_ ->] | Hy]; [|now apply Hall].
    change (str_cmp (N ++ s) (N ++ N ++ s) = Lt). rewrite str_cmp_app.
    now apply Hall. }
  assert (In (N ++ s) (ambiguities (map_set_insert k (N ++ s) mc) k)) as Hnew
    by (apply ambiguities_insert; [exact Hwf | now left]).
  unfold ambiguities in *.
  destruct (set_next (map_get [] k (map_set_insert k (N ++ s) mc)) s)
    as [z|] eqn:En.
  - apply IH; [exact Hwf1 | exact Hall1 |].
    now destruct (set_next_Some _ _ Hsorted En) as (Hz & _).
  - exfalso. apply (@set_next_None _ _ _ s (N ++ s) En Hnew). now apply Hall.
Qed.

Section LiveSet.
Context `{FormulaLibrary}.

Lemma extend_combination_same_string (fuel : nat) (N : String)
  (F_N water : EmpiricalFormula) (st : chain_state) (ac : EmpiricalFormula)
  (s : String) :
  newFormula (str "H2O") = Returns water ->
  toString (extend_formula water F_N ac) = toString ac ->
  mc_wf (cs_mc st) ->
  In s (ambiguities (cs_mc st) (toString ac)) ->
  (forall y, In y (ambiguities (cs_mc st) (toString ac)) -> cmp y (N ++ y) = Lt) ->
  extend_combination fuel N F_N st ac = OutOfFuel.
Proof.
  intros Hw Hsame Hwf Hs Hall. unfold extend_combination.
  destruct st as [[new all] mc]. unfold cs_mc in *. cbn [snd] in *.
  rewrite Hw. cbn [bind]. unfold extend_formula in Hsame. rewrite Hsame.
  pose proof (mc_wf_touch (toString ac) Hwf) as Hwf_t.
  pose proof (ambiguities_touch (toString ac) (toString ac) Hwf) as Et.
  set (mc_t := map_touch [] (toString ac) mc) in *.
  change (map_get [] (toString ac) mc_t) with (ambiguities mc_t (toString ac)).
  assert (exists s0, set_begin (ambiguities mc_t (toString ac)) = Some s0
                     /\ In s0 (ambiguities mc_t (toString ac))) as (s0 & -> & Hs0).
  { rewrite Et. destruct (ambiguities mc (toString ac)) as [|s0 rest];
      [destruct Hs|]. exists s0. split; [reflexivity | now left]. }
  rewrite (@extend_ambiguities_same_key N (toString ac) fuel s0 mc_t Hwf_t);
    [reflexivity | | exact Hs0].
  intros y Hy. apply Hall. now rewrite <- Et.
Qed.

(** Lines 308-326 when the first target nucleotide put in front of the
    first combination leaves the string of its formula as it is: the first
    round does not end. *)
Lemma chain_extension_same_string (max_length : Z) (N : String)
  (F_N water ac : EmpiricalFormula) (targets : omap String EmpiricalFormula)
  (actual : list EmpiricalFormula) (mc : omap String (oset String)) (s : String) :
  (2 <= max_length)%Z ->
  newFormula (str "H2O") = Returns water ->
  toString (extend_formula water F_N ac) = toString ac ->
  mc_wf mc ->
  In s (ambiguities mc (toString ac)) ->
  (forall y, In y (ambiguities mc (toString ac)) -> cmp y (N ++ y) = Lt) ->
  forall fuel,
    chain_extension fuel max_length ((N, F_N) :: targets) (ac :: actual) mc
    = OutOfFuel.
Proof.
  intros Hlen Hw Hsame Hwf Hs Hall fuel. unfold chain_extension.
  destruct (Z.to_nat (max_length - 1)) as [|rounds] eqn:E; [lia|].
  cbn [extension_rounds]. unfold extension_round. cbn [foldM].
  unfold extend_by_nucleotide at 1. cbn [foldM fst snd].
  rewrite (@extend_combination_same_string fuel N F_N water
             ([], ac :: actual, mc) ac s Hw Hsame Hwf Hs Hall).
  reflexivity.
Qed.

Lemma generate_and_filter_OutOfFuel (fuel : nat)
  (targets : omap String EmpiricalFormula)
  (mods : omap String NucleotideModifications) (target_sequences : list String)
  (nt_groups : list String) (can_xl : oset ascii) (cysteine_adduct : bool)
  (cysteine_adduct_formula : EmpiricalFormula) (max_length : Z) :
  chain_extension fuel max_length targets
    (fst (single_nucleotides targets mods)) (snd (single_nucleotides targets mods))
  = OutOfFuel ->
  generate_and_filter fuel targets mods target_sequences nt_groups can_xl
    cysteine_adduct cysteine_adduct_formula max_length = OutOfFuel.
Proof.
  unfold generate_and_filter.
  destruct (single_nucleotides targets mods) as [actual mc]. cbn [fst snd].
  now intros ->.
Qed.

End LiveSet.

Module WaterScenario.
Import SimpleFormulas.

(** One target nucleotide [X] with the formula of water, listed
    unmodified, cross-linkable, with the restriction sequence ["X"] *)
Definition target_nucleotides : list String := [str "X=H2O"].
Definition modifications : list String := [str "X:"].
Definition can_xl : oset ascii := ["X"%char].

Definition run (max_length : Z) (fuel : nat) : outcome NuXLModificationMassesResult :=
  initModificationMassesNA fuel target_nucleotides [] can_xl [] modifications
    (str "X") false max_length.

Definition targets : omap String formula := [(str "X", Scenario.water)].
Definition mods : omap String NucleotideModifications := [(str "X", [[]])].

End WaterScenario.

(** C6, on the input [X=H2O], ["X:"], [max_length = 2]: the formula of
    [X] after the condensation is the formula of water again, so line 323
    inserts ["XX"], ["XXX"], ... into the set that the loop of line 321
    runs over, and the first round of the chain extension does not end:
    the generator returns for no iteration budget. With [max_length = 1]
    no round runs and the generator returns. *)
Theorem chain_extension_does_not_end_on_water :
  (forall fuel, WaterScenario.run 2 fuel = OutOfFuel)
  /\ WaterScenario.run 1 1
     = Returns (Scenario.result [(str "H2O1", 18010565%Z)] [(str "H2O1", [str "X"])]).
Proof.
  split; [|reflexivity].
  intros fuel.
  change (WaterScenario.run 2 fuel)
    with (generate_and_filter (H := SimpleFormulas.library) fuel
            WaterScenario.targets WaterScenario.mods [str "X"] []
            WaterScenario.can_xl false (Scenario.formula_of "C4H8S2O2") 2).
  apply generate_and_filter_OutOfFuel.
  apply (@chain_extension_same_string SimpleFormulas.library 2 (str "X")
           Scenario.water Scenario.water Scenario.water [] [] _ (str "X")).
  - lia.
  - reflexivity.
  - reflexivity.
  - apply single_nucleotides_wf.
  - now left.
  - intros y [<- | []]. reflexivity.
Qed.
